(** * color-palette-extractor: the colour-quantisation pipeline of
      [src/utils/extractColors.js]

    The development embeds the functions of [extractColors.js] and proves
    the properties its specification states about them; after these it
    proves further properties of the same functions and of the two
    functions of the caller, [App.jsx], that use their results.

    Numbers.  A JavaScript number is a binary64 float.  Three kinds of
    quantity occur in the program and each has its own carrier here.

    - Integer-valued quantities (channel bytes, channel sums, pixel counts,
      indices, the results of [Math.round]) are values of [Z]; binary64
      represents integers exactly far beyond the sizes a 250x250 canvas
      produces.
    - The colour-space conversions [rgbToHsl] and [getContrastColor] take
      three bytes.  They are transcribed operation by operation over Rocq's
      primitive binary64 floats, so every rounding step is the machine's.
      Their properties are established on all 2^24 colours, by evaluation
      and with the library's specification of the float comparisons.
    - The sampler, the partitioner and the ranker work on pixel lists of any
      length.  The saturation of a bucket (a sum and a mean of doubles)
      and the score that ranks the buckets are primitive binary64 floats
      too, computed in the order the program computes them; their order is
      read off the library's specification of the float operations.  The
      saturation of a pixel is the quotient of two integers: it is kept as
      that exact fraction [Q], and the double the program stores is its IEEE
      quotient [JS.Q2F].  The brightness of the filter is an exact
      rational; the filter is shown to decide the same way over
      binary64. *)

From Stdlib Require Import ZArith QArith Qround List Bool Lia Lqa String Ascii.
From Stdlib Require Import Sorting.Sorted Sorting.Permutation.
From Stdlib Require Import HexadecimalString DecimalString.
From Stdlib Require Import Floats Uint63.
Import ListNotations.

Set Warnings "-inexact-float".

(* ================================================================= *)
(** * The JavaScript built-ins the program calls *)

Module JS.

(** ** Rational numbers *)

Definition Qltb (x y : Q) : bool := negb (Qle_bool y x).

(** [Math.round] on an exact rational: the nearest integer, a tie going
    towards plus infinity. *)
Definition Math_round (x : Q) : Z := Qfloor (x + (1 # 2)).

(** What [Array.prototype.sort] asks of the number its comparator returns:
    whether it is greater than [0].  A comparator on integers returns an
    exact rational here, a comparator on doubles a double. *)
Class Number (N : Type) := positive : N -> bool.

#[global] Instance Number_Q : Number Q := fun x => Qltb 0 x.
#[global] Instance Number_float : Number float := fun x => (0 <? x)%float.

(** ** binary64 numbers *)

(** A byte (or any integer below 2^63) as a double. *)
Definition Z2F (z : Z) : float := PrimFloat.of_uint63 (Uint63.of_Z z).

(** [Math.round] on a double.  [Prim2SF] gives the sign [s], the mantissa
    [m] and the exponent [e] of a finite non-zero double, whose value is
    [± m * 2^e].  For [e >= 0] the value is an integer; otherwise it is
    [± m / 2^(-e)] and is rounded to the nearest integer, a tie going towards
    plus infinity: [floor (value + 1/2)].  Zero rounds to [0].  [Math.round]
    leaves NaN and the infinities as they are; they are no integers and are
    sent to [0] here, and no function of this program reaches them on
    bytes. *)
Definition Math_round64 (x : float) : Z :=
  match Prim2SF x with
  | S754_finite s m e =>
      let n := if s then Z.neg m else Z.pos m in
      if (0 <=? e)%Z then (n * 2 ^ e)%Z
      else ((2 * n + 2 ^ (- e)) / (2 * 2 ^ (- e)))%Z
  | _ => 0%Z
  end.

(** The double of a fraction of two integers: the IEEE quotient of the
    numerator by the denominator.  Both are doubles themselves when they are
    below 2^53, so the quotient is the double nearest to the fraction. *)
Definition Q2F (x : Q) : float := (Z2F (Qnum x) / Z2F (Z.pos (Qden x)))%float.

(** [x || 0] on a double: [0], [-0] and NaN are the falsy numbers. *)
Definition or_zero (x : float) : float :=
  if (x =? 0)%float || PrimFloat.is_nan x then 0%float else x.

(** [Math.max] and [Math.min] of two doubles that are not NaN. *)
Definition Math_max64 (a b : float) : float := if (a <? b)%float then b else a.
Definition Math_min64 (a b : float) : float := if (b <? a)%float then b else a.

(** ** Strings *)

(** [x.toString(16)] and [String(x)] for an integer [x]. *)
Definition toString16 (x : Z) : string :=
  if (x <? 0)%Z
  then ("-" ++ HexadecimalString.NilZero.string_of_uint (N.to_hex_uint (Z.to_N (- x))))%string
  else HexadecimalString.NilZero.string_of_uint (N.to_hex_uint (Z.to_N x)).

Definition toString10 (x : Z) : string :=
  DecimalString.NilZero.string_of_int (Z.to_int x).

Fixpoint repeat_char (c : ascii) (n : nat) : string :=
  match n with
  | O => EmptyString
  | S n' => String c (repeat_char c n')
  end.

(** [s.padStart(targetLength, c)] for a one-character filler [c]. *)
Definition padStart (targetLength : nat) (c : ascii) (s : string) : string :=
  (repeat_char c (targetLength - String.length s) ++ s)%string.

(** [strs.join('')]. *)
Definition join (strs : list string) : string :=
  fold_right String.append EmptyString strs.

(** ** Arrays *)

(** [arr.sort(comparefn)].  ECMAScript requires the sort to be stable, and
    for a consistent comparator the stable sorted order of an array is
    unique, so one stable sort models every conforming engine.  This one
    inserts the elements from the right; [x] moves past [y] exactly when
    [comparefn(x, y) > 0]. *)
Section Sort.
Context {A N : Type} {number : Number N} (comparefn : A -> A -> N).

Fixpoint insert (x : A) (l : list A) : list A :=
  match l with
  | [] => [x]
  | y :: l' =>
      if positive (comparefn x y) then y :: insert x l' else x :: y :: l'
  end.

Fixpoint sort (l : list A) : list A :=
  match l with
  | [] => []
  | x :: l' => insert x (sort l')
  end.
End Sort.

(** [arr.slice(0, n)] and [arr.slice(n)] for [n >= 0]. *)
Definition slice_to {A : Type} (n : nat) (l : list A) : list A := firstn n l.
Definition slice_from {A : Type} (n : nat) (l : list A) : list A := skipn n l.

End JS.

(* ================================================================= *)
(** * Colour-space conversions *)

(** [rgbToHex]: [ '#' + [r, g, b].map(x => x.toString(16).padStart(2, '0')).join('') ]. *)
Definition rgbToHex (r g b : Z) : string :=
  ("#" ++ JS.join (map (fun x => JS.padStart 2 "0" (JS.toString16 x)) [r; g; b]))%string.

Record HSL := mkHSL { hsl_h : Z; hsl_s : Z; hsl_l : Z }.

(** [rgbToHsl], over binary64.  [hslOfUnit] is the body of the function
    between the three divisions by 255 and the [return]: from the channels
    as fractions of one to [h], [s] and [l] as fractions of a turn and of
    one.  The [switch (max)] compares with strict equality in the order
    [r], [g], [b]; when no case matches [h] stays undefined and [h * 360]
    is NaN. *)
Definition hslOfUnit (r g b : float) : float * float * float :=
  let max := JS.Math_max64 (JS.Math_max64 r g) b in
  let min := JS.Math_min64 (JS.Math_min64 r g) b in
  let l := ((max + min) / 2)%float in
  if (max =? min)%float then (0%float, 0%float, l)
  else
    let d := (max - min)%float in
    let s := if (0.5 <? l)%float
             then (d / (2 - max - min))%float
             else (d / (max + min))%float in
    let h :=
      if (max =? r)%float
      then (((g - b) / d + (if (g <? b)%float then 6 else 0)) / 6)%float
      else if (max =? g)%float then (((b - r) / d + 2) / 6)%float
      else if (max =? b)%float then (((r - g) / d + 4) / 6)%float
      else PrimFloat.nan in
    (h, s, l).

Definition hslFractions (r g b : Z) : float * float * float :=
  let r := (JS.Z2F r / 255)%float in
  let g := (JS.Z2F g / 255)%float in
  let b := (JS.Z2F b / 255)%float in
  hslOfUnit r g b.

Definition rgbToHsl (r g b : Z) : HSL :=
  let '(h, s, l) := hslFractions r g b in
  {| hsl_h := JS.Math_round64 (h * 360)%float;
     hsl_s := JS.Math_round64 (s * 100)%float;
     hsl_l := JS.Math_round64 (l * 100)%float |}.

Definition black : string := "#000000".
Definition white : string := "#ffffff".

(** The luminance that [getContrastColor] computes, over binary64. *)
Definition luminance (r g b : Z) : float :=
  ((0.299 * JS.Z2F r + 0.587 * JS.Z2F g + 0.114 * JS.Z2F b) / 255)%float.

Definition getContrastColor (r g b : Z) : string :=
  if (0.5 <? luminance r g b)%float then black else white.

(* ================================================================= *)
(** * Pixel sampler *)

(** A sampled pixel, the array [[r, g, b, saturation]]. *)
Record Pixel := mkPixel {
  px_r : Z;
  px_g : Z;
  px_b : Z;
  px_sat : Q
}.

Definition getSaturation (r g b : Z) : Q :=
  let max := Z.max (Z.max r g) b in
  let min := Z.min (Z.min r g) b in
  if (max =? 0)%Z then 0%Q
  else (inject_Z (max - min) / inject_Z max)%Q.

Definition brightness (r g b : Z) : Q := (inject_Z (r + g + b) / 3)%Q.

(** The body of the loop of [getPixels] for the four bytes of one pixel:
    the pixel it pushes, or [None] when it [continue]s. *)
Definition samplePixel (r g b a : Z) : option Pixel :=
  if (a <? 128)%Z then None
  else
    let brightness := brightness r g b in
    if JS.Qltb brightness 5 || JS.Qltb 250 brightness then None
    else
      let saturation := getSaturation r g b in
      Some (mkPixel r g b saturation).

(** [getPixels] on [imageData.data], the flat RGBA byte array of a canvas.
    The loop advances by four bytes.  The array of an [ImageData] holds
    [4 * width * height] bytes, so the scan ends on a whole pixel; fewer
    than four remaining bytes do not occur and end the scan. *)
Fixpoint getPixels (data : list Z) : list Pixel :=
  match data with
  | r :: g :: b :: a :: rest =>
      match samplePixel r g b a with
      | Some p => p :: getPixels rest
      | None => getPixels rest
      end
  | _ => []
  end.

(* ================================================================= *)
(** * Median-cut partitioner *)

(** The channel indices [0], [1], [2] of a pixel array. *)
Inductive Channel := Red | Green | Blue.

Definition channel (p : Pixel) (c : Channel) : Z :=
  match c with
  | Red => px_r p
  | Green => px_g p
  | Blue => px_b p
  end.

Definition getColorRange (pixels : list Pixel) (c : Channel) : Z :=
  let '(min, max) :=
    fold_left
      (fun '(min, max) pixel =>
         let min := if (channel pixel c <? min)%Z then channel pixel c else min in
         let max := if (channel pixel c >? max)%Z then channel pixel c else max in
         (min, max))
      pixels (255, 0)%Z in
  (max - min)%Z.

(** A colour bucket, the object a leaf of the partition returns. *)
Record Bucket := mkBucket {
  bk_r : Z;
  bk_g : Z;
  bk_b : Z;
  bk_saturation : float;
  bk_count : Z
}.

(** The leaf of [medianCut] on a non-empty pixel list: the rounded average
    colour, the mean saturation and the number of pixels.  The channel sums
    and the length are integers; their quotient is either a tie or at least
    1/(2 * length) away from one, far more than the error of one double
    division, so rounding the exact quotient is what [Math.round] returns.
    The saturations are doubles: [pixel[3]] is the double of the quotient
    that [getSaturation] returned, [sat] the double sum in the order of the
    list and [avgSat] its double quotient by the length. *)
Definition averageBucket (pixels : list Pixel) : Bucket :=
  let '(r, g, b, sat) :=
    fold_left
      (fun '(r, g, b, sat) pixel =>
         ((r + px_r pixel)%Z, (g + px_g pixel)%Z, (b + px_b pixel)%Z,
          (sat + JS.or_zero (JS.Q2F (px_sat pixel)))%float))
      pixels (0%Z, 0%Z, 0%Z, 0%float) in
  let length := inject_Z (Z.of_nat (List.length pixels)) in
  let avgR := JS.Math_round (inject_Z r / length) in
  let avgG := JS.Math_round (inject_Z g / length) in
  let avgB := JS.Math_round (inject_Z b / length) in
  let avgSat := (sat / JS.Z2F (Z.of_nat (List.length pixels)))%float in
  mkBucket avgR avgG avgB avgSat (Z.of_nat (List.length pixels)).

(** The split channel, in the order the source tests the ranges. *)
Definition splitChannel (rRange gRange bRange : Z) : Channel :=
  if (rRange >=? gRange)%Z && (rRange >=? bRange)%Z then Red
  else if (gRange >=? rRange)%Z && (gRange >=? bRange)%Z then Green
  else Blue.

(** The comparator [(a, b) => a[channel] - b[channel]]. *)
Definition byChannel (c : Channel) (a b : Pixel) : Q :=
  inject_Z (channel a c - channel b c).

(** [medianCut].  [depth] counts the remaining levels down to [0]; the
    pipeline passes a natural number (see [depthFor]).  [pixels.sort] sorts
    in place, so [pixels.length] and the two slices are those of the sorted
    array. *)
Fixpoint medianCut (pixels : list Pixel) (depth : nat) : list Bucket :=
  match depth, pixels with
  | _, [] => []
  | O, _ => [averageBucket pixels]
  | S depth', _ =>
      let rRange := getColorRange pixels Red in
      let gRange := getColorRange pixels Green in
      let bRange := getColorRange pixels Blue in
      let c := splitChannel rRange gRange bRange in
      let sorted := JS.sort (byChannel c) pixels in
      let mid := (List.length sorted / 2)%nat in
      medianCut (JS.slice_to mid sorted) depth'
        ++ medianCut (JS.slice_from mid sorted) depth'
  end.

(* ================================================================= *)
(** * Ranker and pipeline *)

(** The score of the ranking sort, [count * (1 + saturation * 2)], over
    binary64. *)
Definition score (c : Bucket) : float :=
  (JS.Z2F (bk_count c) * (1 + bk_saturation c * 2))%float.

(** The comparator of the ranking sort: [scoreB - scoreA], a double. *)
Definition byScore (a b : Bucket) : float :=
  let scoreA := score a in
  let scoreB := score b in
  (scoreB - scoreA)%float.

(** The ranking stage: sort by score, keep the first [colorCount]. *)
Definition rank (colors : list Bucket) (colorCount : Z) : list Bucket :=
  let colors := JS.sort byScore colors in
  JS.slice_to (Z.to_nat colorCount) colors.

Record PaletteEntry := mkPaletteEntry {
  pe_r : Z;
  pe_g : Z;
  pe_b : Z;
  pe_hex : string;
  pe_hsl : HSL;
  pe_contrast : string;
  pe_rgb : string;
  pe_hslString : string
}.

Definition paletteEntry (color : Bucket) : PaletteEntry :=
  let hex := rgbToHex (bk_r color) (bk_g color) (bk_b color) in
  let hsl := rgbToHsl (bk_r color) (bk_g color) (bk_b color) in
  let contrast := getContrastColor (bk_r color) (bk_g color) (bk_b color) in
  {| pe_r := bk_r color;
     pe_g := bk_g color;
     pe_b := bk_b color;
     pe_hex := hex;
     pe_hsl := hsl;
     pe_contrast := contrast;
     pe_rgb := ("rgb(" ++ JS.toString10 (bk_r color) ++ ", "
                 ++ JS.toString10 (bk_g color) ++ ", "
                 ++ JS.toString10 (bk_b color) ++ ")")%string;
     pe_hslString := ("hsl(" ++ JS.toString10 (hsl_h hsl) ++ ", "
                       ++ JS.toString10 (hsl_s hsl) ++ "%, "
                       ++ JS.toString10 (hsl_l hsl) ++ "%)")%string |}.

(** The two messages the promise is rejected with. *)
Definition NoValidPixels : string := "No valid pixels found in image".
Definition ImageDecodeFailed : string := "Failed to load image".

(** How the promise of [extractColors] ends.  [Pending] is the promise that
    is never settled: an exception that escapes the [onload] handler is not
    turned into a rejection. *)
Inductive Outcome :=
| Rejected (message : string)
| Resolved (result : list PaletteEntry)
| Pending.

(** What the browser does with the image: it fires [onerror], or it fires
    [onload].  [Loaded data]: [onload] fires and [data] are the bytes of the
    scaled canvas, four for each of its [width * height] pixels.  The canvas
    of an image whose longer edge is more than 500 times the shorter one
    has an edge of 0 (see [canvasSize]) and no bytes: [data] is empty and
    [getImageData] throws. *)
Inductive ImageLoad :=
| LoadError
| Loaded (data : list Z).

(** The counts for which the depth below is the depth of the program. *)
Definition maxColorCount : Z := 2 ^ 32.

(** [Math.ceil(Math.log2(colorCount)) + 2].  For an integer [colorCount >= 1]
    this is a natural number.  [Math.log2] is a double: it is exact at the
    powers of two, and up to [maxColorCount] the logarithm of every other
    integer lies more than 3 * 10^-10 above the integer below it, far more
    than the error of the double, so [Math.ceil] gives the exact ceiling.
    Above 2^49 the double logarithm can round down to an integer; the
    statements that depend on the depth keep to [maxColorCount].
    For [colorCount <= 0] the logarithm is minus infinity or NaN, which is no
    depth: it never equals [0] on the way down. *)
Definition depthFor (colorCount : Z) : option nat :=
  if (1 <=? colorCount)%Z
  then Some (Z.to_nat (Z.log2_up colorCount + 2))
  else None.

(** The [onload] handler from [getImageData] on.  On a canvas without
    bytes [getImageData] throws an IndexSizeError; the handler does not
    catch it, neither [resolve] nor [reject] is called and the promise stays
    pending.  With no natural depth the recursion of [medianCut] on a
    non-empty list does not end, the engine raises a RangeError inside the
    handler and the promise stays pending as well. *)
Definition onload (data : list Z) (colorCount : Z) : Outcome :=
  match data with
  | [] => Pending
  | _ :: _ =>
      let pixels := getPixels data in
      if (List.length pixels =? 0)%nat then Rejected NoValidPixels
      else
        match depthFor colorCount with
        | None => Pending
        | Some depth =>
            let colors := medianCut pixels depth in
            let colors := rank colors colorCount in
            Resolved (map paletteEntry colors)
        end
  end.

(** [extractColors(imageUrl, colorCount = 6)]: an absent [colorCount] is
    [None]. *)
Definition extractColors (image : ImageLoad) (colorCount : option Z) : Outcome :=
  let colorCount := match colorCount with Some n => n | None => 6%Z end in
  match image with
  | LoadError => Rejected ImageDecodeFailed
  | Loaded data => onload data colorCount
  end.

(* ================================================================= *)
(** * The words of the specification *)

(** A byte, the range of a colour channel. *)
Definition byte (x : Z) : Prop := (0 <= x <= 255)%Z.

Definition validPixel (p : Pixel) : Prop :=
  byte (px_r p) /\ byte (px_g p) /\ byte (px_b p).

(** The pattern [#[0-9a-f]{6}]. *)
Definition isLowerHex (c : ascii) : bool :=
  let n := nat_of_ascii c in
  ((48 <=? n) && (n <=? 57) || (97 <=? n) && (n <=? 102))%nat.

Fixpoint allLowerHex (s : string) : bool :=
  match s with
  | EmptyString => true
  | String c s' => isLowerHex c && allLowerHex s'
  end.

Definition matchesHexColor (s : string) : bool :=
  match s with
  | String "#" digits => (String.length digits =? 6)%nat && allLowerHex digits
  | _ => false
  end.

(** The two lowercase hexadecimal digits of a byte. *)
Definition hexDigit (d : Z) : ascii :=
  match String.get (Z.to_nat d) "0123456789abcdef" with
  | Some c => c
  | None => "0"%char
  end.

Definition twoHexDigits (x : Z) : string :=
  String (hexDigit (x / 16)) (String (hexDigit (x mod 16)) EmptyString).

(** The range of a channel over a non-empty pixel set: greatest value minus
    least value. *)
Definition greatest (l : list Z) : Z :=
  match l with
  | [] => 0%Z
  | x :: l' => fold_right Z.max x l'
  end.

Definition least (l : list Z) : Z :=
  match l with
  | [] => 0%Z
  | x :: l' => fold_right Z.min x l'
  end.

Definition channelRange (pixels : list Pixel) (c : Channel) : Z :=
  (greatest (map (fun p => channel p c) pixels)
   - least (map (fun p => channel p c) pixels))%Z.

(** All byte values, for the properties that are checked colour by colour. *)
Definition bytes : list Z := map Z.of_nat (seq 0 256).

(** The colours whose luminance is exactly one half in exact arithmetic:
    299 r + 587 g + 114 b = 127500. *)
Definition blueAtHalf (r g : Z) : list (Z * Z * Z) :=
  let rest := (127500 - 299 * r - 587 * g)%Z in
  if ((0 <=? rest) && (rest mod 114 =? 0) && (rest / 114 <=? 255))%Z
  then [(r, g, (rest / 114)%Z)]
  else [].

Definition halfLuminance : list (Z * Z * Z) :=
  flat_map (fun r => flat_map (blueAtHalf r) bytes) bytes.

(** What [getContrastColor] returns on such a colour. *)
Definition whiteButOne (c : Z * Z * Z) : bool :=
  let '(r, g, b) := c in
  if ((r =? 218) && (g =? 58) && (b =? 248))%Z
  then String.eqb (getContrastColor r g b) black
  else String.eqb (getContrastColor r g b) white.

(** A decoded image as the specification sees it, a sequence of
    (r, g, b, alpha) pixels, and its byte array. *)
Definition RGBA : Type := (Z * Z * Z * Z)%type.

Definition flattenRGBA (image : list RGBA) : list Z :=
  flat_map (fun '(r, g, b, a) => [r; g; b; a]) image.

(** The filtering rule of the specification: keep a pixel when its alpha is
    at least 128 and its brightness lies in [5, 250], both ends included. *)
Definition keptBySpec (p : RGBA) : bool :=
  let '(r, g, b, a) := p in
  (128 <=? a)%Z
  && Qle_bool 5 (inject_Z (r + g + b) / 3)
  && Qle_bool (inject_Z (r + g + b) / 3) 250.

(** The saturation of the specification. *)
Definition saturationSpec (r g b : Z) : Q :=
  if Z.eq_dec (Z.max (Z.max r g) b) 0 then 0%Q
  else (inject_Z (Z.max (Z.max r g) b - Z.min (Z.min r g) b)
        / inject_Z (Z.max (Z.max r g) b))%Q.

Definition annotate (p : RGBA) : Pixel :=
  let '(r, g, b, _) := p in mkPixel r g b (saturationSpec r g b).

(** The brightness test of [getPixels] over binary64, to compare with the
    rational one. *)
Definition extremeBrightness64 (r g b : Z) : bool :=
  let brightness := (JS.Z2F (r + g + b) / 3)%float in
  ((brightness <? 5) || (250 <? brightness))%float.

Definition sumZ (l : list Z) : Z := fold_right Z.add 0%Z l.

(** The weight of a bucket list: the sum of its [count] fields. *)
Definition totalCount (buckets : list Bucket) : Z := sumZ (map bk_count buckets).

(** The channel the recursive step of [medianCut] sorts by. *)
Definition chosenChannel (pixels : list Pixel) : Channel :=
  splitChannel (getColorRange pixels Red) (getColorRange pixels Green)
    (getColorRange pixels Blue).

(** The pixel sets at the leaves of [medianCut]: the recursion of
    [medianCut] with the pixel set itself kept at each leaf. *)
Fixpoint leafSets (pixels : list Pixel) (depth : nat) : list (list Pixel) :=
  match depth, pixels with
  | _, [] => []
  | O, _ => [pixels]
  | S depth', _ =>
      let sorted := JS.sort (byChannel (chosenChannel pixels)) pixels in
      let mid := (List.length sorted / 2)%nat in
      leafSets (JS.slice_to mid sorted) depth'
        ++ leafSets (JS.slice_from mid sorted) depth'
  end.

(** All pixels of a set have the colour (r, g, b). *)
Definition singleColor (r g b : Z) (pixels : list Pixel) : Prop :=
  Forall (fun p => px_r p = r /\ px_g p = g /\ px_b p = b) pixels.

(** The bytes as the fractions of one that [rgbToHsl] works on. *)
Definition unitBytes : list float :=
  Eval vm_compute in map (fun z => (JS.Z2F z / 255)%float) bytes.

(** [x] is zero or a finite double. *)
Definition isFinite64 (x : float) : bool :=
  match Prim2SF x with
  | S754_finite _ _ _ | S754_zero _ => true
  | _ => false
  end.

(** [x] is not negative and below [limit]; for [limit = n + 1/2] these are
    the doubles that round into [0 .. n]. *)
Definition roundsWithin (limit : float) (x : float) : bool :=
  ((x <? limit) && negb (x <? 0))%float.

(** The ranges of the specification for the fractions of one colour, with
    hue 360 allowed: hue in [0, 360], saturation and lightness in
    [0, 100]. *)
Definition hslInRange (r g b : float) : bool :=
  let '(h, s, l) := hslOfUnit r g b in
  roundsWithin 360.5 (h * 360)%float
  && roundsWithin 100.5 (s * 100)%float
  && roundsWithin 100.5 (l * 100)%float.

(** The same ranges in two parts.  Saturation and lightness depend on the
    greatest and the least channel only; the hue depends on all three. *)
Definition satLightInRange (max min : float) : bool :=
  let l := ((max + min) / 2)%float in
  roundsWithin 100.5 (l * 100)%float
  && (if (max =? min)%float then true
      else
        let d := (max - min)%float in
        let s := if (0.5 <? l)%float
                 then (d / (2 - max - min))%float
                 else (d / (max + min))%float in
        roundsWithin 100.5 (s * 100)%float).

Definition hueInRange (r g b : float) : bool :=
  let max := JS.Math_max64 (JS.Math_max64 r g) b in
  let min := JS.Math_min64 (JS.Math_min64 r g) b in
  if (max =? min)%float then true
  else
    let d := (max - min)%float in
    let h :=
      if (max =? r)%float
      then (((g - b) / d + (if (g <? b)%float then 6 else 0)) / 6)%float
      else if (max =? g)%float then (((b - r) / d + 2) / 6)%float
      else if (max =? b)%float then (((r - g) / d + 4) / 6)%float
      else PrimFloat.nan in
    roundsWithin 360.5 (h * 360)%float.


(** Orders and classes by a rational key, for the statements about sorting. *)
Definition keyLe {A : Type} (key : A -> Q) (a b : A) : Prop := (key a <= key b)%Q.
Definition sameKey {A : Type} (key : A -> Q) (k : Q) (a : A) : bool :=
  Qeq_bool (key a) k.

(* ================================================================= *)
(** * The rest of the pipeline and its caller *)

(** The size of the canvas that [extractColors] draws the image on: the
    longer edge is brought down to [maxSize], the other edge follows by
    [Math.round]; the result is [(width, height)].  [img.width] and
    [img.height] are integers below 2^32, so the product is exact and the
    double quotient rounds as the exact one does (see [averageBucket]). *)
Definition maxSize : Z := 250.

Definition canvasSize (width height : Z) : Z * Z :=
  if (width >? height)%Z then
    if (width >? maxSize)%Z then
      let height := JS.Math_round (inject_Z (height * maxSize) / inject_Z width) in
      let width := maxSize in
      (width, height)
    else (width, height)
  else
    if (height >? maxSize)%Z then
      let width := JS.Math_round (inject_Z (width * maxSize) / inject_Z height) in
      let height := maxSize in
      (width, height)
    else (width, height).

(** A saturation as the data model has it, a fraction of one. *)
Definition unitFraction (x : Q) : Prop := (0 <= x <= 1)%Q.

(** A palette entry that is made of a bucket, field by field: the bucket's
    channels, their hex string, HSL triple and contrast colour, and the two
    printed forms. *)
Definition entryOf (entry : PaletteEntry) (color : Bucket) : Prop :=
  pe_r entry = bk_r color /\ pe_g entry = bk_g color /\ pe_b entry = bk_b color
  /\ pe_hex entry = rgbToHex (bk_r color) (bk_g color) (bk_b color)
  /\ pe_hsl entry = rgbToHsl (bk_r color) (bk_g color) (bk_b color)
  /\ pe_contrast entry = getContrastColor (bk_r color) (bk_g color) (bk_b color)
  /\ pe_rgb entry
     = ("rgb(" ++ JS.toString10 (bk_r color) ++ ", "
         ++ JS.toString10 (bk_g color) ++ ", "
         ++ JS.toString10 (bk_b color) ++ ")")%string
  /\ pe_hslString entry
     = ("hsl(" ++ JS.toString10 (hsl_h (pe_hsl entry)) ++ ", "
         ++ JS.toString10 (hsl_s (pe_hsl entry)) ++ "%, "
         ++ JS.toString10 (hsl_l (pe_hsl entry)) ++ "%)")%string.

(** The channel [c] of a bucket. *)
Definition bucketChannel (bk : Bucket) (c : Channel) : Z :=
  match c with
  | Red => bk_r bk
  | Green => bk_g bk
  | Blue => bk_b bk
  end.

(** ** The caller, [App.jsx] *)

(** [s.toUpperCase()] on a string of ASCII characters, the only strings the
    palette holds: the letters [a] to [z] become [A] to [Z], every other
    character stays. *)
Definition upperChar (c : ascii) : ascii :=
  let n := nat_of_ascii c in
  if ((97 <=? n) && (n <=? 122))%nat then ascii_of_nat (n - 32) else c.

Fixpoint toUpperCase (s : string) : string :=
  match s with
  | EmptyString => EmptyString
  | String c s' => String (upperChar c) (toUpperCase s')
  end.

(** [getColorValue(color)]; [colorFormat] is the state of the component that
    the function closes over. *)
Definition getColorValue (colorFormat : string) (color : PaletteEntry) : string :=
  if String.eqb colorFormat "rgb" then pe_rgb color
  else if String.eqb colorFormat "hsl" then pe_hslString color
  else toUpperCase (pe_hex color).

(** The state cells of the component that [extractPalette] reads and sets. *)
Record AppState := mkAppState {
  st_colors : list PaletteEntry;
  st_isExtracting : bool;
  st_error : string;
  st_colorCount : Z
}.

(** [e?.message || "Failed to extract colors."]: the empty string is
    falsy. *)
Definition messageOr (message fallback : string) : string :=
  if String.eqb message "" then fallback else message.

(** [extractPalette(url)]: the state after the setters it calls.  The
    [await] resumes in the [try] when the promise resolves and in the
    [catch] when it rejects, and [finally] runs after either; on a promise
    that stays pending it never resumes. *)
Definition extractPalette (image : ImageLoad) (st : AppState) : AppState :=
  let st := mkAppState (st_colors st) true (st_error st) (st_colorCount st) in
  let st := mkAppState (st_colors st) (st_isExtracting st) "" (st_colorCount st) in
  match extractColors image (Some (st_colorCount st)) with
  | Resolved extracted =>
      let st := mkAppState extracted (st_isExtracting st) (st_error st)
                  (st_colorCount st) in
      mkAppState (st_colors st) false (st_error st) (st_colorCount st)
  | Rejected message =>
      let st := mkAppState (st_colors st) (st_isExtracting st)
                  (messageOr message "Failed to extract colors.")
                  (st_colorCount st) in
      mkAppState (st_colors st) false (st_error st) (st_colorCount st)
  | Pending => st
  end.

(** The pattern [#[0-9A-F]{6}]. *)
Definition isUpperHex (c : ascii) : bool :=
  let n := nat_of_ascii c in
  ((48 <=? n) && (n <=? 57) || (65 <=? n) && (n <=? 70))%nat.

Fixpoint allUpperHex (s : string) : bool :=
  match s with
  | EmptyString => true
  | String c s' => isUpperHex c && allUpperHex s'
  end.

Definition matchesUpperHexColor (s : string) : bool :=
  match s with
  | String "#" digits => (String.length digits =? 6)%nat && allUpperHex digits
  | _ => false
  end.

(** ** The threshold of [getContrastColor] *)

(** The bytes as doubles. *)
Definition floatBytes : list float := Eval vm_compute in map JS.Z2F bytes.

(** The test of [getContrastColor] on the channels as doubles. *)
Definition isBlack64 (r g b : float) : bool :=
  (0.5 <? (0.299 * r + 0.587 * g + 0.114 * b) / 255)%float.

(** The number of leading values of [blues] on which the test fails, and
    whether it holds on all the values after them. *)
Fixpoint whitePrefix (r g : float) (blues : list float) : nat * bool :=
  match blues with
  | [] => (O, true)
  | b :: blues' =>
      if isBlack64 r g b then (O, forallb (isBlack64 r g) blues')
      else let '(n, ok) := whitePrefix r g blues' in (S n, ok)
  end.

(** 1000 times 255 times the luminance, in exact arithmetic. *)
Definition weight (r g b : Z) : Z := (299 * r + 587 * g + 114 * b)%Z.

(** The luminance of the specification, (0.299 r + 0.587 g + 0.114 b) / 255,
    in exact arithmetic. *)
Definition luminanceSpec (r g b : Z) : Q :=
  (((299 # 1000) * inject_Z r + (587 # 1000) * inject_Z g
    + (114 # 1000) * inject_Z b) / 255)%Q.

(** For red [r] and green [g]: the test of [getContrastColor] fails on the
    blues below some [t] and holds from [t] on, and [t] is where the exact
    luminance passes one half, the colour (218, 58, 248) apart, which sits
    at one half and passes the test. *)
Definition thresholdAgrees (r g : Z) : bool :=
  let '(n, ok) := whitePrefix (JS.Z2F r) (JS.Z2F g) floatBytes in
  let t := Z.of_nat n in
  ok
  && ((t =? 256)%Z || (127500 <? weight r g t)%Z
      || ((r =? 218) && (g =? 58) && (t =? 248))%Z)
  && ((t =? 0)%Z
      || ((weight r g (t - 1) <=? 127500)%Z
          && negb ((r =? 218) && (g =? 58) && (t - 1 =? 248))%Z)).

(** ** What [rgbToHsl] rounds *)

(** Lightness and saturation as percentages in exact arithmetic, rounded as
    [Math.round] does, from the greatest and the least channel:
    lightness is (max + min) / 510; saturation is (max - min) over
    [max + min], or over [510 - max - min] when the lightness is above one
    half, and [0] for a grey. *)
Definition saturationDivisor (max min : Z) : Z :=
  if (255 <? max + min)%Z then (510 - max - min)%Z else (max + min)%Z.

Definition lightnessPercent (max min : Z) : Z :=
  JS.Math_round (inject_Z (100 * (max + min)) / inject_Z 510).

Definition saturationPercent (max min : Z) : Z :=
  if (max =? min)%Z then 0%Z
  else JS.Math_round (inject_Z (100 * (max - min))
                      / inject_Z (saturationDivisor max min)).

(** The exact saturation percentage lies halfway between two integers. *)
Definition saturationTie (max min : Z) : bool :=
  negb (max =? min)%Z
  && ((200 * (max - min)) mod (2 * saturationDivisor max min)
      =? saturationDivisor max min)%Z.

(** [x] is not negative and lies in [n - 1/2, n + 1/2): the doubles that
    [Math.round] sends to [n]. *)
Definition roundsTo (n : Z) (x : float) : bool :=
  let nf := JS.Z2F n in
  ((x <? nf + 0.5) && negb (x <? 0) && negb (x <? nf - 0.5))%float.

(** [c] is a normal double with a negative exponent, at most [N + 1/2]
    ([limitAbove]) or at least [N - 1/2] ([limitBelow]). *)
Definition limitAbove (c : float) (N : Z) : bool :=
  match Prim2SF c with
  | S754_finite false mc ec =>
      ((ec <? 0) && (2 ^ 52 <=? Z.pos mc)
       && (2 * Z.pos mc <=? (2 * N + 1) * 2 ^ (- ec)))%Z
  | _ => false
  end.

Definition limitBelow (c : float) (N : Z) : bool :=
  match Prim2SF c with
  | S754_finite false mc ec =>
      ((ec <? 0) && (2 ^ 52 <=? Z.pos mc)
       && ((2 * N - 1) * 2 ^ (- ec) <=? 2 * Z.pos mc))%Z
  | _ => false
  end.

Definition percents : list Z := map Z.of_nat (seq 0 101).

(** For the greatest channel [max] and the least channel [min]: the
    lightness that [rgbToHsl] computes rounds to the exact percentage, and
    the saturation to the exact percentage or, at a tie, to one below. *)
Definition roundsExactly (max min : Z) : bool :=
  if (max <? min)%Z then true
  else
    let '(_, s, l) := hslFractions max min min in
    let lightness := ((200 * (max + min) + 510) / 1020)%Z in
    let saturation :=
      if (max =? min)%Z then 0%Z
      else ((200 * (max - min) + saturationDivisor max min)
            / (2 * saturationDivisor max min))%Z in
    roundsTo lightness (l * 100)%float
    && (roundsTo saturation (s * 100)%float
        || (saturationTie max min && (1 <=? saturation)%Z
            && roundsTo (saturation - 1) (s * 100)%float)).

(* ================================================================= *)
(** * The order of doubles *)

(** The mantissa and the exponent of a valid finite double. *)
Definition validFinite (m : positive) (e : Z) : Prop :=
  (-1074 <= e <= 971)%Z /\ (Z.pos m < 2 ^ 53)%Z
  /\ (2 ^ 52 <= Z.pos m \/ e = -1074)%Z.

(** The position of a double on the line, in units of 2^-1074; the
    infinities lie beyond every finite double. *)
Definition SFord (x : spec_float) : Z :=
  match x with
  | S754_zero _ => 0
  | S754_infinity s => if s then - 2 ^ 2200 else 2 ^ 2200
  | S754_nan => 0
  | S754_finite s m e => if s then - (Z.pos m * 2 ^ (e + 1074)) else Z.pos m * 2 ^ (e + 1074)
  end%Z.

Definition SFis_nan (x : spec_float) : bool :=
  match x with S754_nan => true | _ => false end.

Definition ord64 (x : float) : Z := SFord (Prim2SF x).

(* ================================================================= *)
(** * Facts about the built-ins *)

Module JSFacts.

Lemma Qltb_lt (x y : Q) : JS.Qltb x y = true <-> (x < y)%Q.
Proof.
  unfold JS.Qltb. rewrite negb_true_iff.
  split; intro H.
  - apply Qnot_le_lt. intro Hle. apply Qle_bool_iff in Hle. congruence.
  - destruct (Qle_bool y x) eqn:E; [|reflexivity].
    apply Qle_bool_iff in E. exfalso. exact (Qlt_not_le _ _ H E).
Qed.

Lemma Qltb_ge (x y : Q) : JS.Qltb x y = false <-> (y <= x)%Q.
Proof.
  unfold JS.Qltb. rewrite negb_false_iff. apply Qle_bool_iff.
Qed.

(** [Math.round] of an integer quotient, in integer arithmetic. *)
Lemma Math_round_div (s n : Z) :
  (0 < n)%Z ->
  JS.Math_round (inject_Z s / inject_Z n) = ((2 * s + n) / (2 * n))%Z.
Proof.
  intro Hn. unfold JS.Math_round.
  rewrite (Zdiv_Qdiv (2 * s + n) (2 * n)).
  apply Qfloor_comp.
  rewrite !inject_Z_plus, !inject_Z_mult.
  assert (Hq : ~ (inject_Z n == 0)%Q).
  { intro H. unfold Qeq in H. simpl in H. lia. }
  change (inject_Z 2) with 2%Q. field. exact Hq.
Qed.

Section SortFacts.
Context {A N : Type} {number : JS.Number N} (comparefn : A -> A -> N).

Lemma insert_perm (x : A) (l : list A) :
  Permutation (JS.insert comparefn x l) (x :: l).
Proof.
  induction l as [|y l IH]; simpl.
  - apply Permutation_refl.
  - destruct (JS.positive (comparefn x y)).
    + apply perm_trans with (y :: x :: l).
      * apply perm_skip, IH.
      * apply perm_swap.
    + apply Permutation_refl.
Qed.

Lemma sort_perm (l : list A) : Permutation (JS.sort comparefn l) l.
Proof.
  induction l as [|x l IH]; simpl.
  - apply perm_nil.
  - apply perm_trans with (x :: JS.sort comparefn l).
    + apply insert_perm.
    + apply perm_skip, IH.
Qed.

Lemma sort_length (l : list A) :
  List.length (JS.sort comparefn l) = List.length l.
Proof. apply Permutation_length, sort_perm. Qed.

Lemma sort_Forall (P : A -> Prop) (l : list A) :
  Forall P l -> Forall P (JS.sort comparefn l).
Proof.
  intro H. apply (Permutation_Forall (Permutation_sym (sort_perm l))), H.
Qed.

(** ** A comparator that orders by a rational key *)

Section ByKey.
Variable key : A -> Q.

(** The comparator orders by [key]: [x] goes behind [y] exactly when
    its key is greater. *)
Hypothesis comparefn_key :
  forall x y, JS.positive (comparefn x y) = JS.Qltb (key y) (key x).

Lemma insert_sorted (x : A) (l : list A) :
  StronglySorted (keyLe key) l -> StronglySorted (keyLe key) (JS.insert comparefn x l).
Proof.
  induction 1 as [|y l Hs IH Hall]; simpl.
  - constructor; constructor.
  - rewrite comparefn_key.
    destruct (JS.Qltb (key y) (key x)) eqn:E.
    + apply Qltb_lt in E.
      constructor; [exact IH|].
      apply (Permutation_Forall (Permutation_sym (insert_perm x l))).
      constructor; [|exact Hall].
      unfold keyLe. apply Qlt_le_weak, E.
    + apply Qltb_ge in E.
      constructor; [constructor; assumption|].
      constructor; [exact E|].
      eapply Forall_impl; [|exact Hall].
      intros z Hz. unfold keyLe in *. eapply Qle_trans; eassumption.
Qed.

Lemma sort_sorted (l : list A) : StronglySorted (keyLe key) (JS.sort comparefn l).
Proof.
  induction l as [|x l IH]; simpl.
  - constructor.
  - apply insert_sorted, IH.
Qed.

(** Stability: the elements of one key keep their order. *)
Lemma insert_stable (k : Q) (x : A) (l : list A) :
  filter (sameKey key k) (JS.insert comparefn x l) = filter (sameKey key k) (x :: l).
Proof.
  induction l as [|y l IH]; [reflexivity|].
  simpl JS.insert. rewrite comparefn_key.
  destruct (JS.Qltb (key y) (key x)) eqn:E; [|reflexivity].
  apply Qltb_lt in E.
  change (filter (sameKey key k) (y :: JS.insert comparefn x l))
    with (if sameKey key k y then y :: filter (sameKey key k) (JS.insert comparefn x l)
          else filter (sameKey key k) (JS.insert comparefn x l)).
  rewrite IH. simpl.
  destruct (sameKey key k x) eqn:Ex, (sameKey key k y) eqn:Ey; try reflexivity.
  unfold sameKey in *. apply Qeq_bool_iff in Ex, Ey.
  rewrite Ex, Ey in E. exfalso. exact (Qlt_irrefl _ E).
Qed.

Lemma sort_stable (k : Q) (l : list A) :
  filter (sameKey key k) (JS.sort comparefn l) = filter (sameKey key k) l.
Proof.
  induction l as [|x l IH]; [reflexivity|].
  simpl JS.sort. rewrite insert_stable. simpl. rewrite IH. reflexivity.
Qed.
End ByKey.

(** ** A comparator that orders by a relation

    [x] moves past [y] exactly when [past x y]; nothing moves past what
    has moved past it. *)

Section ByRelation.
Variable past : A -> A -> bool.
Hypothesis comparefn_past : forall x y, JS.positive (comparefn x y) = past x y.
Hypothesis past_asym : forall x y, past x y = true -> past y x = false.

Lemma insert_head (x y : A) (l : list A) :
  past x y = true -> HdRel (fun u v => past u v = false) y l ->
  HdRel (fun u v => past u v = false) y (JS.insert comparefn x l).
Proof.
  intros Hxy Hy. destruct l as [|z l]; simpl.
  - constructor. apply past_asym, Hxy.
  - destruct (JS.positive (comparefn x z)).
    + constructor. inversion Hy; assumption.
    + constructor. apply past_asym, Hxy.
Qed.

(** No element of the sorted array would move past its right neighbour. *)
Lemma insert_ordered (x : A) (l : list A) :
  Sorted (fun u v => past u v = false) l ->
  Sorted (fun u v => past u v = false) (JS.insert comparefn x l).
Proof.
  induction 1 as [|y l Hs IH Hy]; simpl.
  - repeat constructor.
  - rewrite comparefn_past. destruct (past x y) eqn:E.
    + constructor; [exact IH|]. apply insert_head; assumption.
    + constructor; [constructor; assumption|]. constructor. exact E.
Qed.

Lemma sort_ordered (l : list A) :
  Sorted (fun u v => past u v = false) (JS.sort comparefn l).
Proof.
  induction l as [|x l IH]; simpl.
  - constructor.
  - apply insert_ordered, IH.
Qed.

(** Sorting an array in which nothing would move changes nothing. *)
Lemma sort_fixed (l : list A) :
  Sorted (fun u v => past u v = false) l -> JS.sort comparefn l = l.
Proof.
  induction 1 as [|x l Hs IH Hx]; [reflexivity|].
  simpl JS.sort. rewrite IH.
  destruct l as [|y l]; [reflexivity|].
  simpl JS.insert. rewrite comparefn_past.
  inversion Hx as [|? ? Hxy]; subst. rewrite Hxy. reflexivity.
Qed.

(** Where "would not move past" is transitive, on the elements with [P],
    every element of the sorted array stands in it to all that follow. *)
Section Transitive.
Variable P : A -> Prop.
Hypothesis past_trans :
  forall x y z, P x -> P y -> P z ->
                past x y = false -> past y z = false -> past x z = false.

Lemma insert_strongly (x : A) (l : list A) :
  P x -> Forall P l ->
  StronglySorted (fun u v => past u v = false) l ->
  StronglySorted (fun u v => past u v = false) (JS.insert comparefn x l).
Proof.
  intros Px Pl Hs. induction Hs as [|y l Hs IH Hall]; simpl.
  - constructor; constructor.
  - inversion Pl as [|? ? Py Pl']; subst.
    rewrite comparefn_past. destruct (past x y) eqn:E.
    + constructor; [exact (IH Pl')|].
      apply (Permutation_Forall (Permutation_sym (insert_perm x l))).
      constructor; [apply past_asym, E|exact Hall].
    + constructor; [constructor; assumption|].
      constructor; [exact E|].
      rewrite Forall_forall in *. intros z Hz.
      apply (past_trans x y z); auto.
Qed.

Lemma sort_strongly (l : list A) :
  Forall P l -> StronglySorted (fun u v => past u v = false) (JS.sort comparefn l).
Proof.
  induction 1 as [|x l Px Pl IH]; simpl.
  - constructor.
  - apply insert_strongly; [exact Px|apply sort_Forall, Pl|exact IH].
Qed.
End Transitive.

(** Stability: elements of one class, none of which moves past another,
    keep their order. *)
Section Stable.
Variable same : A -> bool.
Hypothesis past_same :
  forall x y, past x y = true -> same x = true -> same y = true -> False.

Lemma insert_keeps (x : A) (l : list A) :
  filter same (JS.insert comparefn x l) = filter same (x :: l).
Proof.
  induction l as [|y l IH]; [reflexivity|].
  simpl JS.insert. rewrite comparefn_past.
  destruct (past x y) eqn:E; [|reflexivity].
  change (filter same (y :: JS.insert comparefn x l))
    with (if same y then y :: filter same (JS.insert comparefn x l)
          else filter same (JS.insert comparefn x l)).
  rewrite IH. simpl.
  destruct (same x) eqn:Ex, (same y) eqn:Ey; try reflexivity.
  exfalso. exact (past_same x y E Ex Ey).
Qed.

Lemma sort_keeps (l : list A) :
  filter same (JS.sort comparefn l) = filter same l.
Proof.
  induction l as [|x l IH]; [reflexivity|].
  simpl JS.sort. rewrite insert_keeps. simpl. rewrite IH. reflexivity.
Qed.
End Stable.
End ByRelation.
End SortFacts.

End JSFacts.

(* ================================================================= *)
(** * Enumerating the bytes *)

(** Arithmetic on channel values known to be bytes. *)
Ltac byte_lia := unfold byte in *; lia.

Lemma byte_in_bytes (x : Z) : byte x -> In x bytes.
Proof.
  intros [Hlo Hhi]. unfold bytes.
  rewrite <- (Z2Nat.id x Hlo). apply in_map, in_seq. lia.
Qed.

Lemma forall_bytes (P : Z -> bool) :
  forallb P bytes = true -> forall x, byte x -> P x = true.
Proof.
  intros H x Hx. rewrite forallb_forall in H. apply H, byte_in_bytes, Hx.
Qed.

(* ================================================================= *)
(** * rgbToHex *)

Lemma hexDigit_lower (d : Z) : (0 <= d < 16)%Z -> isLowerHex (hexDigit d) = true.
Proof.
  intro H.
  assert (Hd : In d (map Z.of_nat (seq 0 16))).
  { rewrite <- (Z2Nat.id d (proj1 H)). apply in_map, in_seq. lia. }
  clear H. revert d Hd. apply Forall_forall.
  simpl. repeat constructor.
Qed.

Lemma padded_hex_of_byte (x : Z) :
  byte x -> JS.padStart 2 "0" (JS.toString16 x) = twoHexDigits x.
Proof.
  intro Hx.
  apply String.eqb_eq.
  revert x Hx.
  apply (forall_bytes
           (fun x => String.eqb (JS.padStart 2 "0" (JS.toString16 x)) (twoHexDigits x))).
  vm_compute. reflexivity.
Qed.

Lemma rgbToHex_digits (r g b : Z) :
  byte r -> byte g -> byte b ->
  rgbToHex r g b
  = ("#" ++ twoHexDigits r ++ twoHexDigits g ++ twoHexDigits b)%string.
Proof.
  intros Hr Hg Hb. unfold rgbToHex. simpl map. unfold JS.join. simpl fold_right.
  rewrite !padded_hex_of_byte by assumption. reflexivity.
Qed.

Lemma rgbToHex_matches (r g b : Z) :
  byte r -> byte g -> byte b -> matchesHexColor (rgbToHex r g b) = true.
Proof.
  intros Hr Hg Hb. rewrite rgbToHex_digits by assumption.
  unfold byte in *. unfold twoHexDigits. simpl.
  rewrite !hexDigit_lower; try reflexivity;
    first [ apply Z.mod_pos_bound; lia
          | split; [apply Z.div_pos; lia | apply Z.div_lt_upper_bound; lia] ].
Qed.

(* ================================================================= *)
(** * getContrastColor *)

(** ** Luminance exactly one half

    The strict comparison sends a computed luminance of exactly 0.5 to
    white.  In exact arithmetic 114 colours have luminance one half; the
    doubles of the source give one of them, (218, 58, 248), a luminance
    just above 0.5. *)

Lemma in_bytes_byte (x : Z) : In x bytes -> byte x.
Proof.
  unfold bytes. rewrite in_map_iff. intros (n & <- & Hn).
  apply in_seq in Hn. unfold byte. lia.
Qed.

Lemma blueAtHalf_spec (r g r' g' b : Z) :
  In (r', g', b) (blueAtHalf r g)
  <-> r' = r /\ g' = g /\ byte b /\ (299 * r + 587 * g + 114 * b = 127500)%Z.
Proof.
  unfold blueAtHalf. cbv zeta.
  set (rest := (127500 - 299 * r - 587 * g)%Z).
  pose proof (Z.div_mod rest 114 ltac:(lia)) as Hdm.
  pose proof (Z.mod_pos_bound rest 114 ltac:(lia)) as Hmod.
  assert (Hrest : rest = (127500 - 299 * r - 587 * g)%Z) by reflexivity.
  clearbody rest.
  destruct ((0 <=? rest) && (rest mod 114 =? 0) && (rest / 114 <=? 255))%Z eqn:E.
  - rewrite !andb_true_iff, !Z.leb_le, Z.eqb_eq in E. destruct E as [[H0 Hm] Hd].
    split.
    + intros [H|[]].
      assert (Hr : r = r') by congruence. assert (Hg : g = g') by congruence.
      assert (Hb : (rest / 114)%Z = b) by congruence.
      unfold byte. lia.
    + intros (-> & -> & Hb & Heq). left.
      assert (b = rest / 114)%Z by byte_lia.
      congruence.
  - split; [intros []|].
    intros (-> & -> & Hb & Heq). exfalso.
    assert (Hd : rest = (114 * b)%Z) by lia.
    assert (Hq : (rest / 114 = b)%Z).
    { rewrite Hd, Z.mul_comm. apply Z.div_mul. lia. }
    assert (Hm : (rest mod 114 = 0)%Z).
    { rewrite Hd, Z.mul_comm. apply Z.mod_mul. lia. }
    rewrite Hq, Hm in E. unfold byte in Hb.
    rewrite !andb_false_iff, !Z.leb_gt, Z.eqb_neq in E. lia.
Qed.

Lemma halfLuminance_spec (r g b : Z) :
  In (r, g, b) halfLuminance
  <-> byte r /\ byte g /\ byte b /\ (299 * r + 587 * g + 114 * b = 127500)%Z.
Proof.
  unfold halfLuminance. rewrite in_flat_map. split.
  - intros (r' & Hr' & H). rewrite in_flat_map in H. destruct H as (g' & Hg' & H).
    apply blueAtHalf_spec in H. destruct H as (<- & <- & Hb & E).
    auto using in_bytes_byte.
  - intros (Hr & Hg & Hb & E). exists r. split; [apply byte_in_bytes, Hr|].
    rewrite in_flat_map. exists g. split; [apply byte_in_bytes, Hg|].
    apply blueAtHalf_spec. auto.
Qed.

Lemma halfLuminance_contrast :
  List.length halfLuminance = 114%nat /\ forallb whiteButOne halfLuminance = true.
Proof. vm_compute. split; reflexivity. Qed.

(** A colour of exact luminance one half is white, except (218, 58, 248),
    which is black. *)
Lemma getContrastColor_at_exact_half (r g b : Z) :
  byte r -> byte g -> byte b ->
  (299 * r + 587 * g + 114 * b = 127500)%Z ->
  if ((r =? 218) && (g =? 58) && (b =? 248))%Z
  then getContrastColor r g b = black
  else getContrastColor r g b = white.
Proof.
  intros Hr Hg Hb E.
  assert (Hin : In (r, g, b) halfLuminance) by (apply halfLuminance_spec; auto).
  destruct halfLuminance_contrast as [_ Hall].
  rewrite forallb_forall in Hall. specialize (Hall _ Hin).
  unfold whiteButOne in Hall.
  destruct ((r =? 218) && (g =? 58) && (b =? 248))%Z; apply String.eqb_eq, Hall.
Qed.

Lemma getContrastColor_218_58_248 :
  (299 * 218 + 587 * 58 + 114 * 248 = 127500)%Z
  /\ (0.5 <? luminance 218 58 248)%float = true
  /\ getContrastColor 218 58 248 = black.
Proof. vm_compute. repeat split. Qed.

(* ================================================================= *)
(** * Pixel sampler *)

Lemma getSaturation_spec (r g b : Z) : getSaturation r g b = saturationSpec r g b.
Proof.
  unfold getSaturation, saturationSpec.
  destruct (Z.eq_dec (Z.max (Z.max r g) b) 0) as [E|E].
  - rewrite E. reflexivity.
  - apply Z.eqb_neq in E. rewrite E. reflexivity.
Qed.

Lemma samplePixel_spec (r g b a : Z) :
  samplePixel r g b a
  = if keptBySpec (r, g, b, a) then Some (annotate (r, g, b, a)) else None.
Proof.
  unfold samplePixel, keptBySpec, annotate, brightness, JS.Qltb.
  rewrite getSaturation_spec, (Z.leb_antisym a 128).
  destruct (a <? 128)%Z; simpl; [reflexivity|].
  destruct (Qle_bool 5 (inject_Z (r + g + b) / 3)); simpl; [|reflexivity].
  destruct (Qle_bool (inject_Z (r + g + b) / 3) 250); reflexivity.
Qed.

Lemma getPixels_cons (r g b a : Z) (rest : list Z) :
  getPixels (r :: g :: b :: a :: rest)
  = match samplePixel r g b a with
    | Some p => p :: getPixels rest
    | None => getPixels rest
    end.
Proof. reflexivity. Qed.

Lemma getPixels_flatten (image : list RGBA) :
  getPixels (flattenRGBA image) = map annotate (filter keptBySpec image).
Proof.
  induction image as [|[[[r g] b] a] image IH]; [reflexivity|].
  change (flattenRGBA ((r, g, b, a) :: image))
    with (r :: g :: b :: a :: flattenRGBA image).
  rewrite getPixels_cons, samplePixel_spec, IH.
  change (filter keptBySpec ((r, g, b, a) :: image))
    with (if keptBySpec (r, g, b, a)
          then (r, g, b, a) :: filter keptBySpec image
          else filter keptBySpec image).
  destruct (keptBySpec (r, g, b, a)); reflexivity.
Qed.

Lemma keptBySpec_iff (r g b a : Z) :
  keptBySpec (r, g, b, a) = true
  <-> (128 <= a)%Z /\ (5 <= brightness r g b)%Q /\ (brightness r g b <= 250)%Q.
Proof.
  unfold keptBySpec, brightness.
  rewrite !andb_true_iff, !Qle_bool_iff, Z.leb_le. tauto.
Qed.

(** In integers: the brightness lies in [5, 250] exactly when the channel
    sum lies in [15, 750]. *)
Lemma brightness_bounds (r g b : Z) :
  ((5 <= brightness r g b)%Q <-> (15 <= r + g + b)%Z)
  /\ ((brightness r g b <= 250)%Q <-> (r + g + b <= 750)%Z).
Proof.
  unfold brightness, Qle, Qdiv. simpl. split; lia.
Qed.

(** The binary64 comparisons of the source decide the brightness filter as
    the rational ones do, on every byte triple. *)
Lemma extremeBrightness64_agrees (r g b : Z) :
  byte r -> byte g -> byte b ->
  extremeBrightness64 r g b
  = JS.Qltb (brightness r g b) 5 || JS.Qltb 250 (brightness r g b).
Proof.
  intros Hr Hg Hb. unfold extremeBrightness64, brightness.
  assert (Hs : In (r + g + b)%Z (map Z.of_nat (seq 0 766))).
  { unfold byte in *. rewrite <- (Z2Nat.id (r + g + b)) by lia.
    apply in_map, in_seq. lia. }
  generalize dependent (r + g + b)%Z. intros s Hs.
  apply Bool.eqb_prop. revert s Hs.
  apply (proj1 (forallb_forall
    (fun s => Bool.eqb ((JS.Z2F s / 3 <? 5) || (250 <? JS.Z2F s / 3))%float
                (JS.Qltb (inject_Z s / 3) 5 || JS.Qltb 250 (inject_Z s / 3)))
    (map Z.of_nat (seq 0 766)))).
  vm_compute. reflexivity.
Qed.

(** C5: the sampler keeps a pixel exactly when its alpha is at least 128
    and its brightness (r+g+b)/3 lies in [5, 250], both ends included (a
    channel sum in [15, 750]), and annotates every kept pixel with the
    saturation (max - min) / max, or 0 when max is 0; over a whole image it
    keeps the pixels in their order. *)
Theorem getPixels_keeps :
  (forall r g b a,
      (exists p, samplePixel r g b a = Some p)
      <-> (128 <= a)%Z /\ (5 <= brightness r g b)%Q /\ (brightness r g b <= 250)%Q)
  /\ (forall r g b a p,
         samplePixel r g b a = Some p ->
         p = mkPixel r g b (saturationSpec r g b))
  /\ (forall r g b a rest,
         getPixels (r :: g :: b :: a :: rest)
         = match samplePixel r g b a with
           | Some p => p :: getPixels rest
           | None => getPixels rest
           end)
  /\ (forall image,
         getPixels (flattenRGBA image) = map annotate (filter keptBySpec image))
  /\ (forall r g b,
         (5 <= brightness r g b)%Q /\ (brightness r g b <= 250)%Q
         <-> (15 <= r + g + b <= 750)%Z).
Proof.
  split; [|split; [|split; [|split]]].
  - intros r g b a. rewrite <- keptBySpec_iff, samplePixel_spec.
    destruct (keptBySpec (r, g, b, a)); split.
    + reflexivity.
    + intros _. eexists. reflexivity.
    + intros [p Hp]. discriminate.
    + discriminate.
  - intros r g b a p. rewrite samplePixel_spec.
    destruct (keptBySpec (r, g, b, a)); [|discriminate].
    intro H. injection H as <-. reflexivity.
  - exact getPixels_cons.
  - exact getPixels_flatten.
  - intros r g b. destruct (brightness_bounds r g b) as [H5 H250].
    rewrite H5, H250. tauto.
Qed.

Lemma getPixels_keeps_witness :
  exists p,
    samplePixel 200 30 30 255 = Some p
    /\ p = mkPixel 200 30 30 (saturationSpec 200 30 30).
Proof.
  eexists. split; [reflexivity|].
  apply (proj1 (proj2 getPixels_keeps) 200 30 30 255)%Z. reflexivity.
Defined.

(** The filter at its boundaries: brightness exactly 5 and exactly 250 are
    kept, alpha 127 and the nearest darker and brighter pixels are not. *)
Example samplePixel_boundaries :
  option_map px_r (samplePixel 5 5 5 128) = Some 5%Z
  /\ option_map px_r (samplePixel 250 250 250 255) = Some 250%Z
  /\ samplePixel 5 5 4 255 = None
  /\ samplePixel 250 250 251 255 = None
  /\ samplePixel 100 100 100 127 = None.
Proof. vm_compute. repeat split. Qed.

(* ================================================================= *)
(** * Median-cut partitioner *)

Lemma medianCut_leaf (pixels : list Pixel) :
  pixels <> [] -> medianCut pixels 0 = [averageBucket pixels].
Proof. destruct pixels; [congruence|reflexivity]. Qed.

Lemma medianCut_step (pixels : list Pixel) (depth : nat) :
  pixels <> [] ->
  medianCut pixels (S depth)
  = let sorted := JS.sort (byChannel (chosenChannel pixels)) pixels in
    let mid := (List.length pixels / 2)%nat in
    medianCut (firstn mid sorted) depth ++ medianCut (skipn mid sorted) depth.
Proof.
  destruct pixels as [|p pixels]; [congruence|]. intros _.
  cbv zeta. rewrite <- (JSFacts.sort_length (byChannel (chosenChannel (p :: pixels)))).
  reflexivity.
Qed.

Lemma leafSets_step (pixels : list Pixel) (depth : nat) :
  pixels <> [] ->
  leafSets pixels (S depth)
  = let sorted := JS.sort (byChannel (chosenChannel pixels)) pixels in
    let mid := (List.length pixels / 2)%nat in
    leafSets (firstn mid sorted) depth ++ leafSets (skipn mid sorted) depth.
Proof.
  destruct pixels as [|p pixels]; [congruence|]. intros _.
  cbv zeta. rewrite <- (JSFacts.sort_length (byChannel (chosenChannel (p :: pixels)))).
  reflexivity.
Qed.

(** [medianCut] averages the leaf sets. *)
Lemma medianCut_leafSets (pixels : list Pixel) (depth : nat) :
  medianCut pixels depth = map averageBucket (leafSets pixels depth).
Proof.
  revert pixels. induction depth as [|depth IH]; intros pixels.
  - destruct pixels; reflexivity.
  - destruct pixels as [|p pixels]; [reflexivity|].
    rewrite medianCut_step, leafSets_step by discriminate.
    cbv zeta. rewrite map_app, !IH. reflexivity.
Qed.

Lemma leafSets_nonempty (pixels : list Pixel) (depth : nat) :
  Forall (fun part => part <> []) (leafSets pixels depth).
Proof.
  revert pixels. induction depth as [|depth IH]; intros pixels.
  - destruct pixels; repeat constructor. discriminate.
  - destruct pixels as [|p pixels]; [constructor|].
    rewrite leafSets_step by discriminate. cbv zeta.
    apply Forall_app. split; apply IH.
Qed.

Lemma leafSets_perm (pixels : list Pixel) (depth : nat) :
  Permutation (List.concat (leafSets pixels depth)) pixels.
Proof.
  revert pixels. induction depth as [|depth IH]; intros pixels.
  - destruct pixels; simpl; [constructor|]. rewrite app_nil_r. apply Permutation_refl.
  - destruct pixels as [|p pixels]; [constructor|].
    rewrite leafSets_step by discriminate. cbv zeta.
    rewrite List.concat_app.
    set (sorted := JS.sort (byChannel (chosenChannel (p :: pixels))) (p :: pixels)).
    set (mid := (List.length (p :: pixels) / 2)%nat).
    apply perm_trans with (firstn mid sorted ++ skipn mid sorted).
    + apply Permutation_app; apply IH.
    + rewrite firstn_skipn. apply JSFacts.sort_perm.
Qed.

Lemma totalCount_app (xs ys : list Bucket) :
  totalCount (xs ++ ys) = (totalCount xs + totalCount ys)%Z.
Proof.
  unfold totalCount, sumZ. rewrite map_app.
  induction (map bk_count xs) as [|c cs IH]; simpl; [reflexivity|].
  rewrite IH. lia.
Qed.

Lemma averageBucket_count (pixels : list Pixel) :
  bk_count (averageBucket pixels) = Z.of_nat (List.length pixels).
Proof.
  unfold averageBucket.
  destruct (fold_left _ pixels _) as [[[r g] b] sat]. reflexivity.
Qed.

Lemma medianCut_totalCount (pixels : list Pixel) (depth : nat) :
  totalCount (medianCut pixels depth) = Z.of_nat (List.length pixels).
Proof.
  revert pixels. induction depth as [|depth IH]; intros pixels.
  - destruct pixels as [|p pixels]; [reflexivity|].
    rewrite medianCut_leaf by discriminate.
    unfold totalCount. simpl map. unfold sumZ. simpl fold_right.
    rewrite averageBucket_count. lia.
  - destruct pixels as [|p pixels]; [reflexivity|].
    rewrite medianCut_step by discriminate. cbv zeta.
    rewrite totalCount_app, !IH.
    rewrite <- Nat2Z.inj_add, <- length_app, firstn_skipn.
    rewrite JSFacts.sort_length. reflexivity.
Qed.

(** C9: for every pixel list and every depth the counts of the buckets
    that medianCut returns add up to the length of the list; the buckets are
    the averages of non-empty leaf sets that together hold every pixel of the
    list once. *)
Theorem medianCut_partitions_weight (pixels : list Pixel) (depth : nat) :
  totalCount (medianCut pixels depth) = Z.of_nat (List.length pixels)
  /\ exists parts : list (list Pixel),
      medianCut pixels depth = map averageBucket parts
      /\ Forall (fun part => part <> []) parts
      /\ Permutation (List.concat parts) pixels
      /\ map bk_count (medianCut pixels depth)
         = map (fun part => Z.of_nat (List.length part)) parts.
Proof.
  split; [apply medianCut_totalCount|].
  exists (leafSets pixels depth).
  split; [apply medianCut_leafSets|].
  split; [apply leafSets_nonempty|].
  split; [apply leafSets_perm|].
  rewrite medianCut_leafSets, map_map.
  apply map_ext. intro part. apply averageBucket_count.
Qed.

(** ** The leaf average *)

Lemma fold_sums (pixels : list Pixel) (r g b : Z) (sat : float) :
  fold_left
    (fun '(r, g, b, sat) pixel =>
       ((r + px_r pixel)%Z, (g + px_g pixel)%Z, (b + px_b pixel)%Z,
        (sat + JS.or_zero (JS.Q2F (px_sat pixel)))%float))
    pixels (r, g, b, sat)
  = ((r + sumZ (map px_r pixels))%Z,
     (g + sumZ (map px_g pixels))%Z,
     (b + sumZ (map px_b pixels))%Z,
     fold_left PrimFloat.add
       (map (fun p => JS.or_zero (JS.Q2F (px_sat p))) pixels) sat).
Proof.
  revert r g b sat. induction pixels as [|p pixels IH]; intros r g b sat; simpl.
  - rewrite !Z.add_0_r. reflexivity.
  - rewrite IH, !Z.add_assoc. reflexivity.
Qed.

Lemma averageBucket_rgb (pixels : list Pixel) :
  pixels <> [] ->
  let n := Z.of_nat (List.length pixels) in
  bk_r (averageBucket pixels) = ((2 * sumZ (map px_r pixels) + n) / (2 * n))%Z
  /\ bk_g (averageBucket pixels) = ((2 * sumZ (map px_g pixels) + n) / (2 * n))%Z
  /\ bk_b (averageBucket pixels) = ((2 * sumZ (map px_b pixels) + n) / (2 * n))%Z.
Proof.
  intros Hne n.
  assert (Hn : (0 < n)%Z).
  { subst n. destruct pixels; [congruence|]. simpl List.length. lia. }
  unfold averageBucket. rewrite fold_sums. simpl.
  fold n. rewrite !JSFacts.Math_round_div by exact Hn. auto.
Qed.

Lemma sumZ_constant (f : Pixel -> Z) (c : Z) (pixels : list Pixel) :
  Forall (fun p => f p = c) pixels ->
  sumZ (map f pixels) = (Z.of_nat (List.length pixels) * c)%Z.
Proof.
  induction 1 as [|p pixels Hp _ IH]; [reflexivity|].
  simpl map. simpl List.length. unfold sumZ in *. simpl fold_right.
  rewrite IH, Hp. lia.
Qed.

Lemma sumZ_bounds (f : Pixel -> Z) (pixels : list Pixel) :
  Forall (fun p => byte (f p)) pixels ->
  (0 <= sumZ (map f pixels) <= 255 * Z.of_nat (List.length pixels))%Z.
Proof.
  induction 1 as [|p pixels Hp _ IH]; [simpl; lia|].
  simpl map. simpl List.length. unfold sumZ, byte in *. simpl fold_right. lia.
Qed.

(** Rounding the mean of [n] copies of [c] gives [c]. *)
Lemma round_constant_mean (n c : Z) :
  (0 < n)%Z -> ((2 * (n * c) + n) / (2 * n) = c)%Z.
Proof.
  intro Hn. symmetry. apply (Z.div_unique _ _ c n); lia.
Qed.

(** The rounded mean of bytes is a byte. *)
Lemma round_mean_byte (n s : Z) :
  (0 < n)%Z -> (0 <= s <= 255 * n)%Z -> byte ((2 * s + n) / (2 * n)).
Proof.
  intros Hn Hs. unfold byte. split.
  - apply Z.div_pos; lia.
  - apply Z.lt_succ_r, Z.div_lt_upper_bound; lia.
Qed.

Lemma averageBucket_singleColor (r g b : Z) (pixels : list Pixel) :
  pixels <> [] -> singleColor r g b pixels ->
  bk_r (averageBucket pixels) = r
  /\ bk_g (averageBucket pixels) = g
  /\ bk_b (averageBucket pixels) = b.
Proof.
  intros Hne Hc.
  assert (Hn : (0 < Z.of_nat (List.length pixels))%Z).
  { destruct pixels; [congruence|]. simpl List.length. lia. }
  destruct (averageBucket_rgb pixels Hne) as (-> & -> & ->).
  unfold singleColor in Hc.
  rewrite (sumZ_constant px_r r), (sumZ_constant px_g g), (sumZ_constant px_b b);
    try (eapply Forall_impl; [|exact Hc]; simpl; tauto).
  rewrite !round_constant_mean by exact Hn. auto.
Qed.

Lemma averageBucket_valid (pixels : list Pixel) :
  pixels <> [] -> Forall validPixel pixels ->
  byte (bk_r (averageBucket pixels))
  /\ byte (bk_g (averageBucket pixels))
  /\ byte (bk_b (averageBucket pixels)).
Proof.
  intros Hne Hv.
  assert (Hn : (0 < Z.of_nat (List.length pixels))%Z).
  { destruct pixels; [congruence|]. simpl List.length. lia. }
  destruct (averageBucket_rgb pixels Hne) as (-> & -> & ->).
  repeat split; apply round_mean_byte; try exact Hn;
    apply sumZ_bounds; (eapply Forall_impl; [|exact Hv]);
    unfold validPixel; tauto.
Qed.

(** ** The number of buckets *)

Lemma halves_min (n p : nat) :
  (Nat.min (n / 2) p + Nat.min (n - n / 2) p = Nat.min n (2 * p))%nat.
Proof.
  pose proof (Nat.div_mod_eq n 2) as Hd.
  pose proof (Nat.mod_upper_bound n 2 ltac:(lia)) as Hm.
  lia.
Qed.

Lemma medianCut_length (pixels : list Pixel) (depth : nat) :
  List.length (medianCut pixels depth)
  = Nat.min (List.length pixels) (2 ^ depth).
Proof.
  revert pixels. induction depth as [|depth IH]; intros pixels.
  - destruct pixels; simpl; lia.
  - destruct pixels as [|p pixels]; [reflexivity|].
    rewrite medianCut_step by discriminate. cbv zeta.
    set (sorted := JS.sort (byChannel (chosenChannel (p :: pixels))) (p :: pixels)).
    assert (Hlen : List.length sorted = List.length (p :: pixels))
      by apply JSFacts.sort_length.
    rewrite length_app, !IH, length_firstn, length_skipn, Hlen.
    assert (Hle : (List.length (p :: pixels) / 2 <= List.length (p :: pixels))%nat).
    { pose proof (Nat.div_mod_eq (List.length (p :: pixels)) 2). lia. }
    rewrite (Nat.min_l _ _ Hle), halves_min, Nat.pow_succ_r'. reflexivity.
Qed.

Lemma leafSets_Forall (P : Pixel -> Prop) (pixels : list Pixel) (depth : nat) :
  Forall P pixels -> Forall (Forall P) (leafSets pixels depth).
Proof.
  intro H. apply Forall_concat.
  apply (Permutation_Forall (Permutation_sym (leafSets_perm pixels depth))), H.
Qed.

(** ** A single-colour pixel set *)

Lemma medianCut_singleColor_buckets (r g b : Z) (pixels : list Pixel) (depth : nat) :
  singleColor r g b pixels ->
  Forall (fun bk => bk_r bk = r /\ bk_g bk = g /\ bk_b bk = b /\ (1 <= bk_count bk)%Z)
    (medianCut pixels depth).
Proof.
  intro Hc. rewrite medianCut_leafSets. apply Forall_map.
  pose proof (leafSets_Forall _ pixels depth Hc) as Hall.
  pose proof (leafSets_nonempty pixels depth) as Hne.
  induction Hall as [|part parts Hpart _ IH]; [constructor|].
  inversion Hne as [|? ? Hpne Hne']; subst.
  constructor; [|apply IH, Hne'].
  destruct (averageBucket_singleColor r g b part Hpne Hpart) as (Hr & Hg & Hb).
  rewrite averageBucket_count. repeat split; try assumption.
  destruct part; [congruence|]. simpl List.length. lia.
Qed.

(** C1, as the code has it: for every non-empty pixel list whose pixels
    all have the colour (r, g, b) and every depth, medianCut returns
    min(length, 2^depth) buckets, each non-empty and each with exactly the
    colour (r, g, b); the bucket is a single one exactly when the list has
    one pixel or the depth is 0. *)
Theorem medianCut_single_color (r g b : Z) (pixels : list Pixel) (depth : nat) :
  pixels <> [] ->
  singleColor r g b pixels ->
  List.length (medianCut pixels depth) = Nat.min (List.length pixels) (2 ^ depth)
  /\ Forall (fun bk => bk_r bk = r /\ bk_g bk = g /\ bk_b bk = b /\ (1 <= bk_count bk)%Z)
       (medianCut pixels depth)
  /\ (List.length (medianCut pixels depth) = 1%nat
      <-> List.length pixels = 1%nat \/ depth = 0%nat).
Proof.
  intros Hne Hc.
  split; [apply medianCut_length|].
  split; [apply medianCut_singleColor_buckets, Hc|].
  rewrite medianCut_length.
  assert (Hn : (1 <= List.length pixels)%nat).
  { destruct pixels; [congruence|]. simpl. lia. }
  destruct depth as [|depth].
  - simpl. lia.
  - rewrite Nat.pow_succ_r'.
    pose proof (Nat.pow_nonzero 2 depth ltac:(lia)).
    split; [intro H0; left; lia | intros [H0|H0]; [lia|discriminate]].
Qed.

Lemma medianCut_single_color_witness :
  let p := mkPixel 200 30 30 (17 # 20) in
  [p; p; p] <> []
  /\ singleColor 200 30 30 [p; p; p]
  /\ List.length (medianCut [p; p; p] 1) = 2%nat.
Proof.
  intro p.
  assert (Hne : [p; p; p] <> []) by discriminate.
  assert (Hc : singleColor 200 30 30 [p; p; p]).
  { repeat constructor. }
  split; [exact Hne|]. split; [exact Hc|].
  rewrite (proj1 (medianCut_single_color 200 30 30 [p; p; p] 1 Hne Hc)).
  reflexivity.
Defined.

(** C1 as stated fails: two pixels of one colour and depth 1 give two
    buckets of that colour, not one. *)
Lemma medianCut_single_color_two_buckets :
  let p := mkPixel 200 30 30 (17 # 20) in
  [p; p] <> []
  /\ singleColor 200 30 30 [p; p]
  /\ (0 < 1)%nat
  /\ map (fun bk => (bk_r bk, bk_g bk, bk_b bk, bk_count bk)) (medianCut [p; p] 1)
     = [(200, 30, 30, 1); (200, 30, 30, 1)]%Z
  /\ ~ (exists bk, medianCut [p; p] 1 = [bk]).
Proof.
  intro p.
  split; [discriminate|].
  split; [repeat constructor|].
  split; [lia|].
  split; [vm_compute; reflexivity|].
  intros [bk H]. apply (f_equal (@List.length Bucket)) in H.
  rewrite medianCut_length in H. simpl in H. discriminate.
Qed.

(** ** The recursive step *)

Lemma fold_ranges (c : Channel) (pixels : list Pixel) (lo hi : Z) :
  fold_left
    (fun '(min, max) pixel =>
       let min := if (channel pixel c <? min)%Z then channel pixel c else min in
       let max := if (channel pixel c >? max)%Z then channel pixel c else max in
       (min, max))
    pixels (lo, hi)
  = (fold_left Z.min (map (fun p => channel p c) pixels) lo,
     fold_left Z.max (map (fun p => channel p c) pixels) hi).
Proof.
  revert lo hi. induction pixels as [|p pixels IH]; intros lo hi; [reflexivity|].
  simpl. rewrite IH. f_equal; f_equal.
  - destruct (Z.ltb_spec (channel p c) lo); lia.
  - rewrite Z.gtb_ltb. destruct (Z.ltb_spec hi (channel p c)); lia.
Qed.

Lemma fold_min_from_255 (x : Z) (l : list Z) :
  (x <= 255)%Z -> Z.min x (fold_right Z.min 255%Z l) = fold_right Z.min x l.
Proof.
  intro Hx. induction l as [|y l IH]; simpl; [lia|].
  rewrite <- IH. lia.
Qed.

Lemma fold_max_from_0 (x : Z) (l : list Z) :
  (0 <= x)%Z -> Z.max x (fold_right Z.max 0%Z l) = fold_right Z.max x l.
Proof.
  intro Hx. induction l as [|y l IH]; simpl; [lia|].
  rewrite <- IH. lia.
Qed.

(** On a non-empty set of valid pixels the loop of [getColorRange] computes
    greatest value minus least value. *)
Lemma getColorRange_spec (pixels : list Pixel) (c : Channel) :
  pixels <> [] -> Forall validPixel pixels ->
  getColorRange pixels c = channelRange pixels c.
Proof.
  intros Hne Hv. unfold getColorRange, channelRange. rewrite fold_ranges.
  destruct pixels as [|p pixels]; [congruence|].
  assert (Hp : byte (channel p c)).
  { inversion Hv as [|? ? (Hr & Hg & Hb) _]; subst. destruct c; assumption. }
  rewrite (fold_symmetric Z.min Z.min_assoc 255%Z (fun y => Z.min_comm 255 y)).
  rewrite (fold_symmetric Z.max Z.max_assoc 0%Z (fun y => Z.max_comm 0 y)).
  simpl map. simpl fold_right. unfold greatest, least, byte in *.
  rewrite fold_min_from_255, fold_max_from_0 by lia. reflexivity.
Qed.

Lemma byChannel_key (c : Channel) (x y : Pixel) :
  JS.positive (byChannel c x y)
  = JS.Qltb (inject_Z (channel y c)) (inject_Z (channel x c)).
Proof.
  change (JS.positive (byChannel c x y)) with (JS.Qltb 0 (byChannel c x y)).
  apply Bool.eq_true_iff_eq. rewrite !JSFacts.Qltb_lt. unfold byChannel.
  change 0%Q with (inject_Z 0). rewrite <- !Zlt_Qlt. lia.
Qed.

Lemma sort_byChannel_sorted (c : Channel) (pixels : list Pixel) :
  StronglySorted (fun a b => (channel a c <= channel b c)%Z)
    (JS.sort (byChannel c) pixels).
Proof.
  pose proof (JSFacts.sort_sorted (byChannel c) (fun p => inject_Z (channel p c))
                (byChannel_key c) pixels) as H.
  induction H as [|a l _ IH Hall]; constructor; [exact IH|].
  eapply Forall_impl; [|exact Hall].
  intros b Hb. unfold keyLe in Hb. rewrite Zle_Qle. exact Hb.
Qed.

Lemma sort_byChannel_stable (c : Channel) (v : Z) (pixels : list Pixel) :
  filter (fun p => (channel p c =? v)%Z) (JS.sort (byChannel c) pixels)
  = filter (fun p => (channel p c =? v)%Z) pixels.
Proof.
  pose proof (JSFacts.sort_stable (byChannel c) (fun p => inject_Z (channel p c))
                (byChannel_key c) (inject_Z v) pixels) as H.
  assert (E : forall p, sameKey (fun p => inject_Z (channel p c)) (inject_Z v) p
                        = (channel p c =? v)%Z).
  { intro p. unfold sameKey. apply Bool.eq_true_iff_eq.
    rewrite Qeq_bool_iff, inject_Z_injective, Z.eqb_eq. tauto. }
  rewrite !(filter_ext _ _ E) in H. exact H.
Qed.

Lemma splitChannel_order (rRange gRange bRange : Z) :
  ((rRange >= gRange /\ rRange >= bRange)%Z ->
   splitChannel rRange gRange bRange = Red)
  /\ (~ (rRange >= gRange /\ rRange >= bRange)%Z ->
      (gRange >= rRange /\ gRange >= bRange)%Z ->
      splitChannel rRange gRange bRange = Green)
  /\ (~ (rRange >= gRange /\ rRange >= bRange)%Z ->
      ~ (gRange >= rRange /\ gRange >= bRange)%Z ->
      splitChannel rRange gRange bRange = Blue).
Proof.
  unfold splitChannel. rewrite !Z.geb_leb.
  destruct (Z.leb_spec gRange rRange), (Z.leb_spec bRange rRange),
    (Z.leb_spec rRange gRange), (Z.leb_spec bRange gRange); simpl;
    repeat split; intros; try reflexivity; lia.
Qed.

(** C2: in every recursive step of medianCut on a non-empty set of valid
    pixels, the split channel is red if rRange >= gRange and rRange >=
    bRange, else green if gRange >= rRange and gRange >= bRange, else blue,
    the ranges being greatest minus least value of each channel; the set is
    sorted ascending by that channel with a stable sort, split at index
    floor(size/2), the lower half being the smaller one on odd sizes, and
    the result is the buckets of the lower half at depth - 1 followed by
    those of the upper half at depth - 1. *)
Theorem medianCut_recursive_step (pixels : list Pixel) (depth : nat) :
  pixels <> [] ->
  Forall validPixel pixels ->
  let rRange := channelRange pixels Red in
  let gRange := channelRange pixels Green in
  let bRange := channelRange pixels Blue in
  let c := chosenChannel pixels in
  let sorted := JS.sort (byChannel c) pixels in
  let mid := (List.length pixels / 2)%nat in
  let lower := firstn mid sorted in
  let upper := skipn mid sorted in
  (((rRange >= gRange /\ rRange >= bRange)%Z -> c = Red)
   /\ (~ (rRange >= gRange /\ rRange >= bRange)%Z ->
       (gRange >= rRange /\ gRange >= bRange)%Z -> c = Green)
   /\ (~ (rRange >= gRange /\ rRange >= bRange)%Z ->
       ~ (gRange >= rRange /\ gRange >= bRange)%Z -> c = Blue))
  /\ Permutation sorted pixels
  /\ StronglySorted (fun a b => (channel a c <= channel b c)%Z) sorted
  /\ (forall v, filter (fun p => (channel p c =? v)%Z) sorted
                = filter (fun p => (channel p c =? v)%Z) pixels)
  /\ sorted = lower ++ upper
  /\ List.length lower = mid
  /\ (List.length upper = List.length lower + List.length pixels mod 2)%nat
  /\ medianCut pixels (S depth) = medianCut lower depth ++ medianCut upper depth.
Proof.
  intros Hne Hv rRange gRange bRange c sorted mid lower upper.
  assert (Hlen : List.length sorted = List.length pixels)
    by apply JSFacts.sort_length.
  assert (Hmid : (mid <= List.length pixels)%nat).
  { subst mid. pose proof (Nat.div_mod_eq (List.length pixels) 2). lia. }
  assert (Hlower : List.length lower = mid).
  { subst lower. rewrite length_firstn, Hlen. lia. }
  split.
  { subst c rRange gRange bRange. unfold chosenChannel.
    rewrite !getColorRange_spec by assumption. apply splitChannel_order. }
  split; [apply JSFacts.sort_perm|].
  split; [apply sort_byChannel_sorted|].
  split; [intro v; apply sort_byChannel_stable|].
  split; [symmetry; apply firstn_skipn|].
  split; [exact Hlower|].
  split.
  { rewrite Hlower. subst upper. rewrite length_skipn, Hlen. subst mid.
    pose proof (Nat.div_mod_eq (List.length pixels) 2). lia. }
  apply medianCut_step, Hne.
Qed.

Lemma medianCut_recursive_step_witness :
  let p1 := mkPixel 10 200 30 (17 # 20) in
  let p2 := mkPixel 250 100 30 (22 # 25) in
  let p3 := mkPixel 100 150 40 (11 # 15) in
  [p1; p2; p3] <> []
  /\ Forall validPixel [p1; p2; p3]
  /\ chosenChannel [p1; p2; p3] = Red
  /\ medianCut [p1; p2; p3] 2 = medianCut [p1] 1 ++ medianCut [p3; p2] 1.
Proof.
  intros p1 p2 p3.
  assert (Hne : [p1; p2; p3] <> []) by discriminate.
  assert (Hv : Forall validPixel [p1; p2; p3]).
  { repeat constructor; simpl; lia. }
  split; [exact Hne|]. split; [exact Hv|].
  destruct (medianCut_recursive_step [p1; p2; p3] 1 Hne Hv)
    as ((Hred & _) & _ & _ & _ & _ & _ & _ & Hstep).
  split.
  - apply Hred. vm_compute. split; discriminate.
  - exact Hstep.
Defined.

(* ================================================================= *)
(** * Doubles and their order

    The comparisons and the subtraction of doubles, read off the library's
    specification of binary64 ([SpecFloat]). *)

Lemma digits2_size (p : positive) : (Z.pos p < 2 ^ Z.pos (digits2_pos p))%Z.
Proof.
  induction p as [p IH|p IH|]; simpl digits2_pos;
    rewrite ?Pos2Z.inj_succ, ?Z.pow_succ_r by lia; lia.
Qed.

Lemma digits2_lower (p : positive) : (2 ^ (Z.pos (digits2_pos p) - 1) <= Z.pos p)%Z.
Proof.
  induction p as [p IH|p IH|]; simpl digits2_pos; [| |simpl; lia];
    rewrite Pos2Z.inj_succ;
    replace (Z.succ (Z.pos (digits2_pos p)) - 1)%Z
      with (Z.succ (Z.pos (digits2_pos p) - 1))%Z by lia;
    rewrite Z.pow_succ_r by lia; lia.
Qed.

Lemma valid_finite (s : bool) (m : positive) (e : Z) :
  valid_binary (S754_finite s m e) = true -> validFinite m e.
Proof.
  unfold valid_binary, bounded, canonical_mantissa, fexp, validFinite.
  intro H. apply andb_true_iff in H. destruct H as [H He].
  apply Z.eqb_eq in H. apply Z.leb_le in He. unfold emin, prec, emax in *.
  pose proof (digits2_size m) as Hs. pose proof (digits2_lower m) as Hl.
  assert (Hd : (Z.pos (digits2_pos m) <= 53)%Z) by lia.
  split; [lia|]. split.
  - apply Z.lt_le_trans with (2 ^ Z.pos (digits2_pos m))%Z; [exact Hs|].
    apply Z.pow_le_mono_r; lia.
  - destruct (Z.eq_dec e (-1074)) as [E|E]; [right; exact E|left].
    assert (Hd53 : Z.pos (digits2_pos m) = 53%Z) by lia.
    rewrite Hd53 in Hl. exact Hl.
Qed.

Lemma magnitude_bounds (m : positive) (e : Z) :
  validFinite m e -> (0 < Z.pos m * 2 ^ (e + 1074) < 2 ^ 2200)%Z.
Proof.
  intros ((He1 & He2) & Hm & _).
  assert (Hp : (0 < 2 ^ (e + 1074))%Z) by (apply Z.pow_pos_nonneg; lia).
  split; [apply Z.mul_pos_pos; lia|].
  apply Z.lt_le_trans with (2 ^ 53 * 2 ^ (e + 1074))%Z; [nia|].
  rewrite <- Z.pow_add_r by lia. apply Z.pow_le_mono_r; lia.
Qed.

Lemma magnitude_lt (m1 m2 : positive) (e1 e2 : Z) :
  validFinite m1 e1 -> validFinite m2 e2 -> (e1 < e2)%Z ->
  (Z.pos m1 * 2 ^ (e1 + 1074) < Z.pos m2 * 2 ^ (e2 + 1074))%Z.
Proof.
  intros ((He1 & _) & Hm1 & _) ((_ & _) & _ & Hn2) Hlt.
  assert (Hm2 : (2 ^ 52 <= Z.pos m2)%Z) by (destruct Hn2; [assumption|lia]).
  replace (e2 + 1074)%Z with ((e1 + 1074) + Z.succ (e2 - e1 - 1))%Z by lia.
  rewrite (Z.pow_add_r 2 (e1 + 1074) (Z.succ (e2 - e1 - 1))) by lia.
  rewrite (Z.pow_succ_r 2 (e2 - e1 - 1)) by lia.
  assert (Hp : (0 < 2 ^ (e1 + 1074))%Z) by (apply Z.pow_pos_nonneg; lia).
  assert (Hk : (0 < 2 ^ (e2 - e1 - 1))%Z) by (apply Z.pow_pos_nonneg; lia).
  assert (H53 : (2 ^ 53 = 2 * 2 ^ 52)%Z) by reflexivity.
  rewrite H53 in Hm1.
  set (P := (2 ^ (e1 + 1074))%Z) in *. set (K := (2 ^ (e2 - e1 - 1))%Z) in *.
  set (c := (2 ^ 52)%Z) in *.
  assert (H1 : (Z.pos m1 * P < 2 * c * P)%Z) by nia.
  assert (H2 : (c * P <= Z.pos m2 * P)%Z) by nia.
  assert (H3 : (Z.pos m2 * P * 1 <= Z.pos m2 * P * K)%Z).
  { apply Z.mul_le_mono_nonneg_l; nia. }
  nia.
Qed.

Lemma SFcompare_ord (x y : spec_float) :
  valid_binary x = true -> valid_binary y = true ->
  SFis_nan x = false -> SFis_nan y = false ->
  SFcompare x y = Some (SFord x ?= SFord y)%Z.
Proof.
  intros Vx Vy Nx Ny.
  destruct x as [sx|sx| |sx mx ex]; try discriminate;
    destruct y as [sy|sy| |sy my ey]; try discriminate;
    try (apply valid_finite in Vx; pose proof (magnitude_bounds _ _ Vx));
    try (apply valid_finite in Vy; pose proof (magnitude_bounds _ _ Vy));
    unfold SFcompare, SFord.
  all: try (destruct sx; destruct sy; f_equal; symmetry;
            first [ reflexivity
                  | apply Z.compare_lt_iff; lia
                  | apply Z.compare_gt_iff; lia ]).
  all: try (destruct sx; f_equal; symmetry;
            first [ apply Z.compare_lt_iff; lia | apply Z.compare_gt_iff; lia ]).
  all: try (destruct sy; f_equal; symmetry;
            first [ apply Z.compare_lt_iff; lia | apply Z.compare_gt_iff; lia ]).
  f_equal. symmetry.
  change (Pos.compare_cont Eq mx my) with (Pos.compare mx my).
  destruct sx, sy;
    try (first [ apply Z.compare_lt_iff; lia | apply Z.compare_gt_iff; lia ]).
  - destruct (Z.compare_spec ex ey) as [E|E|E].
    + subst ey.
      assert (Hp : (0 < 2 ^ (ex + 1074))%Z)
        by (apply Z.pow_pos_nonneg; destruct Vx as ((? & ?) & _); lia).
      destruct (Pos.compare_spec mx my) as [Em|Em|Em]; cbn [CompOpp].
      * subst my. apply Z.compare_eq_iff. reflexivity.
      * assert (Z.pos mx < Z.pos my)%Z by lia. apply Z.compare_gt_iff. nia.
      * assert (Z.pos my < Z.pos mx)%Z by lia. apply Z.compare_lt_iff. nia.
    + pose proof (magnitude_lt _ _ _ _ Vx Vy E). apply Z.compare_gt_iff. lia.
    + pose proof (magnitude_lt _ _ _ _ Vy Vx E). apply Z.compare_lt_iff. lia.
  - destruct (Z.compare_spec ex ey) as [E|E|E].
    + subst ey.
      assert (Hp : (0 < 2 ^ (ex + 1074))%Z)
        by (apply Z.pow_pos_nonneg; destruct Vx as ((? & ?) & _); lia).
      destruct (Pos.compare_spec mx my) as [Em|Em|Em].
      * subst my. apply Z.compare_eq_iff. reflexivity.
      * assert (Z.pos mx < Z.pos my)%Z by lia. apply Z.compare_lt_iff. nia.
      * assert (Z.pos my < Z.pos mx)%Z by lia. apply Z.compare_gt_iff. nia.
    + pose proof (magnitude_lt _ _ _ _ Vx Vy E). apply Z.compare_lt_iff. lia.
    + pose proof (magnitude_lt _ _ _ _ Vy Vx E). apply Z.compare_gt_iff. lia.
Qed.

(** ** The sign of a rounded number *)


Lemma shr_1_half (mrs : shr_record) :
  (0 <= shr_m mrs)%Z -> shr_m (shr_1 mrs) = (shr_m mrs / 2)%Z.
Proof.
  destruct mrs as [m r s]. simpl shr_m. intro Hm.
  rewrite <- Z.div2_div.
  destruct m as [|[p|p|]|p]; try reflexivity. lia.
Qed.

Lemma iter_shr_1 (p : positive) (mrs : shr_record) :
  (0 <= shr_m mrs)%Z ->
  shr_m (iter_pos shr_1 p mrs) = (shr_m mrs / 2 ^ Z.pos p)%Z.
Proof.
  revert mrs. induction p as [p IH|p IH|]; intros mrs Hm; simpl iter_pos.
  - assert (H1 : (0 <= shr_m (shr_1 mrs))%Z).
    { rewrite shr_1_half by exact Hm. apply Z.div_pos; lia. }
    assert (H2 : (0 <= shr_m (iter_pos shr_1 p (shr_1 mrs)))%Z).
    { rewrite IH by exact H1. apply Z.div_pos; [exact H1|]. apply Z.pow_pos_nonneg; lia. }
    rewrite IH by exact H2. rewrite IH by exact H1. rewrite shr_1_half by exact Hm.
    assert (Hp : (0 < 2 ^ Z.pos p)%Z) by (apply Z.pow_pos_nonneg; lia).
    rewrite !Z.div_div by lia. f_equal.
    replace (Z.pos p~1) with (Z.pos p + Z.pos p + 1)%Z by lia.
    rewrite !Z.pow_add_r by lia. change (2 ^ 1)%Z with 2%Z. lia.
  - assert (H2 : (0 <= shr_m (iter_pos shr_1 p mrs))%Z).
    { rewrite IH by exact Hm. apply Z.div_pos; [exact Hm|]. apply Z.pow_pos_nonneg; lia. }
    rewrite IH by exact H2. rewrite IH by exact Hm.
    assert (Hp : (0 < 2 ^ Z.pos p)%Z) by (apply Z.pow_pos_nonneg; lia).
    rewrite Z.div_div by lia. f_equal.
    replace (Z.pos p~0) with (Z.pos p + Z.pos p)%Z by lia.
    rewrite Z.pow_add_r by lia. reflexivity.
  - rewrite shr_1_half by exact Hm. reflexivity.
Qed.

Lemma shr_record_of_loc_m (m : Z) (l : location) : shr_m (shr_record_of_loc m l) = m.
Proof. destruct l as [|[ | | ]]; reflexivity. Qed.

(** Shifting a positive mantissa to its place leaves it positive. *)
Lemma shr_fexp_positive (m : positive) (e : Z) (l : location) :
  (-1074 <= e)%Z ->
  (0 < shr_m (fst (shr_fexp prec emax (Z.pos m) e l)))%Z
  /\ (-1074 <= snd (shr_fexp prec emax (Z.pos m) e l))%Z.
Proof.
  intro He. unfold shr_fexp, shr, fexp, emin, prec, emax, Zdigits2.
  pose proof (digits2_lower m) as Hl.
  set (d := Z.pos (digits2_pos m)) in *.
  destruct (Z.max (d + e - 53) (3 - 1024 - 53) - e)%Z as [|n|n] eqn:En;
    cbn [fst snd]; rewrite ?shr_record_of_loc_m; try (split; lia).
  rewrite iter_shr_1 by (rewrite shr_record_of_loc_m; lia).
  rewrite shr_record_of_loc_m. split; [|lia].
  apply Z.div_str_pos. split; [apply Z.pow_pos_nonneg; lia|].
  apply Z.le_trans with (2 ^ (d - 1))%Z; [|exact Hl].
  apply Z.pow_le_mono_r; lia.
Qed.

Lemma round_nearest_even_positive (m : Z) (l : location) :
  (0 < m)%Z -> (0 < round_nearest_even m l)%Z.
Proof.
  intro Hm. destruct l as [|[ | | ]]; simpl; try lia.
  destruct (Z.even m); lia.
Qed.

Lemma binary_round_aux_sign (sx : bool) (m : positive) (e : Z) (l : location) :
  (-1074 <= e)%Z ->
  (exists m' e', binary_round_aux prec emax sx (Z.pos m) e l = S754_finite sx m' e')
  \/ binary_round_aux prec emax sx (Z.pos m) e l = S754_infinity sx.
Proof.
  intro He. unfold binary_round_aux.
  destruct (shr_fexp_positive m e l He) as [H1 H1e].
  destruct (shr_fexp prec emax (Z.pos m) e l) as [mrs' e'].
  cbn [fst snd] in H1, H1e.
  pose proof (round_nearest_even_positive _ (loc_of_shr_record mrs') H1) as H2.
  destruct (round_nearest_even (shr_m mrs') (loc_of_shr_record mrs')) as [|m2|m2];
    try lia.
  destruct (shr_fexp_positive m2 e' loc_Exact H1e) as [H3 _].
  destruct (shr_fexp prec emax (Z.pos m2) e' loc_Exact) as [mrs'' e''].
  cbn [fst] in H3.
  destruct (shr_m mrs'') as [|m3|m3]; try lia.
  destruct (e'' <=? emax - prec)%Z; [left; eauto|right; reflexivity].
Qed.

Lemma iter_xO (m d : positive) : Z.pos (Pos.iter xO m d) = (Z.pos m * 2 ^ Z.pos d)%Z.
Proof.
  induction d as [|d IH] using Pos.peano_ind.
  - simpl. lia.
  - rewrite Pos.iter_succ, Pos2Z.inj_xO, IH, Pos2Z.inj_succ, Z.pow_succ_r by lia. lia.
Qed.

Lemma binary_round_sign (sx : bool) (m : positive) (e : Z) :
  (-1074 <= e)%Z ->
  (exists m' e', binary_round prec emax sx m e = S754_finite sx m' e')
  \/ binary_round prec emax sx m e = S754_infinity sx.
Proof.
  intro He. unfold binary_round, shl_align.
  destruct (fexp prec emax (Z.pos (digits2_pos m) + e) - e)%Z eqn:E;
    try (apply binary_round_aux_sign; exact He).
  apply binary_round_aux_sign. unfold fexp, emin, prec, emax. lia.
Qed.

Lemma binary_normalize_sign (D e : Z) :
  (-1074 <= e)%Z ->
  SFltb (S754_zero false) (binary_normalize prec emax D e false) = (0 <? D)%Z.
Proof.
  intro He. destruct D as [|p|p]; simpl binary_normalize.
  - reflexivity.
  - destruct (binary_round_sign false p e He) as [(m' & e' & ->)| ->]; reflexivity.
  - destruct (binary_round_sign true p e He) as [(m' & e' & ->)| ->]; reflexivity.
Qed.

Lemma shl_align_value (m : positive) (e ez : Z) :
  (ez <= e)%Z ->
  Z.pos (fst (shl_align m e ez)) = (Z.pos m * 2 ^ (e - ez))%Z.
Proof.
  intro H. unfold shl_align.
  destruct (ez - e)%Z as [|d|d] eqn:E; cbn [fst]; try lia.
  - replace (e - ez)%Z with 0%Z by lia. simpl. lia.
  - rewrite iter_xO. f_equal. f_equal. lia.
Qed.

(** [0 < x - y] exactly when [y < x], whatever the doubles. *)
Lemma SFsub_sign (x y : spec_float) :
  valid_binary x = true -> valid_binary y = true ->
  SFltb (S754_zero false) (SF64sub x y) = SFltb y x.
Proof.
  intros Vx Vy.
  destruct x as [sx|sx| |sx mx ex], y as [sy|sy| |sy my ey];
    try (destruct sx; reflexivity);
    try (destruct sy; reflexivity);
    try (destruct sx, sy; reflexivity);
    try reflexivity.
  unfold SFltb at 2.
  rewrite (SFcompare_ord _ _ Vy Vx eq_refl eq_refl).
  apply valid_finite in Vx, Vy.
  destruct Vx as ((Hx1 & Hx2) & Hx3 & Hx4), Vy as ((Hy1 & Hy2) & Hy3 & Hy4).
  unfold SF64sub, SFsub. cbv zeta.
  set (ez := Z.min ex ey).
  rewrite binary_normalize_sign by lia.
  rewrite !shl_align_value by lia.
  unfold SFord.
  assert (Hx : (2 ^ (ex + 1074) = 2 ^ (ex - ez) * 2 ^ (ez + 1074))%Z).
  { rewrite <- Z.pow_add_r by lia. f_equal. lia. }
  assert (Hy : (2 ^ (ey + 1074) = 2 ^ (ey - ez) * 2 ^ (ez + 1074))%Z).
  { rewrite <- Z.pow_add_r by lia. f_equal. lia. }
  rewrite Hx, Hy.
  assert (Hp : (0 < 2 ^ (ez + 1074))%Z) by (apply Z.pow_pos_nonneg; lia).
  set (P := (2 ^ (ez + 1074))%Z) in *.
  set (X := (Z.pos mx * 2 ^ (ex - ez))%Z). set (Y := (Z.pos my * 2 ^ (ey - ez))%Z).
  replace (Z.pos mx * (2 ^ (ex - ez) * P))%Z with (X * P)%Z by (subst X; ring).
  replace (Z.pos my * (2 ^ (ey - ez) * P))%Z with (Y * P)%Z by (subst Y; ring).
  assert (HX : (0 < X)%Z).
  { subst X. apply Z.mul_pos_pos; [lia|apply Z.pow_pos_nonneg; lia]. }
  assert (HY : (0 < Y)%Z).
  { subst Y. apply Z.mul_pos_pos; [lia|apply Z.pow_pos_nonneg; lia]. }
  clearbody X Y P.
  destruct sx, sy; unfold cond_Zopp;
    match goal with
    | |- (0 <? ?d)%Z = match (?a ?= ?b)%Z with _ => _ end =>
        destruct (Z.ltb_spec 0 d); destruct (Z.compare_spec a b);
          try reflexivity; exfalso; nia
    end.
Qed.

Lemma sub_positive (a b : float) : (0 <? b - a)%float = (a <? b)%float.
Proof.
  rewrite !FloatAxioms.ltb_spec, FloatAxioms.sub_spec.
  change (Prim2SF 0) with (S754_zero false).
  apply SFsub_sign; apply FloatAxioms.Prim2SF_valid.
Qed.


(** ** The order of doubles *)

Lemma is_nan_spec (x : float) : PrimFloat.is_nan x = SFis_nan (Prim2SF x).
Proof.
  unfold PrimFloat.is_nan. rewrite FloatAxioms.eqb_spec. unfold SFeqb.
  pose proof (FloatAxioms.Prim2SF_valid x) as V.
  destruct (SFis_nan (Prim2SF x)) eqn:E.
  - destruct (Prim2SF x); try discriminate. reflexivity.
  - rewrite (SFcompare_ord _ _ V V E E), Z.compare_refl. reflexivity.
Qed.

Lemma compare_ord (a b : float) :
  PrimFloat.is_nan a = false -> PrimFloat.is_nan b = false ->
  SFcompare (Prim2SF a) (Prim2SF b) = Some (ord64 a ?= ord64 b)%Z.
Proof.
  rewrite !is_nan_spec. intros Na Nb.
  apply SFcompare_ord; try assumption; apply FloatAxioms.Prim2SF_valid.
Qed.

Lemma ltb_ord (a b : float) :
  PrimFloat.is_nan a = false -> PrimFloat.is_nan b = false ->
  (a <? b)%float = (ord64 a <? ord64 b)%Z.
Proof.
  intros Na Nb. rewrite FloatAxioms.ltb_spec. unfold SFltb.
  rewrite (compare_ord a b Na Nb). unfold Z.ltb.
  destruct (ord64 a ?= ord64 b)%Z; reflexivity.
Qed.

Lemma leb_ord (a b : float) :
  PrimFloat.is_nan a = false -> PrimFloat.is_nan b = false ->
  (a <=? b)%float = (ord64 a <=? ord64 b)%Z.
Proof.
  intros Na Nb. rewrite FloatAxioms.leb_spec. unfold SFleb.
  rewrite (compare_ord a b Na Nb). unfold Z.leb.
  destruct (ord64 a ?= ord64 b)%Z; reflexivity.
Qed.

Lemma eqb_ord (a b : float) :
  PrimFloat.is_nan a = false -> PrimFloat.is_nan b = false ->
  (a =? b)%float = (ord64 a =? ord64 b)%Z.
Proof.
  intros Na Nb. rewrite FloatAxioms.eqb_spec. unfold SFeqb.
  rewrite (compare_ord a b Na Nb).
  destruct (Z.compare_spec (ord64 a) (ord64 b)) as [E|E|E]; symmetry;
    [apply Z.eqb_eq; exact E|apply Z.eqb_neq; lia|apply Z.eqb_neq; lia].
Qed.

(** NaN compares false with everything. *)
Lemma compare_nan (a b : float) :
  PrimFloat.is_nan a = true \/ PrimFloat.is_nan b = true ->
  SFcompare (Prim2SF a) (Prim2SF b) = None.
Proof.
  rewrite !is_nan_spec. intros [H|H].
  - destruct (Prim2SF a); try discriminate. reflexivity.
  - destruct (Prim2SF b); try discriminate. destruct (Prim2SF a); reflexivity.
Qed.

Lemma ltb_nan (a b : float) :
  PrimFloat.is_nan a = true \/ PrimFloat.is_nan b = true -> (a <? b)%float = false.
Proof.
  intro H. rewrite FloatAxioms.ltb_spec. unfold SFltb.
  rewrite (compare_nan a b H). reflexivity.
Qed.

Lemma eqb_nan (a b : float) :
  PrimFloat.is_nan a = true \/ PrimFloat.is_nan b = true -> (a =? b)%float = false.
Proof.
  intro H. rewrite FloatAxioms.eqb_spec. unfold SFeqb.
  rewrite (compare_nan a b H). reflexivity.
Qed.

Lemma ltb_not_nan (a b : float) :
  (a <? b)%float = true -> PrimFloat.is_nan a = false /\ PrimFloat.is_nan b = false.
Proof.
  intro H.
  destruct (PrimFloat.is_nan a) eqn:Na; [rewrite ltb_nan in H by auto; discriminate|].
  destruct (PrimFloat.is_nan b) eqn:Nb; [rewrite ltb_nan in H by auto; discriminate|].
  split; reflexivity.
Qed.

Lemma eqb_not_nan (a b : float) :
  (a =? b)%float = true -> PrimFloat.is_nan a = false /\ PrimFloat.is_nan b = false.
Proof.
  intro H.
  destruct (PrimFloat.is_nan a) eqn:Na; [rewrite eqb_nan in H by auto; discriminate|].
  destruct (PrimFloat.is_nan b) eqn:Nb; [rewrite eqb_nan in H by auto; discriminate|].
  split; reflexivity.
Qed.

Lemma ltb_asym (a b : float) : (a <? b)%float = true -> (b <? a)%float = false.
Proof.
  intro H. destruct (ltb_not_nan a b H) as [Na Nb].
  rewrite ltb_ord in * by assumption. lia.
Qed.

(** Among doubles that are not NaN, "not below" is transitive. *)
Lemma not_ltb_trans (a b c : float) :
  PrimFloat.is_nan a = false -> PrimFloat.is_nan b = false ->
  PrimFloat.is_nan c = false ->
  (a <? b)%float = false -> (b <? c)%float = false -> (a <? c)%float = false.
Proof.
  intros Na Nb Nc. rewrite !ltb_ord by assumption. lia.
Qed.

(** Two doubles equal to a third are not below one another. *)
Lemma ltb_eqb (a b k : float) :
  (a <? b)%float = true -> (a =? k)%float = true -> (b =? k)%float = true -> False.
Proof.
  intros Hlt Ha Hb.
  destruct (ltb_not_nan a b Hlt) as [Na Nb].
  destruct (eqb_not_nan a k Ha) as [_ Nk].
  rewrite ltb_ord in Hlt by assumption.
  rewrite eqb_ord in Ha, Hb by assumption. lia.
Qed.

Lemma not_ltb_leb (a b : float) :
  PrimFloat.is_nan a = false -> PrimFloat.is_nan b = false ->
  (a <? b)%float = false <-> (b <=? a)%float = true.
Proof.
  intros Na Nb. rewrite ltb_ord, leb_ord by assumption. lia.
Qed.

(* ================================================================= *)
(** * Ranker *)

Lemma rank_length (colors : list Bucket) (colorCount : Z) :
  List.length (rank colors colorCount)
  = Nat.min (Z.to_nat colorCount) (List.length colors).
Proof.
  unfold rank, JS.slice_to. rewrite length_firstn, JSFacts.sort_length. reflexivity.
Qed.

(** The comparator [scoreB - scoreA] is greater than 0 exactly when the
    score of [a] is below the score of [b]: then [b] goes in front. *)
Lemma byScore_past (a b : Bucket) :
  JS.positive (byScore a b) = (score a <? score b)%float.
Proof.
  change (JS.positive (byScore a b)) with (0 <? score b - score a)%float.
  apply sub_positive.
Qed.

Lemma score_ltb_asym (a b : Bucket) :
  (score a <? score b)%float = true -> (score b <? score a)%float = false.
Proof. apply ltb_asym. Qed.

Lemma sort_byScore_ordered (colors : list Bucket) :
  Sorted (fun a b => (score a <? score b)%float = false) (JS.sort byScore colors).
Proof.
  exact (JSFacts.sort_ordered byScore (fun a b => (score a <? score b)%float)
           byScore_past score_ltb_asym colors).
Qed.

Lemma sort_byScore_sorted (colors : list Bucket) :
  Forall (fun c => PrimFloat.is_nan (score c) = false) colors ->
  StronglySorted (fun a b => (score b <=? score a)%float = true)
    (JS.sort byScore colors).
Proof.
  intro Hnum.
  pose proof (JSFacts.sort_strongly byScore (fun a b => (score a <? score b)%float)
                byScore_past score_ltb_asym
                (fun c => PrimFloat.is_nan (score c) = false)
                (fun x y z Hx Hy Hz => not_ltb_trans (score x) (score y) (score z)
                                         Hx Hy Hz)
                colors Hnum) as Hs.
  pose proof (JSFacts.sort_Forall byScore _ colors Hnum) as Hall.
  induction Hs as [|a l _ IH Ha]; constructor.
  - apply IH. inversion Hall; assumption.
  - inversion Hall as [|? ? Na Nl]; subst.
    rewrite Forall_forall in *. intros b Hb.
    apply not_ltb_leb; [exact Na|apply Nl, Hb|apply Ha, Hb].
Qed.

Lemma sort_byScore_stable (k : float) (colors : list Bucket) :
  filter (fun c => (score c =? k)%float) (JS.sort byScore colors)
  = filter (fun c => (score c =? k)%float) colors.
Proof.
  apply (JSFacts.sort_keeps byScore (fun a b => (score a <? score b)%float)
           byScore_past).
  intros x y. apply ltb_eqb.
Qed.

(** C3: the ranking stage scores a bucket as count * (1 + saturation * 2),
    a double; its comparator puts a bucket behind another exactly when its
    score is the lower one; the sorted list is a permutation of the buckets
    in which no bucket scores below its right neighbour, in descending
    order of score throughout when no score is NaN (no score of the
    pipeline is), and the buckets of one score keep their order (the sort
    is stable); rank keeps the first colorCount of them, so for every
    bucket list and every requested count the result has at most colorCount
    entries. *)
Theorem rank_sorts_and_truncates (colors : list Bucket) (colorCount : Z) :
  (0 <= colorCount)%Z ->
  let ranked := JS.sort byScore colors in
  (forall c, score c = (JS.Z2F (bk_count c) * (1 + bk_saturation c * 2))%float)
  /\ (forall a b, JS.positive (byScore a b) = (score a <? score b)%float)
  /\ Permutation ranked colors
  /\ Sorted (fun a b => (score a <? score b)%float = false) ranked
  /\ (Forall (fun c => PrimFloat.is_nan (score c) = false) colors ->
      StronglySorted (fun a b => (score b <=? score a)%float = true) ranked)
  /\ (forall k, filter (fun c => (score c =? k)%float) ranked
                = filter (fun c => (score c =? k)%float) colors)
  /\ rank colors colorCount = firstn (Z.to_nat colorCount) ranked
  /\ (Z.of_nat (List.length (rank colors colorCount)) <= colorCount)%Z
  /\ (List.length (map paletteEntry (rank colors colorCount))
      <= List.length colors)%nat
  /\ (Z.of_nat (List.length (map paletteEntry (rank colors colorCount)))
      <= colorCount)%Z.
Proof.
  intros Hc ranked.
  split; [reflexivity|].
  split; [exact byScore_past|].
  split; [apply JSFacts.sort_perm|].
  split; [apply sort_byScore_ordered|].
  split; [apply sort_byScore_sorted|].
  split; [intro k; apply sort_byScore_stable|].
  split; [reflexivity|].
  rewrite length_map, rank_length. lia.
Qed.

Lemma rank_sorts_and_truncates_witness :
  let dull := mkBucket 120 120 120 0 10 in
  let vivid := mkBucket 250 10 10 0.96 4 in
  let pale := mkBucket 200 180 180 0.1 10 in
  (0 <= 2)%Z
  /\ Forall (fun c => PrimFloat.is_nan (score c) = false) [dull; vivid; pale]
  /\ map score [dull; vivid; pale] = [10; 11.68; 12]%float
  /\ StronglySorted (fun a b => (score b <=? score a)%float = true)
       [pale; vivid; dull]
  /\ map bk_count (rank [dull; vivid; pale] 2) = [10; 4]%Z
  /\ map bk_r (rank [dull; vivid; pale] 2) = [200; 250]%Z.
Proof.
  intros dull vivid pale.
  assert (H0 : (0 <= 2)%Z) by lia.
  assert (Hnum : Forall (fun c => PrimFloat.is_nan (score c) = false)
                   [dull; vivid; pale]) by (repeat constructor).
  split; [exact H0|]. split; [exact Hnum|].
  split; [vm_compute; reflexivity|].
  destruct (rank_sorts_and_truncates [dull; vivid; pale] 2 H0)
    as (_ & _ & _ & _ & Hsorted & _ & -> & _).
  split; [exact (Hsorted Hnum)|].
  vm_compute. split; reflexivity.
Defined.

(* ================================================================= *)
(** * Pipeline *)

Lemma samplePixel_valid (r g b a : Z) (p : Pixel) :
  byte r -> byte g -> byte b -> samplePixel r g b a = Some p -> validPixel p.
Proof.
  intros Hr Hg Hb H. rewrite samplePixel_spec in H.
  destruct (keptBySpec (r, g, b, a)); [|discriminate].
  injection H as <-. unfold validPixel. simpl. auto.
Qed.

Lemma getPixels_valid (data : list Z) :
  Forall byte data -> Forall validPixel (getPixels data).
Proof.
  assert (H : forall n data, (List.length data <= n)%nat ->
                             Forall byte data -> Forall validPixel (getPixels data)).
  { induction n as [|n IH]; intros [|r [|g [|b [|a rest]]]] Hlen Hd;
      try (constructor; fail); simpl in Hlen; try lia.
    inversion Hd as [|? ? Hr Hd1]; subst. inversion Hd1 as [|? ? Hg Hd2]; subst.
    inversion Hd2 as [|? ? Hb Hd3]; subst. inversion Hd3 as [|? ? Ha Hrest]; subst.
    rewrite getPixels_cons.
    assert (Hrec : Forall validPixel (getPixels rest)) by (apply IH; [lia|exact Hrest]).
    destruct (samplePixel r g b a) as [p|] eqn:E; [|exact Hrec].
    constructor; [|exact Hrec]. exact (samplePixel_valid r g b a p Hr Hg Hb E). }
  apply (H (List.length data)). lia.
Qed.

Lemma medianCut_valid (pixels : list Pixel) (depth : nat) :
  Forall validPixel pixels ->
  Forall (fun bk => byte (bk_r bk) /\ byte (bk_g bk) /\ byte (bk_b bk))
    (medianCut pixels depth).
Proof.
  intro Hv. rewrite medianCut_leafSets. apply Forall_map.
  pose proof (leafSets_Forall _ pixels depth Hv) as Hall.
  pose proof (leafSets_nonempty pixels depth) as Hne.
  induction Hall as [|part parts Hpart _ IH]; [constructor|].
  inversion Hne as [|? ? Hpne Hne']; subst.
  constructor; [|apply IH, Hne'].
  apply averageBucket_valid; assumption.
Qed.

Lemma rank_Forall (P : Bucket -> Prop) (colors : list Bucket) (colorCount : Z) :
  Forall P colors -> Forall P (rank colors colorCount).
Proof.
  intro H. unfold rank, JS.slice_to.
  pose proof (JSFacts.sort_Forall byScore P colors H) as Hs.
  rewrite <- (firstn_skipn (Z.to_nat colorCount) (JS.sort byScore colors)) in Hs.
  apply Forall_app in Hs. apply Hs.
Qed.

Lemma depthFor_covers (colorCount : Z) (depth : nat) :
  depthFor colorCount = Some depth -> (Z.to_nat colorCount <= 2 ^ depth)%nat.
Proof.
  unfold depthFor. destruct (Z.leb_spec 1 colorCount) as [Hc|]; [|discriminate].
  intro H. injection H as <-.
  apply Nat2Z.inj_le. rewrite Nat2Z.inj_pow, !Z2Nat.id;
    [|pose proof (Z.log2_up_nonneg colorCount); lia|lia].
  change (Z.of_nat 2) with 2%Z.
  apply Z.le_trans with (2 ^ Z.log2_up colorCount)%Z.
  - destruct (Z.eq_dec colorCount 1) as [->|Hne]; [simpl; lia|].
    apply Z.log2_up_spec. lia.
  - apply Z.pow_le_mono_r; lia.
Qed.

Lemma onload_resolves (data : list Z) (colorCount : Z) :
  (1 <= colorCount)%Z -> getPixels data <> [] ->
  exists depth,
    depthFor colorCount = Some depth
    /\ onload data colorCount
       = Resolved (map paletteEntry (rank (medianCut (getPixels data) depth) colorCount))
    /\ List.length (rank (medianCut (getPixels data) depth) colorCount)
       = Nat.min (Z.to_nat colorCount) (List.length (getPixels data)).
Proof.
  intros Hc Hne.
  destruct (depthFor colorCount) as [depth|] eqn:Ed.
  2:{ unfold depthFor in Ed. apply Z.leb_le in Hc. rewrite Hc in Ed. discriminate. }
  exists depth. split; [reflexivity|]. split.
  - destruct data as [|x data]; [contradiction Hne; reflexivity|].
    unfold onload. rewrite Ed.
    destruct (getPixels (x :: data)) as [|p pixels]; [congruence|]. reflexivity.
  - rewrite rank_length, medianCut_length.
    pose proof (depthFor_covers colorCount depth Ed). lia.
Qed.

Lemma onload_rejects (data : list Z) (colorCount : Z) :
  data <> [] -> getPixels data = [] ->
  onload data colorCount = Rejected NoValidPixels.
Proof.
  intros Hd H. destruct data as [|x data]; [congruence|].
  unfold onload. rewrite H. reflexivity.
Qed.

Lemma onload_empty_canvas (colorCount : Z) : onload [] colorCount = Pending.
Proof. reflexivity. Qed.

(** On a canvas with bytes [getImageData] returns and the handler runs to
    one of its three ends. *)
Lemma onload_canvas (data : list Z) (colorCount : Z) :
  data <> [] ->
  onload data colorCount
  = if (List.length (getPixels data) =? 0)%nat then Rejected NoValidPixels
    else match depthFor colorCount with
         | None => Pending
         | Some depth =>
             Resolved (map paletteEntry
                         (rank (medianCut (getPixels data) depth) colorCount))
         end.
Proof. intro H. destruct data; [congruence|reflexivity]. Qed.

Lemma paletteEntry_entryOf (colors : list Bucket) :
  Forall2 entryOf (map paletteEntry colors) colors.
Proof.
  induction colors as [|c colors IH]; constructor; [|exact IH].
  unfold entryOf, paletteEntry. cbn. repeat split.
Qed.

(** C6: the claim is right and the program misses a case.  On a canvas with
    at least one pixel and a requested count from 1 to 2^32 the pipeline
    rejects with NoValidPixels exactly when the filtered pixel list is
    empty, and otherwise resolves with a palette made, entry by entry, of
    the ranked buckets of the image itself, min(colorCount, number of valid
    pixels) entries long and so never empty; a failed load rejects with the
    decode error; so every outcome is one of the two errors or such a
    palette.  But an image 501 pixels wide and 1 pixel high is drawn on a
    canvas of 250 by 0 pixels, which has no bytes: there getImageData
    throws inside the onload handler, the promise is neither rejected nor
    resolved, and the outcome is no error and no palette. *)
Theorem extractColors_error_or_palette (data : list Z) (colorCount : Z) :
  (1 <= colorCount <= maxColorCount)%Z ->
  (canvasSize 501 1 = (250, 0)%Z
   /\ extractColors (Loaded []) (Some colorCount) = Pending)
  /\ (data <> [] ->
      (extractColors (Loaded data) (Some colorCount) = Rejected NoValidPixels
       <-> getPixels data = [])
      /\ (getPixels data <> [] ->
          exists depth palette,
            depthFor colorCount = Some depth
            /\ extractColors (Loaded data) (Some colorCount) = Resolved palette
            /\ Forall2 entryOf palette
                 (rank (medianCut (getPixels data) depth) colorCount)
            /\ List.length palette
               = Nat.min (Z.to_nat colorCount) (List.length (getPixels data))
            /\ palette <> []))
  /\ extractColors LoadError (Some colorCount) = Rejected ImageDecodeFailed
  /\ (forall image,
         image <> Loaded [] ->
         (exists message,
             extractColors image (Some colorCount) = Rejected message
             /\ (message = NoValidPixels \/ message = ImageDecodeFailed))
         \/ (exists palette,
                extractColors image (Some colorCount) = Resolved palette
                /\ palette <> [])).
Proof.
  intros [Hc _].
  assert (Hres : forall data, getPixels data <> [] ->
      exists depth palette,
        depthFor colorCount = Some depth
        /\ extractColors (Loaded data) (Some colorCount) = Resolved palette
        /\ Forall2 entryOf palette
             (rank (medianCut (getPixels data) depth) colorCount)
        /\ List.length palette
           = Nat.min (Z.to_nat colorCount) (List.length (getPixels data))
        /\ palette <> []).
  { intros data' Hne.
    destruct (onload_resolves data' colorCount Hc Hne) as (depth & Hd & Hon & Hlen).
    exists depth. eexists. split; [exact Hd|]. split; [exact Hon|].
    split; [apply paletteEntry_entryOf|].
    rewrite length_map. split; [exact Hlen|].
    intro Hnil. apply (f_equal (@List.length PaletteEntry)) in Hnil.
    rewrite length_map, Hlen in Hnil. simpl in Hnil.
    destruct (getPixels data'); [congruence|]. simpl in Hnil. lia. }
  split; [split; reflexivity|].
  split; [|split; [reflexivity|]].
  - intro Hcanvas. split; [|apply Hres].
    split.
    + intro Hrej. destruct (getPixels data) as [|p pixels] eqn:E; [reflexivity|].
      destruct (Hres data) as (depth & palette & _ & Hon & _);
        [rewrite E; discriminate|].
      rewrite Hon in Hrej. discriminate.
    + apply onload_rejects, Hcanvas.
  - intros [|data'] Himage.
    + left. eexists. split; [reflexivity|]. right. reflexivity.
    + assert (Hcanvas : data' <> []) by congruence.
      destruct (getPixels data') as [|p pixels] eqn:E.
      * left. exists NoValidPixels.
        split; [apply onload_rejects; assumption|]. left. reflexivity.
      * right.
        destruct (Hres data') as (depth & palette & _ & Hon & _ & _ & Hnil);
          [rewrite E; discriminate|].
        exists palette. split; assumption.
Qed.

Lemma extractColors_error_or_palette_witness :
  (1 <= 2 <= maxColorCount)%Z
  /\ canvasSize 501 1 = (250, 0)%Z
  /\ extractColors (Loaded []) (Some 2%Z) = Pending
  /\ (extractColors (Loaded [255; 0; 0; 0; 0; 0; 255; 0]%Z) (Some 2%Z)
      = Rejected NoValidPixels)
  /\ extractColors LoadError (Some 2%Z) = Rejected ImageDecodeFailed
  /\ (exists palette,
         extractColors (Loaded [255; 0; 0; 255; 0; 0; 255; 255]%Z) (Some 2%Z)
         = Resolved palette
         /\ List.length palette = 2%nat).
Proof.
  assert (H1 : (1 <= 2 <= maxColorCount)%Z) by (unfold maxColorCount; lia).
  split; [exact H1|].
  destruct (extractColors_error_or_palette [255; 0; 0; 0; 0; 0; 255; 0]%Z 2 H1)
    as ((Hsize & Hpending) & Hcanvas & Herr & _).
  split; [exact Hsize|]. split; [exact Hpending|].
  split; [apply Hcanvas; [discriminate|reflexivity]|].
  split; [exact Herr|].
  destruct (extractColors_error_or_palette [255; 0; 0; 255; 0; 0; 255; 255]%Z 2 H1)
    as (_ & Hres & _).
  destruct Hres as (_ & Hres); [discriminate|].
  destruct Hres as (depth & palette & _ & Hon & _ & Hlen & _).
  - vm_compute. discriminate.
  - exists palette. split; [exact Hon|]. rewrite Hlen. reflexivity.
Defined.

(** A resolved palette is the palette of the ranked buckets of a canvas
    with bytes and valid pixels, at a natural depth. *)
Lemma extractColors_resolved (data : list Z) (colorCount : option Z)
  (palette : list PaletteEntry) :
  extractColors (Loaded data) colorCount = Resolved palette ->
  data <> [] /\ getPixels data <> []
  /\ exists depth,
      depthFor (match colorCount with Some n => n | None => 6%Z end) = Some depth
      /\ palette
         = map paletteEntry
             (rank (medianCut (getPixels data) depth)
                (match colorCount with Some n => n | None => 6%Z end)).
Proof.
  intro H.
  assert (Hne : data <> []) by (intros ->; discriminate H).
  split; [exact Hne|].
  unfold extractColors in H. rewrite (onload_canvas _ _ Hne) in H.
  destruct (getPixels data) as [|p pixels]; [discriminate H|].
  split; [discriminate|].
  cbn [List.length Nat.eqb] in H.
  destruct (depthFor _) as [depth|]; [|discriminate H].
  exists depth. split; [reflexivity|]. injection H as <-. reflexivity.
Qed.

(** C10: a call without colorCount is the call with colorCount = 6: the
    partition depth is ceil(log2 6) + 2 = 5 and at most six buckets are
    kept.  (On a canvas without bytes [getImageData] throws and the promise
    stays pending, with or without colorCount.) *)
Theorem extractColors_default_count (image : ImageLoad) :
  extractColors image None = extractColors image (Some 6%Z)
  /\ depthFor 6 = Some 5%nat
  /\ extractColors image None
     = match image with
       | LoadError => Rejected ImageDecodeFailed
       | Loaded [] => Pending
       | Loaded data =>
           match getPixels data with
           | [] => Rejected NoValidPixels
           | _ :: _ =>
               Resolved (map paletteEntry (rank (medianCut (getPixels data) 5) 6))
           end
       end.
Proof.
  split; [reflexivity|]. split; [reflexivity|].
  destruct image as [|[|x data]]; [reflexivity|reflexivity|].
  unfold extractColors, onload.
  change (depthFor 6) with (Some 5%nat).
  destruct (getPixels (x :: data)) as [|p pixels]; reflexivity.
Qed.

(** C7: every palette entry that extractColors emits for a byte array has
    r, g and b in [0, 255] and the hex string of rgbToHex, which is '#'
    followed by the two lowercase, zero-padded hexadecimal digits of each
    channel and so matches #[0-9a-f]{6}; the bounds hold for every bucket of
    medianCut on valid pixels, and the format for all bytes. *)
Theorem palette_entries_in_range :
  (forall r g b,
      byte r -> byte g -> byte b ->
      rgbToHex r g b
      = ("#" ++ twoHexDigits r ++ twoHexDigits g ++ twoHexDigits b)%string
      /\ matchesHexColor (rgbToHex r g b) = true)
  /\ (forall pixels depth,
         Forall validPixel pixels ->
         Forall (fun bk => byte (bk_r bk) /\ byte (bk_g bk) /\ byte (bk_b bk))
           (medianCut pixels depth))
  /\ (forall data colorCount palette,
         Forall byte data ->
         extractColors (Loaded data) colorCount = Resolved palette ->
         Forall (fun e =>
                   byte (pe_r e) /\ byte (pe_g e) /\ byte (pe_b e)
                   /\ pe_hex e = rgbToHex (pe_r e) (pe_g e) (pe_b e)
                   /\ matchesHexColor (pe_hex e) = true)
           palette).
Proof.
  split; [|split].
  - intros r g b Hr Hg Hb.
    split; [apply rgbToHex_digits | apply rgbToHex_matches]; assumption.
  - exact medianCut_valid.
  - intros data colorCount palette Hd Hres.
    apply extractColors_resolved in Hres.
    destruct Hres as (_ & _ & depth & _ & ->). apply Forall_map.
    eapply Forall_impl;
      [|apply rank_Forall, medianCut_valid, getPixels_valid, Hd].
    intros bk (Hr & Hg & Hb). simpl.
    repeat split; try apply Hr; try apply Hg; try apply Hb.
    apply rgbToHex_matches; assumption.
Qed.

Lemma palette_entries_in_range_witness :
  byte 255 /\ byte 0 /\ byte 10
  /\ rgbToHex 255 0 10 = "#ff000a"%string
  /\ matchesHexColor (rgbToHex 255 0 10) = true.
Proof.
  assert (H255 : byte 255) by byte_lia.
  assert (H0 : byte 0) by byte_lia.
  assert (H10 : byte 10) by byte_lia.
  split; [exact H255|]. split; [exact H0|]. split; [exact H10|].
  destruct (proj1 palette_entries_in_range 255 0 10 H255 H0 H10)%Z as [Hd Hm].
  split; [rewrite Hd; reflexivity | exact Hm].
Defined.

(** The example of the specification: the 2x1 image with the pixels
    (255, 0, 0) and (0, 0, 255), two colours requested.  The two buckets
    have equal scores and the stable sort keeps the order of the partition,
    the blue bucket first. *)
Example extractColors_red_blue :
  match extractColors (Loaded [255; 0; 0; 255; 0; 0; 255; 255]%Z) (Some 2%Z) with
  | Resolved palette => map pe_hex palette = ["#0000ff"; "#ff0000"]%string
  | _ => False
  end.
Proof. vm_compute. reflexivity. Qed.

(* ================================================================= *)
(** * rgbToHsl *)

(** ** Rounding a double below a limit

    The order of doubles is read off the library's specification of [<?];
    a valid mantissa has at most 53 bits. *)

Lemma valid_mantissa (s : bool) (m : positive) (e : Z) :
  valid_binary (S754_finite s m e) = true -> (Z.pos m < 2 ^ 53)%Z.
Proof.
  unfold valid_binary, bounded, canonical_mantissa, fexp.
  intro H. apply andb_true_iff in H. destruct H as [H _].
  apply Z.eqb_eq in H.
  assert (Hd : (Z.pos (digits2_pos m) <= 53)%Z) by (unfold prec in H; lia).
  apply Z.lt_le_trans with (2 ^ Z.pos (digits2_pos m))%Z; [apply digits2_size|].
  apply Z.pow_le_mono_r; lia.
Qed.

(** A double that is not negative and below the normal double
    [c = mc * 2^ec <= N + 1/2], [ec < 0], is finite and rounds into
    [0 .. N]. *)
Lemma Math_round64_below (c : float) (mc : positive) (ec N : Z) (x : float) :
  Prim2SF c = S754_finite false mc ec ->
  (ec < 0)%Z -> (2 ^ 52 <= Z.pos mc)%Z ->
  (2 * Z.pos mc <= (2 * N + 1) * 2 ^ (- ec))%Z ->
  roundsWithin c x = true ->
  isFinite64 x = true /\ (0 <= JS.Math_round64 x <= N)%Z.
Proof.
  intros Hc Hec Hmc HN H.
  unfold roundsWithin in H. apply andb_true_iff in H. destruct H as [Hlt Hpos].
  apply negb_true_iff in Hpos.
  assert (HN0 : (0 <= N)%Z).
  { assert (0 < 2 ^ (- ec))%Z by (apply Z.pow_pos_nonneg; lia). nia. }
  rewrite FloatAxioms.ltb_spec in Hlt, Hpos. rewrite Hc in Hlt.
  change (Prim2SF 0) with (S754_zero false) in Hpos.
  pose proof (FloatAxioms.Prim2SF_valid x) as Hv.
  unfold isFinite64, JS.Math_round64.
  destruct (Prim2SF x) as [sx|sx| |sx m e].
  - split; [reflexivity|lia].
  - destruct sx; discriminate.
  - discriminate.
  - split; [reflexivity|].
    destruct sx; [discriminate|].
    apply valid_mantissa in Hv.
    unfold SFltb, SFcompare in Hlt.
    assert (He : (e < ec \/ (e = ec /\ Z.pos m < Z.pos mc))%Z).
    { destruct (Z.compare_spec e ec) as [E|E|E]; [right|left; exact E|discriminate].
      split; [exact E|].
      change (Pos.compare_cont Eq m mc) with (Pos.compare m mc) in Hlt.
      destruct (Pos.compare_spec m mc); try discriminate. lia. }
    assert (Hneg : (0 <=? e)%Z = false) by (apply Z.leb_gt; lia).
    rewrite Hneg.
    assert (Hk : (0 < 2 ^ (- e))%Z) by (apply Z.pow_pos_nonneg; lia).
    assert (Hbound : (2 * Z.pos m < (2 * N + 1) * 2 ^ (- e))%Z).
    { destruct He as [He|[-> Hm]]; [|lia].
      replace (- e)%Z with (Z.succ (- ec + (ec - e - 1)))%Z by lia.
      rewrite Z.pow_succ_r, Z.pow_add_r by lia.
      assert (0 < 2 ^ (ec - e - 1))%Z by (apply Z.pow_pos_nonneg; lia).
      assert (0 < 2 ^ (- ec))%Z by (apply Z.pow_pos_nonneg; lia).
      nia. }
    split.
    + apply Z.div_pos; lia.
    + apply Z.lt_succ_r, Z.div_lt_upper_bound; lia.
Qed.

Lemma rounds_within_360 (x : float) :
  roundsWithin 360.5 x = true ->
  isFinite64 x = true /\ (0 <= JS.Math_round64 x <= 360)%Z.
Proof.
  apply (Math_round64_below 360.5 (Z.to_pos (721 * 2 ^ 43)) (-44) 360).
  - vm_compute. reflexivity.
  - lia.
  - vm_compute. discriminate.
  - vm_compute. discriminate.
Qed.

Lemma rounds_within_100 (x : float) :
  roundsWithin 100.5 x = true ->
  isFinite64 x = true /\ (0 <= JS.Math_round64 x <= 100)%Z.
Proof.
  apply (Math_round64_below 100.5 (Z.to_pos (201 * 2 ^ 45)) (-46) 100).
  - vm_compute. reflexivity.
  - lia.
  - vm_compute. discriminate.
  - vm_compute. discriminate.
Qed.

(** [Math.round] at ties and next to them. *)
Example Math_round64_ties :
  map JS.Math_round64
    [0.5; 1.5; 2.5; -0.5; -1.5; -2.5; 0.49999999999999994; 359.5;
     359.49999999999994; 12.499999999999979; -0.50000000000000011]%float
  = [1; 2; 3; 0; -1; -2; 0; 360; 359; 12; -1]%Z.
Proof. vm_compute. reflexivity. Qed.

Lemma unitBytes_spec : unitBytes = map (fun z => (JS.Z2F z / 255)%float) bytes.
Proof. vm_compute. reflexivity. Qed.

Lemma unitByte_in (x : Z) : byte x -> In (JS.Z2F x / 255)%float unitBytes.
Proof.
  intro Hx. rewrite unitBytes_spec.
  apply (in_map (fun z => (JS.Z2F z / 255)%float)), byte_in_bytes, Hx.
Qed.

(** On the fractions of bytes the double comparison is the integer one. *)
Lemma ltb_unit (x y : Z) :
  byte x -> byte y -> (JS.Z2F x / 255 <? JS.Z2F y / 255)%float = (x <? y)%Z.
Proof.
  intros Hx Hy. apply Bool.eqb_prop.
  revert y Hy. apply (forall_bytes (fun y =>
    Bool.eqb (JS.Z2F x / 255 <? JS.Z2F y / 255)%float (x <? y)%Z)).
  revert x Hx. apply (forall_bytes (fun x => forallb (fun y =>
    Bool.eqb (JS.Z2F x / 255 <? JS.Z2F y / 255)%float (x <? y)%Z) bytes)).
  vm_compute. reflexivity.
Qed.

Lemma Math_max64_unit (x y : Z) :
  byte x -> byte y ->
  JS.Math_max64 (JS.Z2F x / 255) (JS.Z2F y / 255) = (JS.Z2F (Z.max x y) / 255)%float.
Proof.
  intros Hx Hy. unfold JS.Math_max64. rewrite ltb_unit by assumption.
  destruct (Z.ltb_spec x y); [rewrite Z.max_r by lia | rewrite Z.max_l by lia];
    reflexivity.
Qed.

Lemma Math_min64_unit (x y : Z) :
  byte x -> byte y ->
  JS.Math_min64 (JS.Z2F x / 255) (JS.Z2F y / 255) = (JS.Z2F (Z.min x y) / 255)%float.
Proof.
  intros Hx Hy. unfold JS.Math_min64. rewrite ltb_unit by assumption.
  destruct (Z.ltb_spec y x); [rewrite Z.min_r by lia | rewrite Z.min_l by lia];
    reflexivity.
Qed.

(** All pairs of a greatest and a least channel, evaluated. *)
Lemma satLightInRange_all :
  forallb
    (fun max =>
       forallb
         (fun min =>
            if (max <? min)%Z then true
            else satLightInRange (JS.Z2F max / 255) (JS.Z2F min / 255))
         bytes)
    bytes
  = true.
Proof. vm_cast_no_check (eq_refl true). Qed.

(** All 2^24 colours, evaluated. *)
Lemma hueInRange_all :
  forallb (fun r => forallb (fun g => forallb (hueInRange r g) unitBytes) unitBytes)
    unitBytes
  = true.
Proof. vm_cast_no_check (eq_refl true). Qed.

Lemma hslInRange_parts (r g b : float) :
  hueInRange r g b = true ->
  satLightInRange (JS.Math_max64 (JS.Math_max64 r g) b)
    (JS.Math_min64 (JS.Math_min64 r g) b) = true ->
  hslInRange r g b = true.
Proof.
  unfold hueInRange, satLightInRange, hslInRange, hslOfUnit. cbv zeta.
  set (max := JS.Math_max64 (JS.Math_max64 r g) b).
  set (min := JS.Math_min64 (JS.Math_min64 r g) b).
  destruct (max =? min)%float.
  - intros _ H. rewrite andb_true_r in H. rewrite H. reflexivity.
  - intros Hh H. apply andb_true_iff in H. destruct H as [Hl Hs].
    rewrite Hh, Hs, Hl. reflexivity.
Qed.

Lemma hslInRange_bytes (r g b : Z) :
  byte r -> byte g -> byte b ->
  hslInRange (JS.Z2F r / 255) (JS.Z2F g / 255) (JS.Z2F b / 255) = true.
Proof.
  intros Hr Hg Hb.
  apply hslInRange_parts.
  - pose proof hueInRange_all as H.
    rewrite forallb_forall in H. specialize (H _ (unitByte_in r Hr)).
    rewrite forallb_forall in H. specialize (H _ (unitByte_in g Hg)).
    rewrite forallb_forall in H. exact (H _ (unitByte_in b Hb)).
  - assert (Hmax : byte (Z.max r g)) by byte_lia.
    assert (Hmin : byte (Z.min r g)) by byte_lia.
    rewrite !Math_max64_unit, !Math_min64_unit by assumption.
    assert (HM : byte (Z.max (Z.max r g) b)) by byte_lia.
    assert (Hm : byte (Z.min (Z.min r g) b)) by byte_lia.
    pose proof (forall_bytes _ (forall_bytes _ satLightInRange_all _ HM) _ Hm) as H.
    cbv beta in H.
    destruct (Z.ltb_spec (Z.max (Z.max r g) b) (Z.min (Z.min r g) b)); [lia|exact H].
Qed.





(* ================================================================= *)
(** * Canvas size *)

Lemma round_scaled (short long : Z) :
  (0 <= short)%Z -> (0 < long)%Z ->
  let scaled := JS.Math_round (inject_Z (short * maxSize) / inject_Z long) in
  (2 * long * scaled <= 500 * short + long < 2 * long * scaled + 2 * long)%Z.
Proof.
  intros Hs Hl scaled. subst scaled. rewrite JSFacts.Math_round_div by exact Hl.
  unfold maxSize.
  pose proof (Z.div_mod (2 * (short * 250) + long) (2 * long) ltac:(lia)) as Hd.
  pose proof (Z.mod_pos_bound (2 * (short * 250) + long) (2 * long) ltac:(lia)) as Hm.
  lia.
Qed.

(** X1: for an image of non-negative width and height, both edges of the
    canvas that extractColors draws on lie in [0, 250], neither edge exceeds
    the edge of the image, and the canvas holds at most 250 * 250 = 62500
    pixels. *)
Theorem canvasSize_bounded (width height : Z) :
  (0 <= width)%Z -> (0 <= height)%Z ->
  let '(w, h) := canvasSize width height in
  (0 <= w <= maxSize)%Z /\ (0 <= h <= maxSize)%Z
  /\ (w <= width)%Z /\ (h <= height)%Z
  /\ (4 * w * h <= 250000)%Z.
Proof.
  intros Hw Hh. unfold canvasSize.
  destruct (Z.gtb_spec width height) as [Hwh|Hwh];
    [destruct (Z.gtb_spec width maxSize) as [Hm|Hm]
    |destruct (Z.gtb_spec height maxSize) as [Hm|Hm]]; cbv zeta; unfold maxSize in *.
  - pose proof (round_scaled height width Hh ltac:(lia)) as H. cbv zeta in H.
    set (s := JS.Math_round _) in *. nia.
  - nia.
  - pose proof (round_scaled width height Hw ltac:(lia)) as H. cbv zeta in H.
    set (s := JS.Math_round _) in *. nia.
  - nia.
Qed.

Lemma canvasSize_bounded_witness :
  (0 <= 1000)%Z /\ (0 <= 400)%Z
  /\ (fst (canvasSize 1000 400) <= maxSize)%Z
  /\ (snd (canvasSize 1000 400) <= maxSize)%Z.
Proof.
  assert (Hw : (0 <= 1000)%Z) by lia. assert (Hh : (0 <= 400)%Z) by lia.
  split; [exact Hw|]. split; [exact Hh|].
  pose proof (canvasSize_bounded 1000 400 Hw Hh) as H.
  destruct (canvasSize 1000 400) as [w h]. simpl. lia.
Defined.

(** X2: an image whose longer edge is at most 250 is drawn at its own size;
    an image whose longer edge exceeds 250 is drawn with the longer edge
    exactly 250. *)
Theorem canvasSize_longer_edge (width height : Z) :
  (0 <= width)%Z -> (0 <= height)%Z ->
  let '(w, h) := canvasSize width height in
  (Z.max width height <= maxSize -> (w, h) = (width, height))%Z
  /\ (maxSize < Z.max width height -> Z.max w h = maxSize)%Z.
Proof.
  intros Hw Hh. unfold canvasSize.
  destruct (Z.gtb_spec width height) as [Hwh|Hwh];
    [destruct (Z.gtb_spec width maxSize) as [Hm|Hm]
    |destruct (Z.gtb_spec height maxSize) as [Hm|Hm]]; cbv zeta; unfold maxSize in *.
  - pose proof (round_scaled height width Hh ltac:(lia)) as H. cbv zeta in H.
    set (s := JS.Math_round _) in *. split; [lia|]. intros _.
    assert (s <= 250)%Z by nia. lia.
  - split; [reflexivity|lia].
  - pose proof (round_scaled width height Hw ltac:(lia)) as H. cbv zeta in H.
    set (s := JS.Math_round _) in *. split; [lia|]. intros _.
    assert (s <= 250)%Z by nia. lia.
  - split; [reflexivity|lia].
Qed.

Lemma canvasSize_longer_edge_witness :
  (0 <= 300)%Z /\ (0 <= 900)%Z
  /\ Z.max (fst (canvasSize 300 900)) (snd (canvasSize 300 900)) = 250%Z.
Proof.
  assert (Hw : (0 <= 300)%Z) by lia. assert (Hh : (0 <= 900)%Z) by lia.
  split; [exact Hw|]. split; [exact Hh|].
  pose proof (canvasSize_longer_edge 300 900 Hw Hh) as H.
  destruct (canvasSize 300 900) as [w h]. simpl. apply H. unfold maxSize. lia.
Defined.

(** X3: when the image is scaled down, the canvas keeps the aspect ratio up
    to the rounding of the shorter edge (the cross product of the sizes is
    off by at most half the longer edge of the image), and the shorter edge
    of the canvas is 0 exactly when the longer edge of the image is more
    than 500 times the shorter one.  (On a canvas with an edge of 0,
    [getImageData] throws.) *)
Theorem canvasSize_aspect (width height : Z) :
  (0 <= width)%Z -> (0 <= height)%Z -> (maxSize < Z.max width height)%Z ->
  let '(w, h) := canvasSize width height in
  (2 * Z.abs (w * height - h * width) <= Z.max width height)%Z
  /\ (Z.min w h = 0 <-> 2 * maxSize * Z.min width height < Z.max width height)%Z.
Proof.
  intros Hw Hh Hbig. unfold canvasSize.
  destruct (Z.gtb_spec width height) as [Hwh|Hwh];
    [destruct (Z.gtb_spec width maxSize) as [Hm|Hm]
    |destruct (Z.gtb_spec height maxSize) as [Hm|Hm]]; cbv zeta; unfold maxSize in *;
    try lia.
  - pose proof (round_scaled height width Hh ltac:(lia)) as H. cbv zeta in H.
    set (s := JS.Math_round _) in *.
    assert (0 <= s <= 250)%Z by nia.
    rewrite (Z.max_l width height), (Z.min_r width height), (Z.min_r 250 s) by lia.
    split; [lia|]. split; intro; nia.
  - pose proof (round_scaled width height Hw ltac:(lia)) as H. cbv zeta in H.
    set (s := JS.Math_round _) in *.
    assert (0 <= s <= 250)%Z by nia.
    rewrite (Z.max_r width height), (Z.min_l width height), (Z.min_l s 250) by lia.
    split; [lia|]. split; intro; nia.
Qed.

Lemma canvasSize_aspect_witness :
  (0 <= 1000)%Z /\ (0 <= 1)%Z /\ (maxSize < Z.max 1000 1)%Z
  /\ Z.min (fst (canvasSize 1000 1)) (snd (canvasSize 1000 1)) = 0%Z.
Proof.
  assert (Hw : (0 <= 1000)%Z) by lia. assert (Hh : (0 <= 1)%Z) by lia.
  assert (Hb : (maxSize < Z.max 1000 1)%Z) by (unfold maxSize; lia).
  split; [exact Hw|]. split; [exact Hh|]. split; [exact Hb|].
  pose proof (canvasSize_aspect 1000 1 Hw Hh Hb) as H.
  destruct (canvasSize 1000 1) as [w h]. simpl. apply H. unfold maxSize. lia.
Defined.

(* ================================================================= *)
(** * Saturation and sampling *)

Lemma unit_quotient (M m : Z) :
  (0 <= m <= M)%Z -> (0 < M)%Z ->
  unitFraction (inject_Z (M - m) / inject_Z M)
  /\ ((inject_Z (M - m) / inject_Z M == 0)%Q <-> m = M)
  /\ ((inject_Z (M - m) / inject_Z M == 1)%Q <-> m = 0%Z).
Proof.
  intros Hm HM.
  assert (Hd : (0 <= M - m <= M)%Z) by lia.
  assert (Hd0 : (M - m = 0 <-> m = M)%Z) by lia.
  assert (Hd1 : (M - m = M <-> m = 0)%Z) by lia.
  rewrite <- Hd0, <- Hd1. generalize dependent (M - m)%Z. intros d Hd _ _.
  destruct M as [|p|p]; try lia.
  unfold unitFraction, Qdiv, Qinv, Qmult, Qle, Qeq. simpl.
  rewrite ?Z.mul_1_r, ?Pos.mul_1_l. lia.
Qed.

(** X4: for non-negative channels getSaturation lies in [0, 1]; it is 0
    exactly for the greys (r = g = b) and 1 exactly when the least channel
    is 0 and the colour is not black. *)
Theorem getSaturation_range (r g b : Z) :
  (0 <= r)%Z -> (0 <= g)%Z -> (0 <= b)%Z ->
  unitFraction (getSaturation r g b)
  /\ ((getSaturation r g b == 0)%Q <-> r = g /\ g = b)
  /\ ((getSaturation r g b == 1)%Q
      <-> Z.min (Z.min r g) b = 0%Z /\ (0 < Z.max (Z.max r g) b)%Z).
Proof.
  intros Hr Hg Hb. unfold getSaturation. cbv zeta.
  set (M := Z.max (Z.max r g) b). set (m := Z.min (Z.min r g) b).
  assert (Hm : (0 <= m <= M)%Z) by (subst M m; lia).
  destruct (Z.eqb_spec M 0) as [E|E].
  - split; [split; discriminate|]. split.
    + split; [intros _; subst M; lia|reflexivity].
    + split; [discriminate|lia].
  - destruct (unit_quotient M m Hm ltac:(lia)) as (Hu & H0 & H1).
    split; [exact Hu|]. rewrite H0, H1. subst M m. lia.
Qed.

Lemma getSaturation_range_witness :
  (0 <= 200)%Z /\ (0 <= 30)%Z /\ (0 <= 0)%Z /\ (getSaturation 200 30 0 == 1)%Q.
Proof.
  assert (H200 : (0 <= 200)%Z) by lia. assert (H30 : (0 <= 30)%Z) by lia.
  assert (H0 : (0 <= 0)%Z) by lia.
  split; [exact H200|]. split; [exact H30|]. split; [exact H0|].
  apply (getSaturation_range 200 30 0 H200 H30 H0). simpl. lia.
Defined.

Lemma saturationSpec_unit (r g b : Z) :
  byte r -> byte g -> byte b -> unitFraction (saturationSpec r g b).
Proof.
  intros Hr Hg Hb. unfold saturationSpec.
  destruct (Z.eq_dec (Z.max (Z.max r g) b) 0) as [E|E].
  - split; discriminate.
  - apply unit_quotient; byte_lia.
Qed.

(** The scan of [getPixels] goes pixel by pixel: what holds for fewer than
    four bytes and is kept by one more pixel in front holds for every
    array. *)
Lemma getPixels_ind (P : list Z -> Prop) :
  (forall data, (List.length data < 4)%nat -> P data) ->
  (forall r g b a rest, P rest -> P (r :: g :: b :: a :: rest)) ->
  forall data, P data.
Proof.
  intros Hshort Hstep.
  assert (H : forall n data, (List.length data <= n)%nat -> P data).
  { induction n as [|n IH]; intros data Hlen.
    - apply Hshort. lia.
    - destruct data as [|r [|g [|b [|a rest]]]]; try (apply Hshort; simpl; lia).
      apply Hstep, IH. simpl in Hlen. lia. }
  intro data. apply (H (List.length data)). lia.
Qed.

Lemma getPixels_sampled (data : list Z) :
  Forall byte data ->
  Forall (fun p => validPixel p
                   /\ unitFraction (px_sat p)
                   /\ (15 <= px_r p + px_g p + px_b p <= 750)%Z)
    (getPixels data).
Proof.
  induction data as [data Hshort|r g b a rest IH] using getPixels_ind; intro Hd.
  - destruct data as [|r [|g [|b [|a rest]]]]; simpl in *; try lia; constructor.
  - inversion Hd as [|? ? Hr Hd1]; subst. inversion Hd1 as [|? ? Hg Hd2]; subst.
    inversion Hd2 as [|? ? Hb Hd3]; subst. inversion Hd3 as [|? ? Ha Hrest]; subst.
    rewrite getPixels_cons, samplePixel_spec.
    destruct (keptBySpec (r, g, b, a)) eqn:E; [|exact (IH Hrest)].
    constructor; [|exact (IH Hrest)].
    apply keptBySpec_iff in E. destruct E as (_ & H5 & H250).
    apply brightness_bounds in H5. apply brightness_bounds in H250.
    simpl. split; [unfold validPixel; simpl; auto|].
    split; [apply saturationSpec_unit; assumption|lia].
Qed.

Lemma getPixels_quarter (data : list Z) :
  (4 * List.length (getPixels data) <= List.length data)%nat.
Proof.
  induction data as [data Hshort|r g b a rest IH] using getPixels_ind.
  - destruct data as [|r [|g [|b [|a rest]]]]; simpl in *; lia.
  - rewrite getPixels_cons.
    destruct (samplePixel r g b a); simpl List.length; lia.
Qed.

(** X5: on an array of bytes every pixel that getPixels returns has byte
    channels, a saturation in [0, 1] and a channel sum in [15, 750], and
    getPixels returns at most one pixel for every four bytes. *)
Theorem getPixels_invariants (data : list Z) :
  Forall byte data ->
  Forall (fun p => validPixel p
                   /\ unitFraction (px_sat p)
                   /\ (15 <= px_r p + px_g p + px_b p <= 750)%Z)
    (getPixels data)
  /\ (4 * List.length (getPixels data) <= List.length data)%nat.
Proof.
  intro Hd. split; [apply getPixels_sampled, Hd|apply getPixels_quarter].
Qed.

Lemma getPixels_invariants_witness :
  Forall byte [200; 30; 30; 255; 0; 0; 0; 255]%Z
  /\ (4 * List.length (getPixels [200; 30; 30; 255; 0; 0; 0; 255]%Z) <= 8)%nat.
Proof.
  assert (H : Forall byte [200; 30; 30; 255; 0; 0; 0; 255]%Z).
  { repeat constructor; byte_lia. }
  split; [exact H|].
  exact (proj2 (getPixels_invariants _ H)).
Defined.

(** X6: getPixels scans pixel by pixel without state: the pixels of an image
    followed by further bytes are the pixels of the image followed by the
    pixels of those bytes. *)
Theorem getPixels_app (image : list RGBA) (data : list Z) :
  getPixels (flattenRGBA image ++ data)
  = getPixels (flattenRGBA image) ++ getPixels data.
Proof.
  induction image as [|[[[r g] b] a] image IH]; [reflexivity|].
  change (flattenRGBA ((r, g, b, a) :: image))
    with (r :: g :: b :: a :: flattenRGBA image).
  change ((r :: g :: b :: a :: flattenRGBA image) ++ data)
    with (r :: g :: b :: a :: (flattenRGBA image ++ data)).
  rewrite !getPixels_cons, IH.
  destruct (samplePixel r g b a); reflexivity.
Qed.

(** X7: whatever the requested count, extractColors rejects a loaded image
    whose canvas has at least one pixel with 'No valid pixels found in
    image' exactly when every pixel of the canvas has alpha below 128 or a
    channel sum below 15 or above 750.  (On a canvas without pixels
    getImageData throws before any pixel is looked at.) *)
Theorem extractColors_rejects_iff (image : list RGBA) (colorCount : option Z) :
  image <> [] ->
  (extractColors (Loaded (flattenRGBA image)) colorCount = Rejected NoValidPixels
   <-> Forall (fun '(r, g, b, a) =>
                 (a < 128 \/ r + g + b < 15 \/ 750 < r + g + b)%Z) image).
Proof.
  assert (Hempty : getPixels (flattenRGBA image) = []
                   <-> Forall (fun '(r, g, b, a) =>
                                 (a < 128 \/ r + g + b < 15 \/ 750 < r + g + b)%Z) image).
  { rewrite getPixels_flatten.
    induction image as [|[[[r g] b] a] image IH]; [split; [constructor|reflexivity]|].
    change (filter keptBySpec ((r, g, b, a) :: image))
      with (if keptBySpec (r, g, b, a)
            then (r, g, b, a) :: filter keptBySpec image
            else filter keptBySpec image).
    assert (Hk : keptBySpec (r, g, b, a) = true
                 <-> (128 <= a /\ 15 <= r + g + b <= 750)%Z).
    { rewrite keptBySpec_iff.
      destruct (brightness_bounds r g b) as [H5 H250]. rewrite H5, H250. tauto. }
    destruct (keptBySpec (r, g, b, a)); simpl map.
    - split; [discriminate|]. intro H. inversion H as [|? ? Hp _]; subst.
      destruct Hk as [Hk _]. specialize (Hk eq_refl). lia.
    - rewrite IH. split; intro H.
      + constructor; [|exact H].
        destruct (Z.lt_ge_cases a 128); [lia|].
        destruct (Z.lt_ge_cases (r + g + b) 15); [lia|].
        destruct (Z.lt_ge_cases 750 (r + g + b)); [lia|].
        destruct Hk as [_ Hk]. discriminate Hk. lia.
      + inversion H; assumption. }
  intro Hcanvas.
  assert (Hbytes : flattenRGBA image <> []).
  { destruct image as [|[[[r g] b] a] image]; [congruence|].
    change (flattenRGBA ((r, g, b, a) :: image))
      with (r :: g :: b :: a :: flattenRGBA image).
    discriminate. }
  rewrite <- Hempty. unfold extractColors. rewrite (onload_canvas _ _ Hbytes).
  destruct (getPixels (flattenRGBA image)) as [|p pixels]; simpl.
  - split; reflexivity.
  - split; [|discriminate].
    destruct (depthFor _); discriminate.
Qed.

Lemma extractColors_rejects_iff_witness :
  [(0, 0, 0, 255); (255, 255, 255, 255); (200, 30, 30, 0)]%Z <> []
  /\ extractColors
       (Loaded (flattenRGBA
                  [(0, 0, 0, 255); (255, 255, 255, 255); (200, 30, 30, 0)]%Z))
       (Some 6%Z)
     = Rejected NoValidPixels.
Proof.
  assert (H : [(0, 0, 0, 255); (255, 255, 255, 255); (200, 30, 30, 0)]%Z <> [])
    by discriminate.
  split; [exact H|].
  apply (proj2 (extractColors_rejects_iff _ (Some 6%Z) H)).
  repeat constructor; lia.
Defined.

(* ================================================================= *)
(** * Channel ranges *)

Lemma fold_max_spec (x : Z) (l : list Z) :
  In (fold_right Z.max x l) (x :: l)
  /\ Forall (fun y => (y <= fold_right Z.max x l)%Z) (x :: l).
Proof.
  induction l as [|y l [IHin IHall]]; simpl fold_right.
  - split; [left; reflexivity|]. constructor; [lia|constructor].
  - split.
    + destruct (Z.max_spec y (fold_right Z.max x l)) as [[_ ->]|[_ ->]].
      * destruct IHin as [<-|Hin]; [left; reflexivity|right; right; exact Hin].
      * right; left; reflexivity.
    + inversion IHall as [|? ? Hx Hl]; subst.
      constructor; [lia|]. constructor; [lia|].
      eapply Forall_impl; [|exact Hl]. simpl. intros. lia.
Qed.

Lemma fold_min_spec (x : Z) (l : list Z) :
  In (fold_right Z.min x l) (x :: l)
  /\ Forall (fun y => (fold_right Z.min x l <= y)%Z) (x :: l).
Proof.
  induction l as [|y l [IHin IHall]]; simpl fold_right.
  - split; [left; reflexivity|]. constructor; [lia|constructor].
  - split.
    + destruct (Z.min_spec y (fold_right Z.min x l)) as [[_ ->]|[_ ->]].
      * right; left; reflexivity.
      * destruct IHin as [<-|Hin]; [left; reflexivity|right; right; exact Hin].
    + inversion IHall as [|? ? Hx Hl]; subst.
      constructor; [lia|]. constructor; [lia|].
      eapply Forall_impl; [|exact Hl]. simpl. intros. lia.
Qed.

(** On a non-empty list [greatest] and [least] are elements that bound
    every element. *)
Lemma greatest_least_spec (l : list Z) :
  l <> [] ->
  In (greatest l) l /\ In (least l) l
  /\ Forall (fun y => (least l <= y <= greatest l)%Z) l.
Proof.
  destruct l as [|x l]; [congruence|]. intros _. unfold greatest, least.
  destruct (fold_max_spec x l) as [Hmi Hma], (fold_min_spec x l) as [Hni Hna].
  split; [exact Hmi|]. split; [exact Hni|].
  rewrite Forall_forall in *. intros y Hy. split; [apply Hna|apply Hma]; exact Hy.
Qed.

(** X8: on pixels with byte channels getColorRange is -255 for the empty
    list (the initial minimum 255 and maximum 0 are left) and lies in [0,
    255] for a non-empty one, where it is 0 exactly when all pixels agree on
    the channel. *)
Theorem getColorRange_bounds (pixels : list Pixel) (c : Channel) :
  Forall validPixel pixels ->
  (pixels = [] -> getColorRange pixels c = (-255)%Z)
  /\ (pixels <> [] ->
      (0 <= getColorRange pixels c <= 255)%Z
      /\ (getColorRange pixels c = 0%Z
          <-> forall p q, In p pixels -> In q pixels -> channel p c = channel q c)).
Proof.
  intro Hv. split; [intros ->; reflexivity|]. intro Hne.
  rewrite getColorRange_spec by assumption. unfold channelRange.
  set (vs := map (fun p => channel p c) pixels).
  assert (Hvs : vs <> []) by (subst vs; destruct pixels; [congruence|discriminate]).
  assert (Hb : Forall byte vs).
  { subst vs. apply Forall_map. eapply Forall_impl; [|exact Hv].
    intros p (Hr & Hg & Hb). destruct c; assumption. }
  destruct (greatest_least_spec vs Hvs) as (HM & Hm & Hall).
  rewrite Forall_forall in Hb, Hall.
  pose proof (Hb _ HM) as HMb. pose proof (Hb _ Hm) as Hmb.
  pose proof (Hall _ HM) as HMm.
  split; [byte_lia|]. split.
  - intros H0 p q Hp Hq.
    assert (Ip : In (channel p c) vs)
      by (subst vs; apply in_map with (f := fun p => channel p c), Hp).
    assert (Iq : In (channel q c) vs)
      by (subst vs; apply in_map with (f := fun p => channel p c), Hq).
    pose proof (Hall _ Ip). pose proof (Hall _ Iq). lia.
  - intro Hsame.
    subst vs. apply in_map_iff in HM, Hm.
    destruct HM as (p & Ep & Hp), Hm as (q & Eq & Hq).
    rewrite <- Ep, <- Eq, (Hsame p q Hp Hq). lia.
Qed.

Lemma getColorRange_bounds_witness :
  Forall validPixel [mkPixel 10 200 30 (17 # 20); mkPixel 250 200 30 (22 # 25)]
  /\ (0 <= getColorRange [mkPixel 10 200 30 (17 # 20); mkPixel 250 200 30 (22 # 25)]
             Red <= 255)%Z.
Proof.
  assert (Hv : Forall validPixel
                 [mkPixel 10 200 30 (17 # 20); mkPixel 250 200 30 (22 # 25)]).
  { repeat constructor; simpl; lia. }
  split; [exact Hv|].
  apply (proj2 (getColorRange_bounds _ Red Hv)). discriminate.
Defined.

(* ================================================================= *)
(** * More on the partition *)

(** X9: medianCut returns min(number of pixels, 2^depth) buckets for every
    pixel list: never more than 2^depth, never more than there are pixels,
    and none exactly for the empty list. *)
Theorem medianCut_bucket_count (pixels : list Pixel) (depth : nat) :
  List.length (medianCut pixels depth) = Nat.min (List.length pixels) (2 ^ depth)
  /\ (List.length (medianCut pixels depth) <= 2 ^ depth)%nat
  /\ (List.length (medianCut pixels depth) <= List.length pixels)%nat
  /\ (medianCut pixels depth = [] <-> pixels = []).
Proof.
  pose proof (medianCut_length pixels depth) as H.
  pose proof (Nat.pow_nonzero 2 depth ltac:(lia)) as Hp.
  split; [exact H|]. split; [lia|]. split; [lia|].
  split; intro E.
  - destruct pixels as [|p pixels]; [reflexivity|].
    rewrite E in H. change (List.length (p :: pixels)) with (S (List.length pixels)) in H.
    change (List.length (@nil Bucket)) with 0%nat in H. lia.
  - subst pixels. destruct depth; reflexivity.
Qed.

Lemma leafSets_balanced (pixels : list Pixel) (depth : nat) :
  Forall (fun part =>
            (2 ^ depth * List.length part <= List.length pixels + 2 ^ depth - 1
             /\ List.length pixels <= 2 ^ depth * List.length part + 2 ^ depth - 1)%nat)
    (leafSets pixels depth).
Proof.
  revert pixels. induction depth as [|depth IH]; intros pixels.
  - destruct pixels as [|p pixels]; constructor; [simpl; lia|constructor].
  - destruct pixels as [|p pixels]; [constructor|].
    rewrite leafSets_step by discriminate. cbv zeta.
    set (sorted := JS.sort (byChannel (chosenChannel (p :: pixels))) (p :: pixels)).
    set (n := List.length (p :: pixels)).
    assert (Hlen : List.length sorted = n) by apply JSFacts.sort_length.
    pose proof (Nat.div_mod_eq n 2) as Hd.
    pose proof (Nat.mod_upper_bound n 2 ltac:(lia)) as Hm.
    pose proof (Nat.pow_nonzero 2 depth ltac:(lia)) as Hp.
    rewrite Nat.pow_succ_r'.
    apply Forall_app. split.
    + eapply Forall_impl; [|apply IH]. intros part.
      rewrite length_firstn, Hlen. nia.
    + eapply Forall_impl; [|apply IH]. intros part.
      rewrite length_skipn, Hlen. nia.
Qed.

(** X10: the partition is balanced: for n pixels and depth d every bucket
    counts between floor(n / 2^d) and ceil(n / 2^d) pixels, so two buckets
    differ by at most one pixel. *)
Theorem medianCut_balanced (pixels : list Pixel) (depth : nat) :
  let n := Z.of_nat (List.length pixels) in
  Forall (fun bk => (n / 2 ^ Z.of_nat depth <= bk_count bk
                     <= (n + 2 ^ Z.of_nat depth - 1) / 2 ^ Z.of_nat depth)%Z)
    (medianCut pixels depth)
  /\ (forall a b, In a (medianCut pixels depth) -> In b (medianCut pixels depth) ->
                  (bk_count a <= bk_count b + 1)%Z).
Proof.
  intro n.
  assert (Hpow : (2 ^ Z.of_nat depth = Z.of_nat (2 ^ depth))%Z).
  { rewrite Nat2Z.inj_pow. reflexivity. }
  pose proof (Nat.pow_nonzero 2 depth ltac:(lia)) as Hp.
  assert (Hall : Forall (fun bk =>
                   (Z.of_nat (2 ^ depth) * bk_count bk <= n + Z.of_nat (2 ^ depth) - 1
                    /\ n <= Z.of_nat (2 ^ depth) * bk_count bk + Z.of_nat (2 ^ depth) - 1)%Z)
                  (medianCut pixels depth)).
  { rewrite medianCut_leafSets. apply Forall_map.
    eapply Forall_impl; [|apply leafSets_balanced].
    intros part [H1 H2]. rewrite averageBucket_count. subst n. nia. }
  split.
  - eapply Forall_impl; [|exact Hall]. intros bk [H1 H2]. rewrite Hpow. split.
    + apply Z.lt_succ_r, Z.div_lt_upper_bound; lia.
    + apply Z.div_le_lower_bound; lia.
  - rewrite Forall_forall in Hall. intros a b Ha Hb.
    destruct (Hall a Ha) as [Ha1 Ha2], (Hall b Hb) as [Hb1 Hb2]. nia.
Qed.

(** ** Where a bucket lies *)

Lemma averageBucket_channel (pixels : list Pixel) (c : Channel) :
  pixels <> [] ->
  let n := Z.of_nat (List.length pixels) in
  bucketChannel (averageBucket pixels) c
  = ((2 * sumZ (map (fun p => channel p c) pixels) + n) / (2 * n))%Z.
Proof.
  intros Hne n. destruct (averageBucket_rgb pixels Hne) as (Hr & Hg & Hb).
  destruct c; simpl bucketChannel; assumption.
Qed.

Lemma sumZ_le (f : Pixel -> Z) (hi : Z) (pixels : list Pixel) :
  Forall (fun p => (f p <= hi)%Z) pixels ->
  (sumZ (map f pixels) <= hi * Z.of_nat (List.length pixels))%Z.
Proof.
  induction 1 as [|p pixels Hp _ IH]; [simpl; lia|].
  simpl map. simpl List.length. unfold sumZ in *. simpl fold_right. lia.
Qed.

Lemma sumZ_ge (f : Pixel -> Z) (lo : Z) (pixels : list Pixel) :
  Forall (fun p => (lo <= f p)%Z) pixels ->
  (lo * Z.of_nat (List.length pixels) <= sumZ (map f pixels))%Z.
Proof.
  induction 1 as [|p pixels Hp _ IH]; [simpl; lia|].
  simpl map. simpl List.length. unfold sumZ in *. simpl fold_right. lia.
Qed.

Lemma positive_length (pixels : list Pixel) :
  pixels <> [] -> (0 < Z.of_nat (List.length pixels))%Z.
Proof.
  destruct pixels; [congruence|]. intros _. simpl List.length. lia.
Qed.

Lemma averageBucket_le (pixels : list Pixel) (c : Channel) (hi : Z) :
  pixels <> [] ->
  Forall (fun p => (channel p c <= hi)%Z) pixels ->
  (bucketChannel (averageBucket pixels) c <= hi)%Z.
Proof.
  intros Hne H. rewrite averageBucket_channel by exact Hne.
  pose proof (positive_length pixels Hne) as Hn.
  pose proof (sumZ_le (fun p => channel p c) hi pixels H) as Hs.
  apply Z.lt_succ_r, Z.div_lt_upper_bound; lia.
Qed.

Lemma averageBucket_ge (pixels : list Pixel) (c : Channel) (lo : Z) :
  pixels <> [] ->
  Forall (fun p => (lo <= channel p c)%Z) pixels ->
  (lo <= bucketChannel (averageBucket pixels) c)%Z.
Proof.
  intros Hne H. rewrite averageBucket_channel by exact Hne.
  pose proof (positive_length pixels Hne) as Hn.
  pose proof (sumZ_ge (fun p => channel p c) lo pixels H) as Hs.
  apply Z.div_le_lower_bound; lia.
Qed.

(** A property of the buckets that holds for the average of every non-empty
    set of pixels with [P] holds for every bucket. *)
Lemma medianCut_leafwise (P : Pixel -> Prop) (Q : Bucket -> Prop)
  (pixels : list Pixel) (depth : nat) :
  (forall part, part <> [] -> Forall P part -> Q (averageBucket part)) ->
  Forall P pixels -> Forall Q (medianCut pixels depth).
Proof.
  intros Hleaf H. rewrite medianCut_leafSets. apply Forall_map.
  pose proof (leafSets_nonempty pixels depth) as Hne.
  pose proof (leafSets_Forall P pixels depth H) as Hall.
  rewrite Forall_forall in *. intros part Hin.
  apply Hleaf; [apply Hne|apply Hall]; exact Hin.
Qed.

Lemma medianCut_le (pixels : list Pixel) (depth : nat) (c : Channel) (hi : Z) :
  Forall (fun p => (channel p c <= hi)%Z) pixels ->
  Forall (fun bk => (bucketChannel bk c <= hi)%Z) (medianCut pixels depth).
Proof.
  apply medianCut_leafwise. intros part Hne H. apply averageBucket_le; assumption.
Qed.

Lemma medianCut_ge (pixels : list Pixel) (depth : nat) (c : Channel) (lo : Z) :
  Forall (fun p => (lo <= channel p c)%Z) pixels ->
  Forall (fun bk => (lo <= bucketChannel bk c)%Z) (medianCut pixels depth).
Proof.
  apply medianCut_leafwise. intros part Hne H. apply averageBucket_ge; assumption.
Qed.

(** X11: averaging never leaves the box of the input: on every channel,
    every bucket of medianCut lies between the least and the greatest value
    of the pixels, and between any two bounds that hold for all pixels. *)
Theorem medianCut_between (pixels : list Pixel) (depth : nat) (c : Channel) :
  pixels <> [] ->
  let values := map (fun p => channel p c) pixels in
  Forall (fun bk => (least values <= bucketChannel bk c <= greatest values)%Z)
    (medianCut pixels depth)
  /\ (forall lo hi,
         Forall (fun p => (lo <= channel p c <= hi)%Z) pixels ->
         Forall (fun bk => (lo <= bucketChannel bk c <= hi)%Z) (medianCut pixels depth)).
Proof.
  intros Hne values.
  assert (Hgen : forall lo hi,
             Forall (fun p => (lo <= channel p c <= hi)%Z) pixels ->
             Forall (fun bk => (lo <= bucketChannel bk c <= hi)%Z)
               (medianCut pixels depth)).
  { intros lo hi H.
    assert (Hlo : Forall (fun bk => (lo <= bucketChannel bk c)%Z) (medianCut pixels depth)).
    { apply medianCut_ge. eapply Forall_impl; [|exact H]. simpl. intros. lia. }
    assert (Hhi : Forall (fun bk => (bucketChannel bk c <= hi)%Z) (medianCut pixels depth)).
    { apply medianCut_le. eapply Forall_impl; [|exact H]. simpl. intros. lia. }
    rewrite Forall_forall in *. intros bk Hin. split; [apply Hlo|apply Hhi]; exact Hin. }
  split; [|exact Hgen].
  apply Hgen.
  assert (Hv : values <> []).
  { subst values. destruct pixels; [congruence|discriminate]. }
  destruct (greatest_least_spec values Hv) as (_ & _ & Hall).
  subst values. rewrite Forall_map in Hall. exact Hall.
Qed.

Lemma medianCut_between_witness :
  Forall (fun bk => (10 <= bucketChannel bk Red <= 200)%Z)
    (medianCut [mkPixel 10 20 30 0; mkPixel 200 20 30 0; mkPixel 90 0 0 0] 1).
Proof.
  exact (proj1 (medianCut_between
                  [mkPixel 10 20 30 0; mkPixel 200 20 30 0; mkPixel 90 0 0 0] 1 Red
                  ltac:(discriminate))).
Defined.

Lemma sorted_app_cross {A : Type} (R : A -> A -> Prop) (l1 l2 : list A) :
  StronglySorted R (l1 ++ l2) ->
  forall x y, In x l1 -> In y l2 -> R x y.
Proof.
  induction l1 as [|a l1 IH]; intros Hs x y Hx Hy; [destruct Hx|].
  simpl in Hs. apply StronglySorted_inv in Hs. destruct Hs as [Hs Ha].
  destruct Hx as [<-|Hx].
  - rewrite Forall_forall in Ha. apply Ha, in_or_app. right. exact Hy.
  - apply IH; assumption.
Qed.

(** X12: the recursive step of medianCut separates the buckets along the
    channel it sorts by: every pixel of the lower half is at most every
    pixel of the upper half on that channel, and so is every bucket made of
    the lower half against every bucket made of the upper half. *)
Theorem medianCut_halves_ordered (pixels : list Pixel) (depth : nat) :
  pixels <> [] ->
  let c := chosenChannel pixels in
  let sorted := JS.sort (byChannel c) pixels in
  let mid := (List.length pixels / 2)%nat in
  medianCut pixels (S depth)
  = medianCut (firstn mid sorted) depth ++ medianCut (skipn mid sorted) depth
  /\ (forall p q, In p (firstn mid sorted) -> In q (skipn mid sorted) ->
                  (channel p c <= channel q c)%Z)
  /\ (forall a b,
         In a (medianCut (firstn mid sorted) depth) ->
         In b (medianCut (skipn mid sorted) depth) ->
         (bucketChannel a c <= bucketChannel b c)%Z).
Proof.
  intros Hne c sorted mid.
  assert (Hcross : forall p q, In p (firstn mid sorted) -> In q (skipn mid sorted) ->
                               (channel p c <= channel q c)%Z).
  { apply (sorted_app_cross (fun a b => (channel a c <= channel b c)%Z)).
    rewrite firstn_skipn. apply sort_byChannel_sorted. }
  split; [|split; [exact Hcross|]].
  - rewrite medianCut_step by exact Hne. reflexivity.
  - intros a b Ha Hb.
    destruct (firstn mid sorted) as [|p0 lower] eqn:El.
    { destruct depth; destruct Ha. }
    set (values := map (fun p => channel p c) (p0 :: lower)).
    assert (Hv : values <> []) by discriminate.
    destruct (greatest_least_spec values Hv) as (Hin & _ & Hall).
    apply in_map_iff in Hin. destruct Hin as (pm & Hpm & Hpin).
    subst values. rewrite Forall_map in Hall.
    assert (H1 : (bucketChannel a c <= channel pm c)%Z).
    { assert (H : Forall (fun bk => (bucketChannel bk c <= channel pm c)%Z)
                    (medianCut (p0 :: lower) depth)).
      { apply medianCut_le. rewrite Forall_forall in *.
        intros x Hx. rewrite Hpm. apply Hall, Hx. }
      rewrite Forall_forall in H. apply H, Ha. }
    assert (H2 : (channel pm c <= bucketChannel b c)%Z).
    { assert (H : Forall (fun bk => (channel pm c <= bucketChannel bk c)%Z)
                    (medianCut (skipn mid sorted) depth)).
      { apply medianCut_ge. rewrite Forall_forall.
        intros x Hx. apply Hcross; assumption. }
      rewrite Forall_forall in H. apply H, Hb. }
    lia.
Qed.

Lemma medianCut_halves_ordered_witness :
  (bucketChannel (averageBucket [mkPixel 10 20 30 0; mkPixel 40 0 0 0]) Red
   <= bucketChannel (averageBucket [mkPixel 90 0 0 0; mkPixel 200 20 30 0]) Red)%Z.
Proof.
  apply (proj2 (proj2 (medianCut_halves_ordered
                         [mkPixel 200 20 30 0; mkPixel 10 20 30 0; mkPixel 90 0 0 0;
                          mkPixel 40 0 0 0] 0 ltac:(discriminate))));
    left; reflexivity.
Defined.

(* ================================================================= *)
(** * More on the ranking *)

Lemma sorted_firstn {A : Type} (R : A -> A -> Prop) (n : nat) (l : list A) :
  StronglySorted R l -> StronglySorted R (firstn n l).
Proof.
  intro H. revert n. induction H as [|x l Hs IH Hall]; intro n.
  - rewrite firstn_nil. constructor.
  - destruct n as [|n]; [constructor|].
    simpl firstn. constructor; [apply IH|].
    rewrite <- (firstn_skipn n l) in Hall. apply Forall_app in Hall. apply Hall.
Qed.

Lemma ordered_firstn {A : Type} (R : A -> A -> Prop) (n : nat) (l : list A) :
  Sorted R l -> Sorted R (firstn n l).
Proof.
  intro H. revert n. induction H as [|x l Hs IH Hx]; intro n.
  - rewrite firstn_nil. constructor.
  - destruct n as [|n]; [constructor|].
    simpl firstn. constructor; [apply IH|].
    destruct Hx as [|y l' Hxy]; [rewrite firstn_nil; constructor|].
    destruct n; constructor. exact Hxy.
Qed.

Lemma ordered_byScore_fixed (colors : list Bucket) :
  Sorted (fun a b => (score a <? score b)%float = false) colors ->
  JS.sort byScore colors = colors.
Proof.
  exact (JSFacts.sort_fixed byScore (fun a b => (score a <? score b)%float)
           byScore_past colors).
Qed.

(** X14: for a count that is not negative and buckets whose scores are
    numbers (none is NaN), ranking loses nothing but the tail: the kept and
    the dropped buckets together are a permutation of the input, every kept
    bucket scores at least as high as every dropped one, the first kept
    bucket scores highest of all, and with a count of at least the number
    of buckets all of them are kept. *)
Theorem rank_keeps_best (colors : list Bucket) (colorCount : Z) :
  (0 <= colorCount)%Z ->
  Forall (fun c => PrimFloat.is_nan (score c) = false) colors ->
  let dropped := skipn (Z.to_nat colorCount) (JS.sort byScore colors) in
  Permutation (rank colors colorCount ++ dropped) colors
  /\ (forall a b, In a (rank colors colorCount) -> In b dropped ->
                  (score b <=? score a)%float = true)
  /\ (forall first rest b,
         rank colors colorCount = first :: rest -> In b colors ->
         (score b <=? score first)%float = true)
  /\ ((Z.of_nat (List.length colors) <= colorCount)%Z ->
      Permutation (rank colors colorCount) colors).
Proof.
  intros Hc Hnum dropped. unfold rank, JS.slice_to. subst dropped.
  pose proof (sort_byScore_sorted colors Hnum) as Hsorted.
  pose proof (JSFacts.sort_Forall byScore _ colors Hnum) as Hnums.
  set (ranked := JS.sort byScore colors) in *.
  set (n := Z.to_nat colorCount).
  assert (Hperm : Permutation ranked colors) by apply JSFacts.sort_perm.
  split; [rewrite firstn_skipn; exact Hperm|].
  split.
  { apply (sorted_app_cross (fun a b => (score b <=? score a)%float = true)).
    rewrite firstn_skipn. exact Hsorted. }
  split.
  - intros first rest b E Hb.
    apply (Permutation_in b (Permutation_sym Hperm)) in Hb.
    destruct ranked as [|x ranked']; [rewrite firstn_nil in E; discriminate|].
    destruct n as [|n']; [discriminate|].
    simpl in E. injection E as <- _.
    apply StronglySorted_inv in Hsorted. destruct Hsorted as [_ Hall].
    destruct Hb as [<-|Hb].
    + inversion Hnums as [|? ? Nx _]; subst.
      rewrite leb_ord by exact Nx. apply Z.leb_refl.
    + rewrite Forall_forall in Hall. apply Hall, Hb.
  - intro Hlen. rewrite firstn_all2; [exact Hperm|].
    subst ranked. rewrite JSFacts.sort_length. subst n. lia.
Qed.

Lemma rank_keeps_best_witness :
  (0 <= 1)%Z
  /\ Forall (fun c => PrimFloat.is_nan (score c) = false)
       [mkBucket 1 2 3 0.5 4; mkBucket 9 9 9 0 9]
  /\ (score (mkBucket 1 2 3 0.5 4) <=? score (mkBucket 9 9 9 0 9))%float = true.
Proof.
  assert (H0 : (0 <= 1)%Z) by lia.
  assert (Hnum : Forall (fun c => PrimFloat.is_nan (score c) = false)
                   [mkBucket 1 2 3 0.5 4; mkBucket 9 9 9 0 9])
    by (repeat constructor).
  split; [exact H0|]. split; [exact Hnum|].
  apply (proj1 (proj2 (proj2 (rank_keeps_best
                                [mkBucket 1 2 3 0.5 4; mkBucket 9 9 9 0 9] 1
                                H0 Hnum)))
           (mkBucket 9 9 9 0 9) [] (mkBucket 1 2 3 0.5 4)).
  - reflexivity.
  - left. reflexivity.
Defined.

(** X15: ranking a ranked list again changes nothing, and ranking it with a
    smaller count gives what ranking the original list with that count
    gives. *)
Theorem rank_idempotent (colors : list Bucket) (colorCount : Z) :
  (0 <= colorCount)%Z ->
  rank (rank colors colorCount) colorCount = rank colors colorCount
  /\ (forall smaller, (0 <= smaller <= colorCount)%Z ->
        rank (rank colors colorCount) smaller = rank colors smaller).
Proof.
  intro Hc.
  assert (Hgen : forall smaller, (0 <= smaller <= colorCount)%Z ->
                   rank (rank colors colorCount) smaller = rank colors smaller).
  { intros smaller Hs. unfold rank, JS.slice_to.
    rewrite ordered_byScore_fixed by apply ordered_firstn, sort_byScore_ordered.
    rewrite firstn_firstn. f_equal. lia. }
  split; [apply Hgen; lia|exact Hgen].
Qed.

Lemma rank_idempotent_witness :
  rank (rank [mkBucket 1 2 3 0.5 4; mkBucket 9 9 9 0 9] 1) 1
  = rank [mkBucket 1 2 3 0.5 4; mkBucket 9 9 9 0 9] 1.
Proof.
  exact (proj1 (rank_idempotent [mkBucket 1 2 3 0.5 4; mkBucket 9 9 9 0 9] 1
                  ltac:(lia))).
Defined.

(* ================================================================= *)
(** * The depth of the partition *)

(** X16: for a requested count c from 1 to 2^32, where the double
    logarithm has the exact ceiling, the depth ceil(log2 c) + 2 is a natural
    number from 2 to 34 with 4c <= 2^depth < 8c, and it does not decrease
    when c grows within that range. *)
Theorem depthFor_bounds (colorCount : Z) :
  (1 <= colorCount <= maxColorCount)%Z ->
  exists depth,
    depthFor colorCount = Some depth
    /\ (2 <= depth <= 34)%nat
    /\ (4 * colorCount <= 2 ^ Z.of_nat depth < 8 * colorCount)%Z
    /\ (forall larger depth',
           (colorCount <= larger <= maxColorCount)%Z ->
           depthFor larger = Some depth' ->
           (depth <= depth')%nat).
Proof.
  intros [Hc Hmax]. unfold depthFor.
  assert (Hup : (Z.log2_up colorCount <= 32)%Z).
  { change 32%Z with (Z.log2_up maxColorCount).
    apply Z.log2_up_le_mono, Hmax. }
  destruct (Z.leb_spec 1 colorCount) as [_|]; [|lia].
  pose proof (Z.log2_up_nonneg colorCount) as Hl.
  exists (Z.to_nat (Z.log2_up colorCount + 2)).
  split; [reflexivity|]. split; [lia|]. split.
  - rewrite Z2Nat.id by lia. rewrite Z.pow_add_r by lia.
    change (2 ^ 2)%Z with 4%Z.
    destruct (Z.eq_dec colorCount 1) as [->|Hne]; [simpl; lia|].
    destruct (Z.log2_up_spec colorCount ltac:(lia)) as [Hlo Hhi].
    assert (E : (2 ^ Z.log2_up colorCount = 2 * 2 ^ Z.pred (Z.log2_up colorCount))%Z).
    { rewrite <- Z.pow_succ_r.
      - rewrite Z.succ_pred. reflexivity.
      - pose proof (Z.log2_up_pos colorCount ltac:(lia)). lia. }
    lia.
  - intros larger depth' [Hle _].
    destruct (Z.leb_spec 1 larger) as [_|]; [|lia].
    intro E. injection E as <-.
    pose proof (Z.log2_up_le_mono colorCount larger Hle). lia.
Qed.

Lemma depthFor_bounds_witness :
  (1 <= 6 <= maxColorCount)%Z
  /\ exists depth,
       depthFor 6 = Some depth
       /\ (2 <= depth <= 34)%nat
       /\ (4 * 6 <= 2 ^ Z.of_nat depth < 8 * 6)%Z
       /\ (forall larger depth',
              (6 <= larger <= maxColorCount)%Z ->
              depthFor larger = Some depth' ->
              (depth <= depth')%nat).
Proof.
  assert (H : (1 <= 6 <= maxColorCount)%Z) by (unfold maxColorCount; lia).
  split; [exact H|]. apply (depthFor_bounds 6 H).
Defined.

(* ================================================================= *)
(** * More on the pipeline *)

(** X17: for two requested counts with the same depth (5 to 8, or 9 to 12,
    for instance), the palette of the smaller count is the first entries of
    the palette of the larger count. *)
Theorem extractColors_prefix (data : list Z) (fewer more : Z)
  (palette : list PaletteEntry) :
  (1 <= fewer <= more)%Z ->
  depthFor fewer = depthFor more ->
  extractColors (Loaded data) (Some more) = Resolved palette ->
  extractColors (Loaded data) (Some fewer)
  = Resolved (firstn (Z.to_nat fewer) palette).
Proof.
  intros Hc Hd H.
  assert (Hne : data <> []) by (intros ->; simpl in H; discriminate H).
  unfold extractColors in *.
  rewrite (onload_canvas data more Hne) in H.
  rewrite (onload_canvas data fewer Hne), Hd.
  destruct (List.length (getPixels data) =? 0)%nat; [discriminate H|].
  destruct (depthFor more) as [depth|]; [|discriminate H].
  injection H as <-. f_equal.
  unfold rank, JS.slice_to. rewrite firstn_map, firstn_firstn.
  f_equal. f_equal. lia.
Qed.

Lemma extractColors_prefix_witness :
  extractColors (Loaded [200; 30; 30; 255; 10; 90; 30; 255]%Z) (Some 5%Z)
  = Resolved
      (firstn 5
         (map paletteEntry
            (rank (medianCut (getPixels [200; 30; 30; 255; 10; 90; 30; 255]%Z) 5) 8))).
Proof.
  apply (extractColors_prefix [200; 30; 30; 255; 10; 90; 30; 255]%Z 5 8).
  - lia.
  - reflexivity.
  - reflexivity.
Defined.

(** X18: on an image of bytes, every entry of a resolved palette carries the
    HSL triple and the contrast colour of its own r, g, b, with hue in [0,
    360], saturation and lightness in [0, 100] and the contrast colour black
    or white, and its rgb and hsl strings are printed from these numbers. *)
Theorem palette_entries_derived (data : list Z) (colorCount : option Z)
  (palette : list PaletteEntry) :
  Forall byte data ->
  extractColors (Loaded data) colorCount = Resolved palette ->
  Forall (fun e =>
            pe_hsl e = rgbToHsl (pe_r e) (pe_g e) (pe_b e)
            /\ (0 <= hsl_h (pe_hsl e) <= 360)%Z
            /\ (0 <= hsl_s (pe_hsl e) <= 100)%Z
            /\ (0 <= hsl_l (pe_hsl e) <= 100)%Z
            /\ pe_contrast e = getContrastColor (pe_r e) (pe_g e) (pe_b e)
            /\ (pe_contrast e = black \/ pe_contrast e = white)
            /\ pe_rgb e
               = ("rgb(" ++ JS.toString10 (pe_r e) ++ ", "
                   ++ JS.toString10 (pe_g e) ++ ", "
                   ++ JS.toString10 (pe_b e) ++ ")")%string
            /\ pe_hslString e
               = ("hsl(" ++ JS.toString10 (hsl_h (pe_hsl e)) ++ ", "
                   ++ JS.toString10 (hsl_s (pe_hsl e)) ++ "%, "
                   ++ JS.toString10 (hsl_l (pe_hsl e)) ++ "%)")%string)
    palette.
Proof.
  intros Hd Hres.
  apply extractColors_resolved in Hres.
  destruct Hres as (_ & _ & depth & _ & ->). apply Forall_map.
  eapply Forall_impl;
    [|apply rank_Forall, medianCut_valid, getPixels_valid, Hd].
  intros bk (Hr & Hg & Hb). cbn [paletteEntry pe_hsl pe_r pe_g pe_b pe_contrast
                                   pe_rgb pe_hslString].
  cbv zeta. cbn [pe_hsl pe_r pe_g pe_b pe_contrast pe_rgb pe_hslString].
  pose proof (hslInRange_bytes _ _ _ Hr Hg Hb) as H.
  unfold hslInRange in H.
  assert (Hrange : (0 <= hsl_h (rgbToHsl (bk_r bk) (bk_g bk) (bk_b bk)) <= 360)%Z
                   /\ (0 <= hsl_s (rgbToHsl (bk_r bk) (bk_g bk) (bk_b bk)) <= 100)%Z
                   /\ (0 <= hsl_l (rgbToHsl (bk_r bk) (bk_g bk) (bk_b bk)) <= 100)%Z).
  { unfold rgbToHsl, hslFractions. cbv zeta.
    destruct (hslOfUnit _ _ _) as [[h s] l]. cbn [hsl_h hsl_s hsl_l].
    rewrite !andb_true_iff in H. destruct H as ((Hh & Hs) & Hl).
    split; [apply rounds_within_360, Hh|].
    split; [apply rounds_within_100, Hs|apply rounds_within_100, Hl]. }
  destruct Hrange as (Bh & Bs & Bl).
  split; [reflexivity|]. split; [exact Bh|]. split; [exact Bs|]. split; [exact Bl|].
  split; [reflexivity|]. split; [|split; reflexivity].
  unfold getContrastColor. destruct (0.5 <? luminance _ _ _)%float; [left|right]; reflexivity.
Qed.

Lemma palette_entries_derived_witness :
  Forall (fun e => pe_contrast e = black \/ pe_contrast e = white)
    (map paletteEntry (rank (medianCut (getPixels [200; 30; 30; 255]%Z) 5) 6)).
Proof.
  eapply Forall_impl;
    [|apply (palette_entries_derived [200; 30; 30; 255]%Z None);
      [repeat constructor; byte_lia|reflexivity]].
  intros e H. apply H.
Defined.

(* ================================================================= *)
(** * More on rgbToHex *)

Lemma hexDigit_inj (d e : Z) :
  (0 <= d < 16)%Z -> (0 <= e < 16)%Z -> hexDigit d = hexDigit e -> d = e.
Proof.
  intros Hd He H.
  assert (Hall : forallb (fun d => forallb (fun e =>
             implb (Ascii.eqb (hexDigit d) (hexDigit e)) (d =? e)%Z)
             (map Z.of_nat (seq 0 16))) (map Z.of_nat (seq 0 16)) = true)
    by (vm_compute; reflexivity).
  assert (In16 : forall x, (0 <= x < 16)%Z -> In x (map Z.of_nat (seq 0 16))).
  { intros x Hx. rewrite <- (Z2Nat.id x (proj1 Hx)). apply in_map, in_seq. lia. }
  rewrite forallb_forall in Hall. specialize (Hall d (In16 d Hd)).
  rewrite forallb_forall in Hall. specialize (Hall e (In16 e He)).
  rewrite H, Ascii.eqb_refl in Hall. simpl in Hall. apply Z.eqb_eq, Hall.
Qed.

Lemma twoHexDigits_inj (x y : Z) :
  byte x -> byte y -> twoHexDigits x = twoHexDigits y -> x = y.
Proof.
  unfold byte, twoHexDigits. intros Hx Hy H. injection H as Hhi Hlo.
  apply hexDigit_inj in Hhi;
    [|split; [apply Z.div_pos; lia|apply Z.div_lt_upper_bound; lia]..].
  apply hexDigit_inj in Hlo; [|apply Z.mod_pos_bound; lia..].
  rewrite (Z.div_mod x 16), (Z.div_mod y 16) by lia. congruence.
Qed.

(** X19: on bytes rgbToHex is injective: two colours have the same string
    exactly when they are the same colour. *)
Theorem rgbToHex_injective (r g b r' g' b' : Z) :
  byte r -> byte g -> byte b -> byte r' -> byte g' -> byte b' ->
  (rgbToHex r g b = rgbToHex r' g' b' <-> r = r' /\ g = g' /\ b = b').
Proof.
  intros Hr Hg Hb Hr' Hg' Hb'.
  split; [|intros (-> & -> & ->); reflexivity].
  rewrite !rgbToHex_digits by assumption.
  intro H.
  assert (E : twoHexDigits r = twoHexDigits r' /\ twoHexDigits g = twoHexDigits g'
              /\ twoHexDigits b = twoHexDigits b').
  { unfold twoHexDigits in *. simpl in H. injection H as -> -> -> -> -> ->. auto. }
  destruct E as (Er & Eg & Eb).
  split; [|split]; apply twoHexDigits_inj; assumption.
Qed.

Lemma rgbToHex_injective_witness :
  byte 255 /\ byte 0 /\ byte 10 /\ byte 11
  /\ rgbToHex 255 0 10 <> rgbToHex 255 0 11.
Proof.
  assert (H255 : byte 255) by byte_lia.
  assert (H0 : byte 0) by byte_lia.
  assert (H10 : byte 10) by byte_lia.
  assert (H11 : byte 11) by byte_lia.
  split; [exact H255|]. split; [exact H0|]. split; [exact H10|]. split; [exact H11|].
  intro H.
  apply (rgbToHex_injective 255 0 10 255 0 11 H255 H0 H10 H255 H0 H11) in H.
  lia.
Defined.

(** Outside the bytes two colours can share a string. *)
Example rgbToHex_collision : rgbToHex 273 1 1 = rgbToHex 17 16 257.
Proof. vm_compute. reflexivity. Qed.

(* ================================================================= *)
(** * The caller *)

Lemma in_sixteen (x : Z) : (0 <= x < 16)%Z -> In x (map Z.of_nat (seq 0 16)).
Proof.
  intro Hx. rewrite <- (Z2Nat.id x (proj1 Hx)). apply in_map, in_seq. lia.
Qed.

Lemma upper_hexDigit (d : Z) :
  (0 <= d < 16)%Z -> isUpperHex (upperChar (hexDigit d)) = true.
Proof.
  intro Hd. apply in_sixteen in Hd. revert d Hd. apply Forall_forall.
  simpl. repeat constructor.
Qed.

Lemma upper_hexDigit_inj (d e : Z) :
  (0 <= d < 16)%Z -> (0 <= e < 16)%Z ->
  upperChar (hexDigit d) = upperChar (hexDigit e) -> d = e.
Proof.
  intros Hd He H.
  assert (Hall : forallb (fun d => forallb (fun e =>
             implb (Ascii.eqb (upperChar (hexDigit d)) (upperChar (hexDigit e)))
               (d =? e)%Z)
             (map Z.of_nat (seq 0 16))) (map Z.of_nat (seq 0 16)) = true)
    by (vm_compute; reflexivity).
  rewrite forallb_forall in Hall. specialize (Hall d (in_sixteen d Hd)).
  rewrite forallb_forall in Hall. specialize (Hall e (in_sixteen e He)).
  rewrite H, Ascii.eqb_refl in Hall. simpl in Hall. apply Z.eqb_eq, Hall.
Qed.

Lemma nibbles (x : Z) : byte x -> (0 <= x / 16 < 16)%Z /\ (0 <= x mod 16 < 16)%Z.
Proof.
  unfold byte. intro Hx. split.
  - split; [apply Z.div_pos; lia|apply Z.div_lt_upper_bound; lia].
  - apply Z.mod_pos_bound. lia.
Qed.

Lemma nibbles_inj (x y : Z) :
  byte x -> byte y ->
  upperChar (hexDigit (x / 16)) = upperChar (hexDigit (y / 16)) ->
  upperChar (hexDigit (x mod 16)) = upperChar (hexDigit (y mod 16)) ->
  x = y.
Proof.
  intros Hx Hy Hhi Hlo.
  destruct (nibbles x Hx) as [Hx1 Hx2], (nibbles y Hy) as [Hy1 Hy2].
  apply upper_hexDigit_inj in Hhi; [|assumption..].
  apply upper_hexDigit_inj in Hlo; [|assumption..].
  rewrite (Z.div_mod x 16), (Z.div_mod y 16) by lia. congruence.
Qed.

(** X20: for every format other than 'rgb' and 'hsl', getColorValue of a
    palette colour with byte channels is its hex string in upper case, the
    same as for the format 'hex'; it matches #[0-9A-F]{6}, and two colours
    with the same value are the same colour. *)
Theorem getColorValue_hex (colorFormat : string) (color other : Bucket) :
  byte (bk_r color) -> byte (bk_g color) -> byte (bk_b color) ->
  byte (bk_r other) -> byte (bk_g other) -> byte (bk_b other) ->
  colorFormat <> "rgb"%string -> colorFormat <> "hsl"%string ->
  let value := getColorValue colorFormat (paletteEntry color) in
  value = getColorValue "hex" (paletteEntry color)
  /\ value = toUpperCase (rgbToHex (bk_r color) (bk_g color) (bk_b color))
  /\ matchesUpperHexColor value = true
  /\ (getColorValue colorFormat (paletteEntry other) = value ->
      bk_r other = bk_r color /\ bk_g other = bk_g color /\ bk_b other = bk_b color).
Proof.
  intros Hr Hg Hb Hr' Hg' Hb' Hrgb Hhsl value.
  assert (Hv : forall bk, getColorValue colorFormat (paletteEntry bk)
                          = toUpperCase (rgbToHex (bk_r bk) (bk_g bk) (bk_b bk))).
  { intro bk. unfold getColorValue.
    destruct (String.eqb_spec colorFormat "rgb"); [contradiction|].
    destruct (String.eqb_spec colorFormat "hsl"); [contradiction|]. reflexivity. }
  subst value. rewrite !Hv.
  split; [reflexivity|]. split; [reflexivity|].
  rewrite !rgbToHex_digits by assumption.
  destruct (nibbles _ Hr) as [Hr1 Hr2], (nibbles _ Hg) as [Hg1 Hg2],
    (nibbles _ Hb) as [Hb1 Hb2].
  split.
  - unfold twoHexDigits. simpl. rewrite !upper_hexDigit by assumption. reflexivity.
  - intro H. unfold twoHexDigits in H. simpl in H.
    injection H as H1 H2 H3 H4 H5 H6.
    split; [|split]; apply nibbles_inj; assumption.
Qed.

Lemma getColorValue_hex_witness :
  matchesUpperHexColor (getColorValue "hex" (paletteEntry (mkBucket 255 0 10 0 1)))
  = true.
Proof.
  apply (getColorValue_hex "hex" (mkBucket 255 0 10 0 1) (mkBucket 255 0 10 0 1));
    try (cbn; byte_lia); discriminate.
Defined.

(** X21: with a colour count from 1 to 2^32 (the slider gives 3 to 12) and
    an image whose canvas has at least one pixel, extractPalette settles and
    clears the busy flag: either the promise resolved, the error is empty
    and the colours are the resolved palette, not empty and not longer than
    the count; or the promise rejected, the colours are untouched and the
    error is one of the two messages of extractColors, never the fallback
    text.  On a canvas without pixels the promise stays pending: the busy
    flag stays set, the error stays empty and the colours are untouched. *)
Theorem extractPalette_settles (image : ImageLoad) (st : AppState) :
  (1 <= st_colorCount st <= maxColorCount)%Z ->
  let st' := extractPalette image st in
  st_colorCount st' = st_colorCount st
  /\ (image <> Loaded [] ->
      st_isExtracting st' = false
      /\ ((st_error st' = ""%string
           /\ extractColors image (Some (st_colorCount st))
              = Resolved (st_colors st')
           /\ st_colors st' <> []
           /\ (Z.of_nat (List.length (st_colors st')) <= st_colorCount st)%Z)
          \/ (st_colors st' = st_colors st
              /\ extractColors image (Some (st_colorCount st))
                 = Rejected (st_error st')
              /\ (st_error st' = NoValidPixels
                  \/ st_error st' = ImageDecodeFailed))))
  /\ (image = Loaded [] ->
      extractColors image (Some (st_colorCount st)) = Pending
      /\ st_isExtracting st' = true
      /\ st_error st' = ""%string
      /\ st_colors st' = st_colors st).
Proof.
  intros [Hc _] st'. subst st'. unfold extractPalette. cbn [st_colorCount st_colors
    st_isExtracting st_error].
  destruct image as [|data].
  - cbn [extractColors st_colorCount st_colors st_isExtracting st_error].
    split; [reflexivity|]. split; [|discriminate].
    intros _. split; [reflexivity|]. right.
    split; [reflexivity|]. split; [reflexivity|]. right. reflexivity.
  - cbn [extractColors].
    destruct data as [|x data].
    { cbn [onload st_colorCount st_colors st_isExtracting st_error].
      split; [reflexivity|]. split; [congruence|].
      intros _. repeat split. }
    assert (Hne : x :: data <> []) by discriminate.
    remember (x :: data) as canvas eqn:Ecanvas.
    assert (Hnot : Loaded canvas <> Loaded []) by congruence.
    destruct (getPixels canvas) as [|p pixels] eqn:E.
    + rewrite (onload_rejects canvas _ Hne E).
      cbn [st_colorCount st_colors st_isExtracting st_error].
      split; [reflexivity|]. split; [|congruence].
      intros _. split; [reflexivity|]. right.
      split; [reflexivity|]. split; [reflexivity|]. left. reflexivity.
    + destruct (onload_resolves canvas (st_colorCount st) Hc)
        as (depth & _ & -> & Hlen).
      { rewrite E. discriminate. }
      cbn [st_colorCount st_colors st_isExtracting st_error].
      split; [reflexivity|]. split; [|congruence].
      intros _. split; [reflexivity|]. left.
      split; [reflexivity|]. split; [reflexivity|].
      split.
      * intro H. apply (f_equal (@List.length _)) in H.
        rewrite length_map, Hlen, E in H. simpl in H. lia.
      * rewrite length_map, Hlen. lia.
Qed.

Lemma extractPalette_settles_witness :
  (1 <= 6 <= maxColorCount)%Z
  /\ Loaded [200; 30; 30; 255]%Z <> Loaded []
  /\ st_isExtracting
       (extractPalette (Loaded [200; 30; 30; 255]%Z) (mkAppState [] false "" 6))
     = false
  /\ st_isExtracting (extractPalette (Loaded []) (mkAppState [] false "" 6))
     = true.
Proof.
  assert (Hc : (1 <= 6 <= maxColorCount)%Z) by (unfold maxColorCount; lia).
  assert (Hne : Loaded [200; 30; 30; 255]%Z <> Loaded []) by discriminate.
  split; [exact Hc|]. split; [exact Hne|]. split.
  - exact (proj1 (proj1 (proj2 (extractPalette_settles
                                   (Loaded [200; 30; 30; 255]%Z)
                                   (mkAppState [] false "" 6) Hc)) Hne)).
  - exact (proj1 (proj2 (proj2 (proj2 (extractPalette_settles
                                          (Loaded [])
                                          (mkAppState [] false "" 6) Hc))
                           eq_refl))).
Defined.

(* ================================================================= *)
(** * The threshold of getContrastColor *)

Lemma whitePrefix_spec (r g : float) (blues : list float) (n : nat) :
  whitePrefix r g blues = (n, true) ->
  forall i b, nth_error blues i = Some b -> isBlack64 r g b = (n <=? i)%nat.
Proof.
  revert n. induction blues as [|b0 blues IH]; intros n H i b Hi.
  - destruct i; discriminate.
  - simpl in H. destruct (isBlack64 r g b0) eqn:E0.
    + injection H as <- Hall. rewrite forallb_forall in Hall.
      destruct i as [|i]; simpl in Hi.
      * injection Hi as <-. exact E0.
      * apply Hall. eapply nth_error_In, Hi.
    + destruct (whitePrefix r g blues) as [m ok]. injection H as <- ->.
      destruct i as [|i]; simpl in Hi.
      * injection Hi as <-. exact E0.
      * apply (IH m eq_refl i b Hi).
Qed.

Lemma floatBytes_spec : floatBytes = map JS.Z2F bytes.
Proof. vm_compute. reflexivity. Qed.

Lemma nth_floatBytes (b : Z) :
  byte b -> nth_error floatBytes (Z.to_nat b) = Some (JS.Z2F b).
Proof.
  intros [Hlo Hhi]. rewrite floatBytes_spec. apply map_nth_error.
  unfold bytes.
  rewrite <- (Z2Nat.id b Hlo) at 2. apply map_nth_error.
  rewrite (nth_error_nth' _ 0%nat) by (rewrite length_seq; lia).
  rewrite seq_nth by lia. reflexivity.
Qed.

Lemma thresholdAgrees_all :
  forallb (fun r => forallb (thresholdAgrees r) bytes) bytes = true.
Proof. vm_cast_no_check (eq_refl true). Qed.

Lemma getContrastColor_weight (r g b : Z) :
  byte r -> byte g -> byte b ->
  (getContrastColor r g b = black
   <-> (127500 < weight r g b)%Z \/ (r = 218 /\ g = 58 /\ b = 248)%Z).
Proof.
  intros Hr Hg Hb.
  assert (Hbw : black <> white) by discriminate.
  assert (Hiff : getContrastColor r g b = black
                 <-> isBlack64 (JS.Z2F r) (JS.Z2F g) (JS.Z2F b) = true).
  { unfold getContrastColor. change (0.5 <? luminance r g b)%float
      with (isBlack64 (JS.Z2F r) (JS.Z2F g) (JS.Z2F b)).
    destruct (isBlack64 _ _ _); split; congruence. }
  rewrite Hiff. clear Hiff.
  pose proof thresholdAgrees_all as H.
  rewrite forallb_forall in H. specialize (H r (byte_in_bytes r Hr)).
  rewrite forallb_forall in H. specialize (H g (byte_in_bytes g Hg)).
  unfold thresholdAgrees in H.
  destruct (whitePrefix (JS.Z2F r) (JS.Z2F g) floatBytes) as [n ok] eqn:E.
  rewrite !andb_true_iff in H. destruct H as ((-> & Hup) & Hdown).
  rewrite (whitePrefix_spec _ _ _ _ E _ _ (nth_floatBytes b Hb)).
  unfold weight in *. unfold byte in *.
  rewrite !orb_true_iff, !andb_true_iff, ?negb_true_iff, ?andb_false_iff in *.
  rewrite ?Z.eqb_eq, ?Z.ltb_lt, ?Z.leb_le, ?Z.eqb_neq in *.
  rewrite Nat.leb_le. split; intro Hx; lia.
Qed.

Lemma luminanceSpec_weight (r g b : Z) :
  ((1 # 2 < luminanceSpec r g b)%Q <-> (127500 < weight r g b)%Z)
  /\ ((luminanceSpec r g b <= 1 # 2)%Q <-> (weight r g b <= 127500)%Z)
  /\ ((luminanceSpec r g b == 1 # 2)%Q <-> weight r g b = 127500%Z).
Proof.
  assert (E : (luminanceSpec r g b == inject_Z (weight r g b) * (1 # 255000))%Q).
  { unfold luminanceSpec, weight.
    rewrite !inject_Z_plus, !inject_Z_mult.
    change (inject_Z 299) with (299 # 1)%Q. change (inject_Z 587) with (587 # 1)%Q.
    change (inject_Z 114) with (114 # 1)%Q. field. }
  rewrite E. unfold Qlt, Qle, Qeq, Qmult, inject_Z. simpl Qnum. simpl Qden.
  lia.
Qed.

(** C8, as the code has it: for all bytes r, g, b the contrast colour is
    black exactly when the luminance (0.299 r + 0.587 g + 0.114 b) / 255,
    taken exactly, is greater than 1/2 or the colour is (218, 58, 248), and
    white exactly when the luminance is at most 1/2 and the colour is not
    (218, 58, 248); it is always one of these two values, which differ. *)
Theorem getContrastColor_binary (r g b : Z) :
  byte r -> byte g -> byte b ->
  (getContrastColor r g b = black
   <-> (1 # 2 < luminanceSpec r g b)%Q \/ (r = 218 /\ g = 58 /\ b = 248)%Z)
  /\ (getContrastColor r g b = white
      <-> (luminanceSpec r g b <= 1 # 2)%Q
          /\ ~ (r = 218 /\ g = 58 /\ b = 248)%Z)
  /\ (getContrastColor r g b = black \/ getContrastColor r g b = white)
  /\ black <> white.
Proof.
  intros Hr Hg Hb.
  pose proof (getContrastColor_weight r g b Hr Hg Hb) as Hblack.
  destruct (luminanceSpec_weight r g b) as (Hgt & Hle & _).
  assert (Hor : getContrastColor r g b = black \/ getContrastColor r g b = white).
  { unfold getContrastColor. destruct (0.5 <? luminance r g b)%float; auto. }
  assert (Hbw : black <> white) by discriminate.
  split; [rewrite Hgt; exact Hblack|].
  split; [|split; [exact Hor|exact Hbw]].
  rewrite Hle. split.
  - intro Hw. split.
    + destruct (Z.le_gt_cases (weight r g b) 127500) as [H|H]; [exact H|].
      exfalso. apply Hbw. rewrite <- Hw. symmetry. apply Hblack. left. lia.
    + intro Hex. apply Hbw. rewrite <- Hw. symmetry. apply Hblack. right. exact Hex.
  - intros [H Hex]. destruct Hor as [Hk|Hw]; [|exact Hw].
    apply Hblack in Hk. destruct Hk as [Hk|Hk]; [lia|contradiction].
Qed.

Lemma getContrastColor_binary_witness :
  byte 255 /\ byte 22 /\ byte 206 /\ byte 0
  /\ getContrastColor 255 255 255 = black
  /\ getContrastColor 22 206 0 = white.
Proof.
  assert (H255 : byte 255) by byte_lia. assert (H22 : byte 22) by byte_lia.
  assert (H206 : byte 206) by byte_lia. assert (H0 : byte 0) by byte_lia.
  split; [exact H255|]. split; [exact H22|]. split; [exact H206|].
  split; [exact H0|]. split.
  - apply (proj1 (getContrastColor_binary 255 255 255 H255 H255 H255)).
    left. vm_compute. reflexivity.
  - apply (proj1 (proj2 (getContrastColor_binary 22 206 0 H22 H206 H0))).
    split; [vm_compute; discriminate|lia].
Defined.

(** C8 as stated fails: the luminance of (218, 58, 248) is exactly 1/2, not
    greater, and its contrast colour is black, not white.  The double sum
    0.299 * 218 + 0.587 * 58 + 0.114 * 248 is 127.50000000000001. *)
Lemma getContrastColor_half_is_black :
  byte 218 /\ byte 58 /\ byte 248
  /\ (luminanceSpec 218 58 248 == 1 # 2)%Q
  /\ ~ (1 # 2 < luminanceSpec 218 58 248)%Q
  /\ getContrastColor 218 58 248 = black
  /\ getContrastColor 218 58 248 <> white.
Proof.
  split; [byte_lia|]. split; [byte_lia|]. split; [byte_lia|].
  split; [vm_compute; reflexivity|].
  split; [vm_compute; discriminate|].
  split; [vm_compute; reflexivity|].
  vm_compute. discriminate.
Qed.

(** X22: on bytes the double computation of getContrastColor decides as the
    exact one does, one colour apart: it returns black exactly when 299 r +
    587 g + 114 b > 127500 or the colour is (218, 58, 248), whose exact
    luminance is one half; white otherwise.  So it is monotone: raising
    channels never turns black into white. *)
Theorem getContrastColor_threshold (r g b : Z) :
  byte r -> byte g -> byte b ->
  (getContrastColor r g b = black
   <-> (127500 < weight r g b)%Z \/ (r = 218 /\ g = 58 /\ b = 248)%Z)
  /\ (getContrastColor r g b = white
      <-> (weight r g b <= 127500)%Z /\ ~ (r = 218 /\ g = 58 /\ b = 248)%Z)
  /\ (forall r' g' b',
         byte r' -> byte g' -> byte b' ->
         (r <= r')%Z -> (g <= g')%Z -> (b <= b')%Z ->
         getContrastColor r g b = black -> getContrastColor r' g' b' = black).
Proof.
  intros Hr Hg Hb.
  pose proof (getContrastColor_weight r g b Hr Hg Hb) as Hblack.
  split; [exact Hblack|]. split.
  - assert (Hor : getContrastColor r g b = black \/ getContrastColor r g b = white).
    { unfold getContrastColor. destruct (0.5 <? luminance r g b)%float; auto. }
    assert (Hbw : black <> white) by discriminate.
    split.
    + intro Hw. split.
      * destruct (Z.le_gt_cases (weight r g b) 127500) as [Hle|Hgt]; [exact Hle|].
        exfalso. apply Hbw. rewrite <- Hw. symmetry. apply Hblack. left. lia.
      * intro Hex. apply Hbw. rewrite <- Hw. symmetry. apply Hblack. right. exact Hex.
    + intros [Hle Hex]. destruct Hor as [Hk|Hw]; [|exact Hw].
      apply Hblack in Hk. destruct Hk as [Hgt|Hk]; [lia|contradiction].
  - intros r' g' b' Hr' Hg' Hb' Lr Lg Lb Hk.
    apply getContrastColor_weight; try assumption.
    apply Hblack in Hk. unfold weight in *. lia.
Qed.

Lemma getContrastColor_threshold_witness :
  getContrastColor 218 58 248 = black /\ getContrastColor 218 58 247 = white.
Proof.
  assert (H218 : byte 218) by byte_lia.
  assert (H58 : byte 58) by byte_lia.
  assert (H248 : byte 248) by byte_lia.
  assert (H247 : byte 247) by byte_lia.
  split.
  - apply (proj1 (getContrastColor_threshold 218 58 248 H218 H58 H248)).
    right. lia.
  - apply (proj1 (proj2 (getContrastColor_threshold 218 58 247 H218 H58 H247))).
    unfold weight. lia.
Defined.

(* ================================================================= *)
(** * What rgbToHsl rounds *)

Lemma valid_normal (s : bool) (m : positive) (e : Z) :
  valid_binary (S754_finite s m e) = true ->
  (-1074 <= e)%Z /\ (2 ^ 52 <= Z.pos m \/ e = -1074)%Z.
Proof.
  unfold valid_binary, bounded, canonical_mantissa, fexp.
  intro H. apply andb_true_iff in H. destruct H as [H _].
  apply Z.eqb_eq in H. unfold emin, prec, emax in H.
  split; [lia|].
  destruct (Z.eq_dec e (-1074)) as [E|E]; [right; exact E|left].
  assert (Hd : Z.pos (digits2_pos m) = 53%Z) by lia.
  pose proof (digits2_lower m) as Hl. rewrite Hd in Hl. exact Hl.
Qed.

(** A finite double that is not below the normal double
    [c = mc * 2^ec >= N - 1/2], [ec < 0], rounds to [N] at least. *)
Lemma Math_round64_above (c : float) (mc : positive) (ec N : Z) (x : float) :
  Prim2SF c = S754_finite false mc ec ->
  (ec < 0)%Z -> (2 ^ 52 <= Z.pos mc)%Z ->
  ((2 * N - 1) * 2 ^ (- ec) <= 2 * Z.pos mc)%Z ->
  isFinite64 x = true -> (x <? c)%float = false ->
  (N <= JS.Math_round64 x)%Z.
Proof.
  intros Hc Hec Hmc HN Hfin Hlt.
  rewrite FloatAxioms.ltb_spec in Hlt. rewrite Hc in Hlt.
  pose proof (FloatAxioms.Prim2SF_valid x) as Hv.
  pose proof (FloatAxioms.Prim2SF_valid c) as Hvc. rewrite Hc in Hvc.
  pose proof (valid_mantissa _ _ _ Hvc) as Hmc53.
  destruct (valid_normal _ _ _ Hvc) as [Hec74 _].
  assert (Hpc : (2 <= 2 ^ (- ec))%Z).
  { replace (- ec)%Z with (Z.succ (- ec - 1)) by lia.
    rewrite Z.pow_succ_r by lia.
    assert (0 < 2 ^ (- ec - 1))%Z by (apply Z.pow_pos_nonneg; lia). lia. }
  assert (HN52 : (N <= 2 ^ 52)%Z) by nia.
  unfold isFinite64 in Hfin. unfold JS.Math_round64.
  destruct (Prim2SF x) as [sx|sx| |sx m e]; try discriminate.
  destruct sx; [cbv in Hlt; discriminate Hlt|].
  destruct (valid_normal _ _ _ Hv) as [He74 Hnorm].
  unfold SFltb, SFcompare in Hlt.
  assert (He : ((ec < e /\ 2 ^ 52 <= Z.pos m) \/ (e = ec /\ Z.pos mc <= Z.pos m))%Z).
  { destruct (Z.compare_spec e ec) as [E|E|E]; [right|discriminate|left].
    - split; [exact E|].
      change (Pos.compare_cont Eq m mc) with (Pos.compare m mc) in Hlt.
      destruct (Pos.compare_spec m mc); try discriminate; lia.
    - split; [exact E|]. destruct Hnorm as [Hn|Hn]; [exact Hn|lia]. }
  destruct (Z.leb_spec 0 e) as [Hpos|Hneg].
  + assert (0 < 2 ^ e)%Z by (apply Z.pow_pos_nonneg; lia).
    destruct He as [[_ Hm]|[E _]]; [nia|lia].
  + assert (Hk : (0 < 2 ^ (- e))%Z) by (apply Z.pow_pos_nonneg; lia).
    assert (Hbound : ((2 * N - 1) * 2 ^ (- e) <= 2 * Z.pos m)%Z).
    { destruct He as [[Hlt' Hm]|[-> Hm]]; [|lia].
      assert (Hsplit : (2 ^ (- ec) = 2 ^ (- e) * 2 ^ (e - ec))%Z).
      { rewrite <- Z.pow_add_r by lia. f_equal. lia. }
      assert (Hk2 : (2 <= 2 ^ (e - ec))%Z).
      { replace (e - ec)%Z with (Z.succ (e - ec - 1)) by lia.
        rewrite Z.pow_succ_r by lia.
        assert (0 < 2 ^ (e - ec - 1))%Z by (apply Z.pow_pos_nonneg; lia). lia. }
      rewrite Hsplit in HN.
      set (P := (2 ^ (- e))%Z) in *. set (K := (2 ^ (e - ec))%Z) in *.
      destruct (Z.le_gt_cases ((2 * N - 1) * P) (2 * Z.pos m)) as [H|H];
        [exact H|exfalso].
      assert ((2 * Z.pos m + 1) * K <= (2 * N - 1) * P * K)%Z by nia.
      nia. }
    apply Z.div_le_lower_bound; lia.
Qed.

Lemma limits_all :
  forallb (fun n => limitAbove (JS.Z2F n + 0.5) n
                    && ((n =? 0)%Z || limitBelow (JS.Z2F n - 0.5) n)) percents
  = true.
Proof. vm_compute. reflexivity. Qed.

Lemma roundsTo_spec (n : Z) (x : float) :
  (0 <= n <= 100)%Z -> roundsTo n x = true -> JS.Math_round64 x = n.
Proof.
  intros Hn H.
  assert (Hin : In n percents).
  { unfold percents. rewrite <- (Z2Nat.id n (proj1 Hn)). apply in_map, in_seq. lia. }
  pose proof limits_all as Hl. rewrite forallb_forall in Hl.
  specialize (Hl n Hin). apply andb_true_iff in Hl. destruct Hl as [Ha Hb].
  unfold roundsTo in H. cbv zeta in H.
  rewrite !andb_true_iff, !negb_true_iff in H. destruct H as ((Hlt & Hpos) & Hge).
  assert (Hup : isFinite64 x = true /\ (0 <= JS.Math_round64 x <= n)%Z).
  { unfold limitAbove in Ha.
    destruct (Prim2SF (JS.Z2F n + 0.5)) as [| | |[|] mc ec] eqn:E; try discriminate.
    rewrite !andb_true_iff in Ha. destruct Ha as ((H1 & H2) & H3).
    apply Z.ltb_lt in H1. apply Z.leb_le in H2, H3.
    apply (Math_round64_below (JS.Z2F n + 0.5) mc ec n x E H1 H2 H3).
    unfold roundsWithin. rewrite Hlt, Hpos. reflexivity. }
  destruct Hup as [Hfin Hup].
  destruct (Z.eqb_spec n 0) as [->|Hn0]; [lia|].
  simpl in Hb. unfold limitBelow in Hb.
  destruct (Prim2SF (JS.Z2F n - 0.5)) as [| | |[|] mc ec] eqn:E; try discriminate.
  rewrite !andb_true_iff in Hb. destruct Hb as ((H1 & H2) & H3).
  apply Z.ltb_lt in H1. apply Z.leb_le in H2, H3.
  pose proof (Math_round64_above (JS.Z2F n - 0.5) mc ec n x E H1 H2 H3 Hfin Hge)
    as Hlow.
  lia.
Qed.

Lemma hslOfUnit_extremes (r g b r' g' b' : float) :
  JS.Math_max64 (JS.Math_max64 r g) b = JS.Math_max64 (JS.Math_max64 r' g') b' ->
  JS.Math_min64 (JS.Math_min64 r g) b = JS.Math_min64 (JS.Math_min64 r' g') b' ->
  snd (fst (hslOfUnit r g b)) = snd (fst (hslOfUnit r' g' b'))
  /\ snd (hslOfUnit r g b) = snd (hslOfUnit r' g' b').
Proof.
  intros Hmax Hmin. unfold hslOfUnit. cbv zeta. rewrite Hmax, Hmin.
  destruct (_ =? _)%float; split; reflexivity.
Qed.

Lemma extremes_unit (r g b : Z) :
  byte r -> byte g -> byte b ->
  JS.Math_max64 (JS.Math_max64 (JS.Z2F r / 255) (JS.Z2F g / 255)) (JS.Z2F b / 255)
  = (JS.Z2F (Z.max (Z.max r g) b) / 255)%float
  /\ JS.Math_min64 (JS.Math_min64 (JS.Z2F r / 255) (JS.Z2F g / 255)) (JS.Z2F b / 255)
     = (JS.Z2F (Z.min (Z.min r g) b) / 255)%float.
Proof.
  intros Hr Hg Hb.
  assert (Hmax : byte (Z.max r g)) by byte_lia.
  assert (Hmin : byte (Z.min r g)) by byte_lia.
  rewrite !Math_max64_unit, !Math_min64_unit by assumption. split; reflexivity.
Qed.

Lemma rgbToHsl_sat_light (r g b : Z) :
  hsl_s (rgbToHsl r g b)
  = JS.Math_round64 (snd (fst (hslFractions r g b)) * 100)%float
  /\ hsl_l (rgbToHsl r g b)
     = JS.Math_round64 (snd (hslFractions r g b) * 100)%float.
Proof.
  unfold rgbToHsl. destruct (hslFractions r g b) as [[h s] l]. split; reflexivity.
Qed.

Lemma rgbToHsl_same_extremes (r g b r' g' b' : Z) :
  byte r -> byte g -> byte b -> byte r' -> byte g' -> byte b' ->
  Z.max (Z.max r g) b = Z.max (Z.max r' g') b' ->
  Z.min (Z.min r g) b = Z.min (Z.min r' g') b' ->
  hsl_s (rgbToHsl r g b) = hsl_s (rgbToHsl r' g' b')
  /\ hsl_l (rgbToHsl r g b) = hsl_l (rgbToHsl r' g' b').
Proof.
  intros Hr Hg Hb Hr' Hg' Hb' Hmax Hmin.
  destruct (rgbToHsl_sat_light r g b) as [-> ->].
  destruct (rgbToHsl_sat_light r' g' b') as [-> ->].
  destruct (extremes_unit r g b Hr Hg Hb) as [E1 E2].
  destruct (extremes_unit r' g' b' Hr' Hg' Hb') as [E1' E2'].
  unfold hslFractions. cbv zeta.
  assert (H : snd (fst (hslOfUnit (JS.Z2F r / 255) (JS.Z2F g / 255) (JS.Z2F b / 255)))
              = snd (fst (hslOfUnit (JS.Z2F r' / 255) (JS.Z2F g' / 255)
                            (JS.Z2F b' / 255)))
              /\ snd (hslOfUnit (JS.Z2F r / 255) (JS.Z2F g / 255) (JS.Z2F b / 255))
                 = snd (hslOfUnit (JS.Z2F r' / 255) (JS.Z2F g' / 255)
                          (JS.Z2F b' / 255))).
  { apply hslOfUnit_extremes.
    - rewrite E1, E1', Hmax. reflexivity.
    - rewrite E2, E2', Hmin. reflexivity. }
  destruct H as [-> ->]. split; reflexivity.
Qed.

(** X23: on bytes the saturation and the lightness of rgbToHsl depend on the
    greatest and the least channel only; in particular they do not change
    when the channels are permuted. *)
Theorem rgbToHsl_extremes (r g b r' g' b' : Z) :
  byte r -> byte g -> byte b -> byte r' -> byte g' -> byte b' ->
  Z.max (Z.max r g) b = Z.max (Z.max r' g') b' ->
  Z.min (Z.min r g) b = Z.min (Z.min r' g') b' ->
  hsl_s (rgbToHsl r g b) = hsl_s (rgbToHsl r' g' b')
  /\ hsl_l (rgbToHsl r g b) = hsl_l (rgbToHsl r' g' b')
  /\ hsl_s (rgbToHsl r g b) = hsl_s (rgbToHsl g b r)
  /\ hsl_l (rgbToHsl r g b) = hsl_l (rgbToHsl b r g)
  /\ hsl_s (rgbToHsl r g b) = hsl_s (rgbToHsl g r b).
Proof.
  intros Hr Hg Hb Hr' Hg' Hb' Hmax Hmin.
  destruct (rgbToHsl_same_extremes r g b r' g' b') as [Hs Hl]; try assumption.
  split; [exact Hs|]. split; [exact Hl|].
  split; [|split].
  - apply rgbToHsl_same_extremes; try assumption; lia.
  - apply rgbToHsl_same_extremes; try assumption; lia.
  - apply rgbToHsl_same_extremes; try assumption; lia.
Qed.

Lemma rgbToHsl_extremes_witness :
  hsl_s (rgbToHsl 200 30 90) = hsl_s (rgbToHsl 30 200 200)
  /\ hsl_l (rgbToHsl 200 30 90) = hsl_l (rgbToHsl 30 200 200).
Proof.
  assert (H200 : byte 200) by byte_lia.
  assert (H30 : byte 30) by byte_lia.
  assert (H90 : byte 90) by byte_lia.
  destruct (rgbToHsl_extremes 200 30 90 30 200 200 H200 H30 H90 H30 H200 H200
              eq_refl eq_refl) as (Hs & Hl & _).
  split; assumption.
Defined.

Lemma roundsExactly_all :
  forallb (fun max => forallb (roundsExactly max) bytes) bytes = true.
Proof. vm_cast_no_check (eq_refl true). Qed.

Lemma saturationDivisor_pos (max min : Z) :
  byte max -> byte min -> (min < max)%Z -> (0 < saturationDivisor max min)%Z.
Proof.
  unfold byte, saturationDivisor. intros Hmax Hmin Hlt.
  destruct (Z.ltb_spec 255 (max + min)); lia.
Qed.

Lemma rgbToHsl_rounding (max min : Z) :
  byte max -> byte min -> (min <= max)%Z ->
  hsl_l (rgbToHsl max min min) = lightnessPercent max min
  /\ (hsl_s (rgbToHsl max min min) = saturationPercent max min
      \/ (saturationTie max min = true
          /\ hsl_s (rgbToHsl max min min) = (saturationPercent max min - 1)%Z)).
Proof.
  intros Hmax Hmin Hle.
  pose proof roundsExactly_all as H.
  rewrite forallb_forall in H. specialize (H max (byte_in_bytes max Hmax)).
  rewrite forallb_forall in H. specialize (H min (byte_in_bytes min Hmin)).
  unfold roundsExactly in H.
  destruct (Z.ltb_spec max min) as [|_]; [lia|].
  destruct (rgbToHsl_sat_light max min min) as [-> ->].
  destruct (hslFractions max min min) as [[h s] l]. cbn [fst snd].
  cbv zeta in H. apply andb_true_iff in H. destruct H as [Hl Hs].
  assert (Hlp : lightnessPercent max min = ((200 * (max + min) + 510) / 1020)%Z).
  { unfold lightnessPercent. rewrite JSFacts.Math_round_div by lia. f_equal; lia. }
  assert (Hsp : saturationPercent max min
                = if (max =? min)%Z then 0%Z
                  else ((200 * (max - min) + saturationDivisor max min)
                        / (2 * saturationDivisor max min))%Z).
  { unfold saturationPercent. destruct (Z.eqb_spec max min) as [|Hne]; [reflexivity|].
    rewrite JSFacts.Math_round_div by (apply saturationDivisor_pos; try assumption; lia).
    f_equal; lia. }
  rewrite Hlp, Hsp.
  assert (Hlrange : (0 <= (200 * (max + min) + 510) / 1020 <= 100)%Z).
  { unfold byte in *. split; [apply Z.div_pos; lia|].
    apply Z.lt_succ_r, Z.div_lt_upper_bound; lia. }
  assert (Hsrange : (0 <= (if (max =? min)%Z then 0
                           else (200 * (max - min) + saturationDivisor max min)
                                / (2 * saturationDivisor max min)) <= 100)%Z).
  { destruct (Z.eqb_spec max min) as [|Hne]; [lia|].
    pose proof (saturationDivisor_pos max min Hmax Hmin ltac:(lia)) as Hd.
    assert (Hdm : (max - min <= saturationDivisor max min)%Z).
    { unfold saturationDivisor, byte in *.
      destruct (Z.ltb_spec 255 (max + min)); lia. }
    split; [apply Z.div_pos; lia|].
    apply Z.lt_succ_r, Z.div_lt_upper_bound; lia. }
  split; [apply roundsTo_spec; assumption|].
  apply orb_true_iff in Hs. destruct Hs as [Hs|Hs].
  - left. apply roundsTo_spec; assumption.
  - right. rewrite !andb_true_iff in Hs. destruct Hs as [[Htie Hone] Hs].
    split; [exact Htie|].
    assert (Hne : (max =? min)%Z = false).
    { unfold saturationTie in Htie. apply andb_true_iff in Htie.
      destruct Htie as [Hne _]. apply negb_true_iff in Hne. exact Hne. }
    rewrite Hne in *.
    apply roundsTo_spec; [|exact Hs].
    apply Z.leb_le in Hone. lia.
Qed.

(** X24: on bytes the lightness of rgbToHsl is the exact percentage 100 *
    (max + min) / 510 rounded as Math.round does; the saturation is the
    exact percentage rounded in the same way, unless that percentage lies
    halfway between two integers, where the double computation may give the
    integer below. *)
Theorem rgbToHsl_exact_rounding (r g b : Z) :
  byte r -> byte g -> byte b ->
  let max := Z.max (Z.max r g) b in
  let min := Z.min (Z.min r g) b in
  hsl_l (rgbToHsl r g b) = lightnessPercent max min
  /\ (saturationTie max min = false ->
      hsl_s (rgbToHsl r g b) = saturationPercent max min)
  /\ (saturationPercent max min - 1 <= hsl_s (rgbToHsl r g b)
      <= saturationPercent max min)%Z.
Proof.
  intros Hr Hg Hb max min.
  assert (Hmax : byte max) by (subst max; byte_lia).
  assert (Hmin : byte min) by (subst min; byte_lia).
  assert (Hle : (min <= max)%Z) by (subst max min; lia).
  destruct (rgbToHsl_same_extremes r g b max min min) as [Es El];
    try assumption; try (subst max min; lia).
  destruct (rgbToHsl_rounding max min Hmax Hmin Hle) as [Hl Hs].
  rewrite Es, El. split; [exact Hl|]. split.
  - intro Htie. destruct Hs as [Hs|[Htie' _]]; [exact Hs|congruence].
  - destruct Hs as [Hs|[_ Hs]]; lia.
Qed.

Lemma rgbToHsl_exact_rounding_witness :
  hsl_l (rgbToHsl 248 246 246) = lightnessPercent 248 246
  /\ (saturationPercent 248 246 - 1 <= hsl_s (rgbToHsl 248 246 246)
      <= saturationPercent 248 246)%Z.
Proof.
  assert (H248 : byte 248) by byte_lia.
  assert (H246 : byte 246) by byte_lia.
  destruct (rgbToHsl_exact_rounding 248 246 246 H248 H246 H246) as (Hl & _ & Hs).
  split; [exact Hl|exact Hs].
Defined.

(** At a tie the computed saturation can be one below the exact one. *)
Example rgbToHsl_tie_rounds_down :
  saturationTie 248 246 = true
  /\ saturationPercent 248 246 = 13%Z
  /\ hsl_s (rgbToHsl 248 246 246) = 12%Z.
Proof. vm_compute. repeat split; reflexivity. Qed.
